(** * BinRedBoxes relay bot: the message parser and the rate-limited relay

    A shallow embedding of [main.py]: the regular-expression parser
    [parse_and_format_message], the relay [forward_to_targets], the
    admission decision of [handler] and the drain loop [process_queue],
    the last three as coroutines of a cooperative scheduler.  Time is the
    binary64 number that [time.time()] returns. *)

From Stdlib Require Import String Ascii.
From Stdlib Require Import List Bool Arith NArith ZArith QArith Lia.
From Stdlib Require Import Permutation SpecFloat.
Import ListNotations.
Local Open Scope N_scope.

(** ** Text

    A Python [str] is a sequence of Unicode code points. *)

Definition str := list N.

(** An ASCII literal as a [str]. *)
Definition lit (s : string) : str :=
  map N_of_ascii (list_ascii_of_string s).
Arguments lit s%_string.

Definition LF : N := 10.            (* "\n" *)
Definition LT : N := 60.            (* "<" *)
Definition GT : N := 62.            (* ">" *)
Definition PLUS_MINUS : N := 0xB1.      (* U+00B1 plus-minus sign *)
Definition WRAPPED_GIFT : N := 0x1F381. (* U+1F381 *)
Definition MONEY_BAG : N := 0x1F4B0.    (* U+1F4B0 *)
Definition RED_ENVELOPE : N := 0x1F9E7. (* U+1F9E7 *)

Definition in_range (lo hi c : N) : bool := (lo <=? c) && (c <=? hi).

Definition in_ranges (t : list (N * N)) (c : N) : bool :=
  existsb (fun r => in_range (fst r) (snd r) c) t.

(** [str.isspace] on one character, which is what [str.strip()] and the
    pattern [\s] test on a [str]. *)
Definition whitespace_table : list (N * N) :=
  [ (0x09, 0x0D); (0x1C, 0x20); (0x85, 0x85); (0xA0, 0xA0);
    (0x1680, 0x1680); (0x2000, 0x200A); (0x2028, 0x2029);
    (0x202F, 0x202F); (0x205F, 0x205F); (0x3000, 0x3000) ].

Definition isspace : N -> bool := in_ranges whitespace_table.

(** [str.isdecimal] on one character (general category Nd, Unicode 14),
    which is what the pattern [\d] tests on a [str]. *)
Definition decimal_table : list (N * N) :=
  [ (0x30, 0x39); (0x660, 0x669); (0x6F0, 0x6F9); (0x7C0, 0x7C9);
    (0x966, 0x96F); (0x9E6, 0x9EF); (0xA66, 0xA6F); (0xAE6, 0xAEF);
    (0xB66, 0xB6F); (0xBE6, 0xBEF); (0xC66, 0xC6F); (0xCE6, 0xCEF);
    (0xD66, 0xD6F); (0xDE6, 0xDEF); (0xE50, 0xE59); (0xED0, 0xED9);
    (0xF20, 0xF29); (0x1040, 0x1049); (0x1090, 0x1099); (0x17E0, 0x17E9);
    (0x1810, 0x1819); (0x1946, 0x194F); (0x19D0, 0x19D9); (0x1A80, 0x1A89);
    (0x1A90, 0x1A99); (0x1B50, 0x1B59); (0x1BB0, 0x1BB9); (0x1C40, 0x1C49);
    (0x1C50, 0x1C59); (0xA620, 0xA629); (0xA8D0, 0xA8D9); (0xA900, 0xA909);
    (0xA9D0, 0xA9D9); (0xA9F0, 0xA9F9); (0xAA50, 0xAA59); (0xABF0, 0xABF9);
    (0xFF10, 0xFF19); (0x104A0, 0x104A9); (0x10D30, 0x10D39);
    (0x11066, 0x1106F); (0x110F0, 0x110F9); (0x11136, 0x1113F);
    (0x111D0, 0x111D9); (0x112F0, 0x112F9); (0x11450, 0x11459);
    (0x114D0, 0x114D9); (0x11650, 0x11659); (0x116C0, 0x116C9);
    (0x11730, 0x11739); (0x118E0, 0x118E9); (0x11950, 0x11959);
    (0x11C50, 0x11C59); (0x11D50, 0x11D59); (0x11DA0, 0x11DA9);
    (0x16A60, 0x16A69); (0x16AC0, 0x16AC9); (0x16B50, 0x16B59);
    (0x1D7CE, 0x1D7FF); (0x1E140, 0x1E149); (0x1E2F0, 0x1E2F9);
    (0x1E950, 0x1E959); (0x1FBF0, 0x1FBF9) ].

Definition isdecimal : N -> bool := in_ranges decimal_table.

(** The character sets of the four patterns. *)
Definition not_gt (c : N) : bool := negb (c =? GT).                 (* [^>] *)
Definition digit_or_dot (c : N) : bool := isdecimal c || (c =? 46). (* [\d.] *)
Definition upper (c : N) : bool := in_range 65 90 c.                (* A-Z *)
Definition lower (c : N) : bool := in_range 97 122 c.               (* a-z *)
Definition digit09 (c : N) : bool := in_range 48 57 c.              (* 0-9 *)
Definition alnum (c : N) : bool := upper c || lower c || digit09 c. (* [A-Za-z0-9] *)
Definition upper_digit (c : N) : bool := upper c || digit09 c.      (* [A-Z0-9] *)

(** ** Regular expressions

    The fragment of [re] the program uses: literal characters, one-character
    sets, the greedy repetitions [*] and [+] of a set, concatenation and
    capturing groups. *)

Inductive regex : Type :=
| Eps
| Chr (c : N)
| Star (p : N -> bool)
| Plus (p : N -> bool)
| Cat (r1 r2 : regex)
| Group (r : regex).

Fixpoint Lit (s : str) : regex :=
  match s with
  | [] => Eps
  | c :: s' => Cat (Chr c) (Lit s')
  end.

(** What is left of [s] after [p*], the longest repetition first: the order
    in which a backtracking matcher tries a greedy repetition. *)
Fixpoint star_rests (p : N -> bool) (s : str) : list str :=
  match s with
  | [] => [[]]
  | c :: s' => if p c then star_rests p s' ++ [s] else [s]
  end.

(** Every way [r] matches a prefix of [s], in the order the backtracking
    matcher finds them: the groups captured and the rest of the input. *)
Fixpoint matches (r : regex) (s : str) : list (list str * str) :=
  match r with
  | Eps => [([], s)]
  | Chr c =>
      match s with
      | x :: s' => if x =? c then [([], s')] else []
      | [] => []
      end
  | Star p => map (fun rest => ([], rest)) (star_rests p s)
  | Plus p =>
      match s with
      | x :: s' => if p x then map (fun rest => ([], rest)) (star_rests p s') else []
      | [] => []
      end
  | Cat r1 r2 =>
      flat_map (fun m1 =>
                  map (fun m2 => (fst m1 ++ fst m2, snd m2))
                      (matches r2 (snd m1)))
               (matches r1 s)
  | Group r =>
      map (fun m => (firstn (length s - length (snd m)) s :: fst m, snd m))
          (matches r s)
  end.

(** [re.search(r, s)]: the first match at the leftmost position that has
    one; the result holds the captured groups. *)
Fixpoint re_search (r : regex) (s : str) : option (list str) :=
  match matches r s with
  | m :: _ => Some (fst m)
  | [] =>
      match s with
      | [] => None
      | _ :: s' => re_search r s'
      end
  end.

(** [m.group(n)] for [n >= 1]. *)
Definition group (m : list str) (n : nat) : str := nth (n - 1) m [].

(** [re.sub(r, '', s)]: the non-overlapping matches of [r] are removed,
    left to right.  [skip] counts the characters of a match still to
    drop. *)
Fixpoint re_sub_from (r : regex) (skip : nat) (s : str) : str :=
  match s with
  | [] => []
  | c :: s' =>
      match skip with
      | S k => re_sub_from r k s'
      | O =>
          match matches r s with
          | m :: _ =>
              match (length s - length (snd m))%nat with
              | S k => re_sub_from r k s'
              | O => c :: re_sub_from r O s'
              end
          | [] => c :: re_sub_from r O s'
          end
      end
  end.

Definition re_sub (r : regex) (s : str) : str := re_sub_from r O s.

(** ** Strings *)

(** [s.split(sep)] for a one-character separator. *)
Fixpoint split (sep : N) (s : str) : list str :=
  match s with
  | [] => [[]]
  | c :: s' =>
      if c =? sep then [] :: split sep s'
      else match split sep s' with
           | l :: ls => (c :: l) :: ls
           | [] => [[c]]
           end
  end.

Fixpoint lstrip (s : str) : str :=
  match s with
  | c :: s' => if isspace c then lstrip s' else s
  | [] => []
  end.

Definition rstrip (s : str) : str := rev (lstrip (rev s)).

(** [s.strip()] *)
Definition strip (s : str) : str := rstrip (lstrip s).

Definition nonempty (s : str) : bool :=
  match s with [] => false | _ => true end.

(** ** The parser *)

(** [r'<[^>]+>'] *)
Definition tag_re : regex := Cat (Chr LT) (Cat (Plus not_gt) (Chr GT)).

(** [r'±\s*([\d.]+)\s*([A-Za-z0-9]+)'] *)
Definition amount_re : regex :=
  Cat (Chr PLUS_MINUS)
      (Cat (Star isspace)
           (Cat (Group (Plus digit_or_dot))
                (Cat (Star isspace) (Group (Plus alnum))))).

(** [r'Claimed:\s*(\d+)\s*/\s*(\d+)'] *)
Definition claim_re : regex :=
  Cat (Lit (lit "Claimed:"))
      (Cat (Star isspace)
           (Cat (Group (Plus isdecimal))
                (Cat (Star isspace)
                     (Cat (Chr 47)
                          (Cat (Star isspace) (Group (Plus isdecimal))))))).

(** [r'🎁\s*([A-Z0-9]+)'] *)
Definition code_re : regex :=
  Cat (Chr WRAPPED_GIFT) (Cat (Star isspace) (Group (Plus upper_digit))).

(** [[line.strip() for line in text.split("\n") if line.strip()]] *)
Definition stripped_lines (text : str) : list str :=
  filter nonempty (map strip (split LF text)).

(** The fields [parse_and_format_message] extracts. *)
Record fields : Type := mkFields {
  code : str;
  amount : str;
  token : str;
  claimed : str;
  total : str
}.

(** [parse_and_format_message] up to the point where the output is built. *)
Definition parse_fields (text : str) : option fields :=
  let text := re_sub tag_re text in
  let lines := stripped_lines text in
  if (length lines <? 3)%nat then None
  else
    match re_search amount_re (nth 0 lines []) with
    | None => None
    | Some match_amount =>
        let amount := group match_amount 1 in
        let token := group match_amount 2 in
        match re_search claim_re (nth 1 lines []) with
        | None => None
        | Some match_claim =>
            let claimed := group match_claim 1 in
            let total := group match_claim 2 in
            match re_search code_re (nth 2 lines []) with
            | None => None
            | Some match_code =>
                let code := group match_code 1 in
                Some (mkFields code amount token claimed total)
            end
        end
    end.

(** The f-string that builds the output. *)
Definition format_fields (f : fields) : str :=
  ([WRAPPED_GIFT] ++ lit " Code: " ++ code f ++ [LF])
  ++ ([MONEY_BAG] ++ lit " Amount: " ++ amount f ++ lit " " ++ token f ++ [LF])
  ++ ([RED_ENVELOPE] ++ lit " Progress: " ++ claimed f ++ lit " / " ++ total f
        ++ [LF; LF])
  ++ lit "#Binance #RedPacketHub".

Definition parse_and_format_message (text : str) : option str :=
  option_map format_fields (parse_fields text).

Definition sample_input : str :=
  [MONEY_BAG] ++ lit " " ++ [PLUS_MINUS] ++ lit " 0.00000002 BNB" ++ [LF]
  ++ [RED_ENVELOPE] ++ lit " Claimed: 646 / 711" ++ [LF]
  ++ [WRAPPED_GIFT] ++ lit " IJAU5UL6".

Definition sample_output : str :=
  [WRAPPED_GIFT] ++ lit " Code: IJAU5UL6" ++ [LF]
  ++ [MONEY_BAG] ++ lit " Amount: 0.00000002 BNB" ++ [LF]
  ++ [RED_ENVELOPE] ++ lit " Progress: 646 / 711" ++ [LF]
  ++ [LF]
  ++ lit "#Binance #RedPacketHub".

(** ** What a pattern matches

    [rmatch r w g]: the pattern [r] matches exactly the text [w] and
    captures the groups [g].  This is the meaning of the pattern,
    independent of the order of search. *)

Definition all_in (p : N -> bool) (w : str) : Prop :=
  Forall (fun c => p c = true) w.

Inductive rmatch : regex -> str -> list str -> Prop :=
| M_Eps : rmatch Eps [] []
| M_Chr : forall c, rmatch (Chr c) [c] []
| M_Star : forall p w, all_in p w -> rmatch (Star p) w []
| M_Plus : forall p w, w <> [] -> all_in p w -> rmatch (Plus p) w []
| M_Cat : forall r1 r2 w1 w2 g1 g2,
    rmatch r1 w1 g1 -> rmatch r2 w2 g2 ->
    rmatch (Cat r1 r2) (w1 ++ w2) (g1 ++ g2)
| M_Group : forall r w g, rmatch r w g -> rmatch (Group r) w (w :: g).

(** [r] matches somewhere in [s]. *)
Definition found_in (r : regex) (s : str) : Prop :=
  exists pre w post g, s = pre ++ w ++ post /\ rmatch r w g.

(** The match the backtracking matcher finds first at the start of [s]. *)
Definition first_match (r : regex) (s : str) : option (list str * str) :=
  hd_error (matches r s).

(** A greedy repetition of the set [p] stops in front of [rest]. *)
Definition stops (p : N -> bool) (rest : str) : Prop :=
  match rest with
  | [] => True
  | c :: _ => p c = false
  end.

(** No range of [t1] meets a range of [t2]. *)
Definition ranges_apart (t1 t2 : list (N * N)) : bool :=
  forallb (fun r1 =>
             forallb (fun r2 => (snd r1 <? fst r2) || (snd r2 <? fst r1)) t2)
          t1.

Definition absent (c : N) (s : str) : bool := forallb (fun x => negb (x =? c)) s.

(** ** Sample messages *)

(** The sample message with [amt] in the place of the amount. *)
Definition amount_input (amt : str) : str :=
  [MONEY_BAG] ++ lit " " ++ [PLUS_MINUS] ++ lit " " ++ amt ++ lit " BNB" ++ [LF]
  ++ [RED_ENVELOPE] ++ lit " Claimed: 646 / 711" ++ [LF]
  ++ [WRAPPED_GIFT] ++ lit " IJAU5UL6".

Definition amount_output (amt : str) : str :=
  [WRAPPED_GIFT] ++ lit " Code: IJAU5UL6" ++ [LF]
  ++ [MONEY_BAG] ++ lit " Amount: " ++ amt ++ lit " BNB" ++ [LF]
  ++ [RED_ENVELOPE] ++ lit " Progress: 646 / 711" ++ [LF]
  ++ [LF]
  ++ lit "#Binance #RedPacketHub".

(** A decimal number: digits with at most one dot among them. *)
Definition well_formed_decimal (s : str) : bool :=
  forallb digit_or_dot s && existsb isdecimal s
  && (length (filter (N.eqb 46) s) <=? 1)%nat.

(** ** Time

    A point in time, in seconds, as [time.time()] gives it: a float of
    the binary64 format, which has 53 digits and exponents below 1024. *)
Definition time := spec_float.

(** [x - y] on two floats: the difference of the two numbers, rounded to
    the nearest float. *)
Definition float_sub (x y : time) : time := SFsub 53 1024 x y.

(** The float of a whole number of seconds. *)
Definition seconds (n : Z) : time := binary_normalize 53 1024 n 0 false.

(** The number a float stands for. *)
Definition float_value (x : time) : Q :=
  match x with
  | S754_finite s m (Zneg p) => cond_Zopp s (Zpos m) # 2 ^ p
  | S754_finite s m e => inject_Z (cond_Zopp s (Zpos m) * 2 ^ e)
  | _ => 0
  end.

Definition Qltb (x y : Q) : bool := negb (Qle_bool y x).

(** [x > n] for a float and an [int]: Python compares the two numbers as
    they are, without rounding the [int] to a float. *)
Definition float_gt_int (x : time) (n : Z) : bool :=
  match x with
  | S754_nan => false
  | S754_infinity s => negb s
  | _ => Qltb (inject_Z n) (float_value x)
  end.

(** A float that is a number of the format: no infinity and no NaN. *)
Definition is_number (x : time) : bool :=
  match x with
  | S754_zero _ => true
  | S754_finite _ m e => bounded 53 1024 m e
  | _ => false
  end.

(** [now] comes [d] seconds after [last]. *)
Definition seconds_after (d : Z) (last now : time) : Prop :=
  is_number last = true /\ is_number now = true
  /\ (float_value now - float_value last == inject_Z d)%Q.

(** The number of a float in units of [2 ^ -1074], the least positive
    float. *)
Definition scaled (x : time) : Z :=
  match x with
  | S754_finite s m e => (cond_Zopp s (Zpos m) * 2 ^ (e + 1074))%Z
  | _ => 0%Z
  end.

(** A zero, or a float whose exponent is one of the format. *)
Definition low_exponent (x : time) : Prop :=
  match x with
  | S754_zero _ => True
  | S754_finite _ _ e => (-1074 <= e)%Z
  | _ => False
  end.

(** What is left of [M] after [j] shifts to the right: the digits that
    were shifted out are [rest], and the two flags tell whether there are
    ones among them. *)
Definition shr_inv (M j : Z) (mrs : shr_record) : Prop :=
  (0 <= shr_m mrs)%Z
  /\ exists rest,
      (M = shr_m mrs * 2 ^ j + rest)%Z /\ (0 <= rest < 2 ^ j)%Z
      /\ (rest = 0%Z <-> shr_r mrs = false /\ shr_s mrs = false).

(** The float [r] has the sign [s] and a size of at most [B] units. *)
Definition at_most (s : bool) (B : Z) (r : time) : Prop :=
  match r with
  | S754_zero _ => True
  | S754_finite s' m' e' =>
      s' = s /\ (-1074 <= e')%Z /\ (Zpos m' * 2 ^ (e' + 1074) <= B)%Z
  | _ => False
  end.

(** The float [r] has the sign [s] and a size of at least [B] units. *)
Definition at_least (s : bool) (B : Z) (r : time) : Prop :=
  match r with
  | S754_zero _ => (B <= 0)%Z
  | S754_finite s' m' e' =>
      s' = s /\ (-1074 <= e')%Z /\ (B <= Zpos m' * 2 ^ (e' + 1074))%Z
  | S754_infinity s' => s' = s
  | S754_nan => False
  end.

(** ** Configuration and shared state *)

Definition channel := Z.

Record config : Type := mkConfig {
  target_channels : list channel;
  queue_delay : Z;
  rate_limit : Z
}.

(** The module-level variables the coroutines share. *)
Record globals : Type := mkGlobals {
  message_queue : list str;
  is_forwarding : bool;
  last_forward_time : time
}.

(** [last_forward_time = 0]: the subtraction in [handler] turns the int 0
    into the float 0.0. *)
Definition initial_globals : globals := mkGlobals [] false (S754_zero false).

Inductive log_entry : Type :=
| Skipped_hyperlink            (* "Skipped because contains hyperlink" *)
| Skipped_format               (* "Skipped: format does not match." *)
| Queued (size : nat)          (* "Queued message. Queue size: ..." *)
| Forwarded (c : channel)      (* "Forwarded to ..." *)
| Send_error (c : channel)     (* "Send error for ...: ..." *)
| Handler_error.               (* "Error in handler: ..." *)

(** What a coroutine does that the outside sees. *)
Inductive event : Type :=
| Log (l : log_entry)
| Forward (text : str)               (* forward_to_targets(text) is called *)
| Send (c : channel) (text : str)    (* client.send_message(c, text, link_preview=False) *)
| Sleep (d : Z)                      (* asyncio.sleep(d) *)
| Create_task                        (* client.loop.create_task(process_queue()) *)
| Index_error.                       (* popleft() from an empty deque *)

(** Where a coroutine stands after it ran up to its next [await]. *)
Inductive status (A : Type) : Type :=
| Suspended (a : A)
| Returned
| Raised.
Arguments Suspended {A} a.
Arguments Returned {A}.
Arguments Raised {A}.

(** ** forward_to_targets *)

(** The two [await]s of the loop body: the send to [c], with [rest] still
    to come, and the sleep that follows it. *)
Inductive relay_point : Type :=
| In_send (c : channel) (rest : list channel)
| In_pause (rest : list channel).

(** The [for] loop with the channels [chs] left. *)
Definition relay_loop (text : str) (chs : list channel)
  : status relay_point * list event :=
  match chs with
  | [] => (Returned, [])
  | c :: rest => (Suspended (In_send c rest), [Send c text])
  end.

(** The loop resumed; [ok] tells whether the awaited send returned or
    raised an [Exception]. *)
Definition relay_resume (text : str) (pt : relay_point) (ok : bool)
  : status relay_point * list event :=
  match pt with
  | In_send c rest =>
      if ok then (Suspended (In_pause rest), [Log (Forwarded c); Sleep 1])
      else (Suspended (In_pause rest), [Log (Send_error c); Sleep 2])
  | In_pause rest => relay_loop text rest
  end.

Definition forward_to_targets (cfg : config) (text : str)
  : status relay_point * list event :=
  let r := relay_loop text (target_channels cfg) in
  (fst r, Forward text :: snd r).

(** One call of the relay run on its own: the coroutine is resumed once
    for each answer in [answers]. *)
Fixpoint relay_run (text : str) (st : status relay_point) (answers : list bool)
  : status relay_point * list event :=
  match answers, st with
  | ok :: answers', Suspended pt =>
      let r := relay_resume text pt ok in
      let r' := relay_run text (fst r) answers' in
      (fst r', snd r ++ snd r')
  | _, _ => (st, [])
  end.

(** ** Tasks *)

(** The coroutines that are suspended or wait for their first run. *)
Inductive task : Type :=
| Handler_relay (parsed : str) (current : time) (pt : relay_point)
    (* handler, in [await forward_to_targets(parsed)] *)
| Drain_created
    (* process_queue(), created and not yet run *)
| Drain_sleep
    (* process_queue(), in [await asyncio.sleep(queue_delay)] *)
| Drain_relay (msg : str) (pt : relay_point).
    (* process_queue(), in [await forward_to_targets(msg)] *)

(** What a coroutine leaves when it runs from one [await] to the next: the
    shared state, itself if it is suspended again, the tasks it created,
    and its events. *)
Record segment : Type := mkSegment {
  seg_globals : globals;
  seg_self : option task;
  seg_created : list task;
  seg_events : list event
}.

Definition add_events (evs : list event) (s : segment) : segment :=
  mkSegment (seg_globals s) (seg_self s) (seg_created s) (evs ++ seg_events s).

(** ** handler *)

Fixpoint starts_with (p s : str) : bool :=
  match p, s with
  | [], _ => true
  | a :: p', b :: s' => (a =? b) && starts_with p' s'
  | _ :: _, [] => false
  end.

(** [p in s] *)
Fixpoint contains (p s : str) : bool :=
  starts_with p s
  || match s with
     | [] => false
     | _ :: s' => contains p s'
     end.

Definition has_hyperlink (raw : str) : bool :=
  contains (lit "http://") raw || contains (lit "https://") raw
  || contains (lit "<a href=") raw.

(** [not is_forwarding or (current - last_forward_time > rate_limit)] *)
Definition immediate_slot (cfg : config) (g : globals) (current : time) : bool :=
  negb (is_forwarding g)
  || float_gt_int (float_sub current (last_forward_time g)) (rate_limit cfg).

(** The lines of [handler] after [await forward_to_targets(parsed)]. *)
Definition handler_after_relay (current : time) (g : globals) : segment :=
  mkSegment (mkGlobals (message_queue g) true current) None [Drain_created]
            [Create_task].

(** [handler] inside [await forward_to_targets(parsed)]. *)
Definition handler_in_relay (parsed : str) (current : time)
           (r : status relay_point * list event) (g : globals) : segment :=
  match fst r with
  | Suspended pt =>
      mkSegment g (Some (Handler_relay parsed current pt)) [] (snd r)
  | Returned => add_events (snd r) (handler_after_relay current g)
  | Raised => mkSegment g None [] (snd r ++ [Log Handler_error])
  end.

(** [handler(event)] from its start to its first [await] or its end;
    [message] is [event.message.message] and [now] what [time.time()]
    returns. *)
Definition handler (cfg : config) (message : option str) (now : time)
           (g : globals) : segment :=
  let raw := match message with Some s => s | None => [] end in
  if has_hyperlink raw then mkSegment g None [] [Log Skipped_hyperlink]
  else
    match parse_and_format_message raw with
    | None | Some [] => mkSegment g None [] [Log Skipped_format]
    | Some parsed =>
        let current := now in
        if immediate_slot cfg g current then
          handler_in_relay parsed current (forward_to_targets cfg parsed) g
        else
          let q := message_queue g ++ [parsed] in
          mkSegment (mkGlobals q (is_forwarding g) (last_forward_time g)) None []
                    [Log (Queued (length q))]
    end.

(** ** process_queue *)

(** The test of [while message_queue:] and what follows it up to the next
    [await]. *)
Definition process_queue (cfg : config) (g : globals) : segment :=
  match message_queue g with
  | [] =>
      mkSegment (mkGlobals (message_queue g) false (last_forward_time g)) None [] []
  | _ :: _ => mkSegment g (Some Drain_sleep) [] [Sleep (queue_delay cfg)]
  end.

(** [process_queue] inside [await forward_to_targets(msg)]. *)
Definition process_queue_in_relay (cfg : config) (msg : str)
           (r : status relay_point * list event) (g : globals) : segment :=
  match fst r with
  | Suspended pt => mkSegment g (Some (Drain_relay msg pt)) [] (snd r)
  | Returned => add_events (snd r) (process_queue cfg g)
  | Raised => mkSegment g None [] (snd r)
  end.

(** [process_queue] after its sleep: [popleft()] and the relay. *)
Definition process_queue_wake (cfg : config) (g : globals) : segment :=
  match message_queue g with
  | [] => mkSegment g None [] [Index_error]
  | msg :: q =>
      process_queue_in_relay cfg msg (forward_to_targets cfg msg)
                     (mkGlobals q (is_forwarding g) (last_forward_time g))
  end.

(** A task resumed; [ok] is the answer to an awaited send. *)
Definition resume (cfg : config) (t : task) (ok : bool) (g : globals) : segment :=
  match t with
  | Handler_relay parsed current pt =>
      handler_in_relay parsed current (relay_resume parsed pt ok) g
  | Drain_created => process_queue cfg g
  | Drain_sleep => process_queue_wake cfg g
  | Drain_relay msg pt => process_queue_in_relay cfg msg (relay_resume msg pt ok) g
  end.

(** ** The event loop *)

Inductive origin : Type := By_handler | By_drain.

Definition origin_of (t : task) : origin :=
  match t with
  | Handler_relay _ _ _ => By_handler
  | _ => By_drain
  end.

Record system : Type := mkSystem {
  shared : globals;
  tasks : list task;
  trace : list (origin * event)
}.

Definition initial_system : system := mkSystem initial_globals [] [].

(** What the event loop runs next: the handler for a new message, or the
    task at position [i]. *)
Inductive action : Type :=
| New_message (message : option str) (now : time)
| Resume (i : nat) (ok : bool).

Definition tag (o : origin) (evs : list event) : list (origin * event) :=
  map (fun e => (o, e)) evs.

Definition option_list {A : Type} (o : option A) : list A :=
  match o with Some a => [a] | None => [] end.

Definition step (cfg : config) (s : system) (a : action) : system :=
  match a with
  | New_message message now =>
      let r := handler cfg message now (shared s) in
      mkSystem (seg_globals r)
               (tasks s ++ option_list (seg_self r) ++ seg_created r)
               (trace s ++ tag By_handler (seg_events r))
  | Resume i ok =>
      match nth_error (tasks s) i with
      | None => s
      | Some t =>
          let r := resume cfg t ok (shared s) in
          mkSystem (seg_globals r)
                   (firstn i (tasks s) ++ option_list (seg_self r)
                      ++ skipn (S i) (tasks s) ++ seg_created r)
                   (trace s ++ tag (origin_of t) (seg_events r))
      end
  end.

Definition run (cfg : config) (s : system) (acts : list action) : system :=
  fold_left (step cfg) acts s.

(** The events of one origin. *)
Definition events_of (o : origin) (tr : list (origin * event)) : list event :=
  flat_map (fun oe => match fst oe, o with
                      | By_handler, By_handler | By_drain, By_drain => [snd oe]
                      | _, _ => []
                      end) tr.

(** The texts for which the relay was called. *)
Definition forwards (evs : list event) : list str :=
  flat_map (fun e => match e with Forward t => [t] | _ => [] end) evs.

(** The channels to which a send was issued. *)
Definition sends (evs : list event) : list channel :=
  flat_map (fun e => match e with Send c _ => [c] | _ => [] end) evs.

Definition is_drain (t : task) : bool :=
  match t with
  | Handler_relay _ _ _ => false
  | _ => true
  end.

(** The drain loops that are alive. *)
Definition drain_loops (s : system) : nat := length (filter is_drain (tasks s)).

(** [p] occurs in [s]. *)
Definition substring (p s : str) : Prop := exists pre post, s = pre ++ p ++ post.

(** The answers the event loop gives a relay whose sends end as [outcomes]
    tell: the outcome of each send, then the end of the sleep after it. *)
Definition answers (outcomes : list bool) : list bool :=
  flat_map (fun ok => [ok; true]) outcomes.

(** What the relay does for the channel [c] when its send ends as [ok]
    tells. *)
Definition attempt (text : str) (c : channel) (ok : bool) : list event :=
  Send c text
  :: (if ok then [Log (Forwarded c); Sleep 1] else [Log (Send_error c); Sleep 2]).

(** The segment of a handler that puts [parsed] in the queue. *)
Definition queued_segment (parsed : str) (g : globals) : segment :=
  let q := message_queue g ++ [parsed] in
  mkSegment (mkGlobals q (is_forwarding g) (last_forward_time g)) None []
            [Log (Queued (length q))].

(** The trace of a handler that takes an immediate slot, when the sends
    of its relay end as [outcomes] tell. *)
Definition immediate_trace (cfg : config) (parsed : str) (outcomes : list bool)
  : list (origin * event) :=
  tag By_handler
      (Forward parsed
       :: flat_map (fun co => attempt parsed (fst co) (snd co))
                   (combine (target_channels cfg) outcomes)
       ++ [Create_task]).

(** ** A forwarding episode *)

(** The text with which the handler accepts a message, if it does. *)
Definition accepted (message : option str) : option str :=
  let raw := match message with Some s => s | None => [] end in
  if has_hyperlink raw then None
  else
    match parse_and_format_message raw with
    | None | Some [] => None
    | Some parsed => Some parsed
    end.

(** The texts of the messages of a schedule that the handler accepts. *)
Definition enqueued (acts : list action) : list str :=
  flat_map (fun a => match a with
                     | New_message message _ => option_list (accepted message)
                     | Resume _ _ => []
                     end) acts.

(** The message of [a], if it is one that the handler accepts, comes
    within [rate_limit] seconds of [t0]: the test [now - t0 > rate_limit]
    of the handler fails for it. *)
Definition in_window (cfg : config) (t0 : time) (a : action) : bool :=
  match a with
  | New_message message now =>
      match accepted message with
      | Some _ => negb (float_gt_int (float_sub now t0) (rate_limit cfg))
      | None => true
      end
  | Resume _ _ => true
  end.

(** The run of a schedule inside one episode: before each action a task is
    alive, and no accepted message comes after the window that began at
    [t0]. *)
Fixpoint episode (cfg : config) (t0 : time) (s : system) (acts : list action)
  : option system :=
  match acts with
  | [] => Some s
  | a :: acts' =>
      match tasks s with
      | [] => None
      | _ :: _ =>
          if in_window cfg t0 a then episode cfg t0 (step cfg s a) acts'
          else None
      end
  end.

(** The state an immediate send at [t0] leaves, with [q0] in the queue. *)
Definition episode_start (q0 : list str) (t0 : time) : system :=
  mkSystem (mkGlobals q0 true t0) [Drain_created] [].

(** Every call of the relay comes right after a sleep of [d] seconds. *)
Definition paced (d : Z) (evs : list event) : Prop :=
  forall pre m post, evs = pre ++ Forward m :: post ->
                     exists pre', pre = pre' ++ [Sleep d].

(** The only task is the drain loop, or no task is left. *)
Inductive drain_state (cfg : config) (g : globals) (d : list event)
  : list task -> Prop :=
| DS_done :
    is_forwarding g = false -> message_queue g = [] -> drain_state cfg g d []
| DS_created :
    is_forwarding g = true -> drain_state cfg g d [Drain_created]
| DS_sleep : forall d',
    is_forwarding g = true -> message_queue g <> [] ->
    d = d' ++ [Sleep (queue_delay cfg)] ->
    drain_state cfg g d [Drain_sleep]
| DS_relay : forall m pt,
    is_forwarding g = true -> drain_state cfg g d [Drain_relay m pt].

(** The sends that were issued: the channel and the text of each. *)
Definition deliveries (evs : list event) : list (channel * str) :=
  flat_map (fun e => match e with Send c t => [(c, t)] | _ => [] end) evs.

(** The sends a relay of [m] makes, and those the relays of [ms] make. *)
Definition owed (cfg : config) (m : str) : list (channel * str) :=
  map (fun c => (c, m)) (target_channels cfg).

Definition owed_all (cfg : config) (ms : list str) : list (channel * str) :=
  flat_map (owed cfg) ms.

(** The sends the relay in progress has still to make. *)
Definition pending (ts : list task) : list (channel * str) :=
  match ts with
  | [Drain_relay m (In_send _ rest)] | [Drain_relay m (In_pause rest)] =>
      map (fun c => (c, m)) rest
  | _ => []
  end.

(** What holds all along an episode that began at [t0], when [rs] are the
    texts queued so far. *)
Record episode_inv (cfg : config) (t0 : time) (rs : list str) (s : system)
  : Prop := mkEpisodeInv {
  inv_time : last_forward_time (shared s) = t0;
  inv_paced : paced (queue_delay cfg) (events_of By_drain (trace s));
  inv_fifo :
    forwards (events_of By_drain (trace s)) ++ message_queue (shared s) = rs;
  inv_sends :
    deliveries (events_of By_drain (trace s)) ++ pending (tasks s)
    ++ owed_all cfg (message_queue (shared s)) = owed_all cfg rs;
  inv_state :
    drain_state cfg (shared s) (events_of By_drain (trace s)) (tasks s)
}.

(** What a segment of the drain loop keeps, run in the shared state [g]
    after the events [d]: it leaves the queue as it is and calls the relay
    for the texts [fs]. *)
Record segment_keeps (cfg : config) (g : globals) (d : list event)
       (fs : list str) (r : segment) : Prop := mkSegmentKeeps {
  keeps_created : seg_created r = [];
  keeps_time : last_forward_time (seg_globals r) = last_forward_time g;
  keeps_queue : message_queue (seg_globals r) = message_queue g;
  keeps_forwards : forwards (seg_events r) = fs;
  keeps_paced : paced (queue_delay cfg) (d ++ seg_events r);
  keeps_state :
    drain_state cfg (seg_globals r) (d ++ seg_events r) (option_list (seg_self r))
}.

(** The same for a segment that may take texts from the head of the
    queue. *)
Record segment_ok (cfg : config) (g : globals) (d : list event) (r : segment)
  : Prop := mkSegmentOk {
  ok_created : seg_created r = [];
  ok_time : last_forward_time (seg_globals r) = last_forward_time g;
  ok_fifo :
    forwards (seg_events r) ++ message_queue (seg_globals r) = message_queue g;
  ok_paced : paced (queue_delay cfg) (d ++ seg_events r);
  ok_state :
    drain_state cfg (seg_globals r) (d ++ seg_events r) (option_list (seg_self r))
}.

(** The resumptions a relay still needs. *)
Definition relay_left (pt : relay_point) : nat :=
  match pt with
  | In_send _ rest => 2 + 2 * length rest
  | In_pause rest => 1 + 2 * length rest
  end%nat.

(** The resumptions the drain loop still needs to empty the queue. *)
Definition remaining (cfg : config) (g : globals) (ts : list task) : nat :=
  let per := (1 + 2 * length (target_channels cfg))%nat in
  let q := length (message_queue g) in
  match ts with
  | [Drain_created] => (1 + q * per)%nat
  | [Drain_sleep] => (q * per)%nat
  | [Drain_relay _ pt] => (relay_left pt + q * per)%nat
  | _ => 0%nat
  end.

(** ** Messages built from fields *)

(** The fields the three patterns can capture: each one is a non-empty run
    of the characters of its group. *)
Record well_formed_fields (f : fields) : Prop := mkWellFormed {
  wf_code : code f <> [] /\ all_in upper_digit (code f);
  wf_amount : amount f <> [] /\ all_in digit_or_dot (amount f);
  wf_token : token f <> [] /\ all_in alnum (token f);
  wf_claimed : claimed f <> [] /\ all_in isdecimal (claimed f);
  wf_total : total f <> [] /\ all_in isdecimal (total f)
}.

(** A message in the layout of the sample that shows the fields [f]. *)
Definition message_of (f : fields) : str :=
  ([MONEY_BAG] ++ lit " " ++ [PLUS_MINUS] ++ lit " " ++ amount f ++ lit " "
     ++ token f)
  ++ [LF]
  ++ ([RED_ENVELOPE] ++ lit " Claimed: " ++ claimed f ++ lit " / " ++ total f)
  ++ [LF]
  ++ ([WRAPPED_GIFT] ++ lit " " ++ code f).

(** The occurrences of [c] in [s]. *)
Definition occurrences (c : N) (s : str) : nat := count_occ N.eq_dec s c.

(** ** Every schedule of the event loop *)

(** The events of a trace, whoever made them. *)
Definition all_events (tr : list (origin * event)) : list event := map snd tr.

(** A drain loop that will come to the queue: it has yet to test it, or it
    is in a relay and tests it when the relay returns, or it sleeps in
    front of a queue [g] holds texts in. *)
Definition attending (g : globals) (t : task) : bool :=
  match t with
  | Handler_relay _ _ _ => false
  | Drain_created => true
  | Drain_sleep => match message_queue g with [] => false | _ :: _ => true end
  | Drain_relay _ _ => true
  end.

(** The channels a relay has still to send to. *)
Definition channels_left (pt : relay_point) : list channel :=
  match pt with
  | In_send _ rest => rest
  | In_pause rest => rest
  end.

(** The text a task relays comes from [texts], and its channels from the
    configuration. *)
Definition task_sound (cfg : config) (texts : list str) (t : task) : Prop :=
  match t with
  | Handler_relay text _ pt | Drain_relay text pt =>
      In text texts /\ incl (channels_left pt) (target_channels cfg)
  | _ => True
  end.

(** What keeps a queued text from being left behind: texts wait only
    while [is_forwarding] is set, and while it is set some drain loop is
    attending. *)
Record attended (s : system) : Prop := mkAttended {
  att_flag : message_queue (shared s) <> [] -> is_forwarding (shared s) = true;
  att_loop :
    is_forwarding (shared s) = true ->
    existsb (attending (shared s)) (tasks s) = true
}.

(** A send that goes to a channel of the configuration with a text of
    [texts]. *)
Definition delivery_sound (cfg : config) (texts : list str)
           (ct : channel * str) : Prop :=
  In (fst ct) (target_channels cfg) /\ In (snd ct) texts.

(** Everything the system holds or has sent comes from [texts] and goes to
    the channels of the configuration. *)
Record sound (cfg : config) (texts : list str) (s : system) : Prop := mkSound {
  sound_queue : Forall (fun t => In t texts) (message_queue (shared s));
  sound_tasks : Forall (task_sound cfg texts) (tasks s);
  sound_sent :
    Forall (delivery_sound cfg texts) (deliveries (all_events (trace s)))
}.

(** The same for what one segment leaves. *)
Record segment_sound (cfg : config) (texts : list str) (r : segment)
  : Prop := mkSegmentSound {
  ss_queue : Forall (fun t => In t texts) (message_queue (seg_globals r));
  ss_tasks : Forall (task_sound cfg texts) (option_list (seg_self r) ++ seg_created r);
  ss_sent : Forall (delivery_sound cfg texts) (deliveries (seg_events r))
}.

(** Every action of a schedule resumes a handler that is inside its
    relay. *)
Fixpoint resumes_handlers (cfg : config) (s : system) (acts : list action)
  : bool :=
  match acts with
  | [] => true
  | New_message _ _ :: _ => false
  | Resume i ok :: acts' =>
      match nth_error (tasks s) i with
      | Some (Handler_relay _ _ _) =>
          resumes_handlers cfg (step cfg s (Resume i ok)) acts'
      | _ => false
      end
  end.

(** Two handlers took an immediate slot one after the other from the
    state [g], for [p1] at [t1] and for [p2] at [t2]: how far their relays
    are. *)
Inductive two_relays (g : globals) (p1 : str) (t1 : time) (p2 : str) (t2 : time)
  : system -> Prop :=
| Both_under_way : forall pt1 pt2 tr,
    forwards (all_events tr) = [p1; p2] ->
    two_relays g p1 t1 p2 t2
               (mkSystem g [Handler_relay p1 t1 pt1; Handler_relay p2 t2 pt2] tr)
| First_returned : forall pt2 tr,
    forwards (all_events tr) = [p1; p2] ->
    two_relays g p1 t1 p2 t2
               (mkSystem (mkGlobals (message_queue g) true t1)
                         [Handler_relay p2 t2 pt2; Drain_created] tr)
| Second_returned : forall pt1 tr,
    forwards (all_events tr) = [p1; p2] ->
    two_relays g p1 t1 p2 t2
               (mkSystem (mkGlobals (message_queue g) true t2)
                         [Handler_relay p1 t1 pt1; Drain_created] tr)
| Both_returned : forall t tr,
    t = t1 \/ t = t2 ->
    forwards (all_events tr) = [p1; p2] ->
    two_relays g p1 t1 p2 t2
               (mkSystem (mkGlobals (message_queue g) true t)
                         [Drain_created; Drain_created] tr).

(** No [popleft()] from an empty deque among the events. *)
Definition no_index_error (evs : list event) : bool :=
  forallb (fun e => match e with Index_error => false | _ => true end) evs.

(** ** Settings read at start *)

Module Startup.

(** [os.environ] *)
Definition environ := str -> option str.

(** The exceptions the reading of the settings can end with. *)
Inductive error : Type := KeyError | ValueError.

Inductive result (A : Type) : Type :=
| Ok (a : A)
| Raise (e : error).
Arguments Ok {A} a.
Arguments Raise {A} e.

(** What [get_env] returns: an [int], a [str] or [None]. *)
Inductive value : Type :=
| Int (z : Z)
| Str (s : str)
| NoneValue.

(** [logging.critical(f"Missing required environment variable: {name}")] *)
Inductive log : Type := Missing_variable (name : str).

(** *** int(s) for a str *)

(** The value of a decimal digit of any script. *)
Definition decimal_value (c : N) : option N :=
  match find (fun r => in_range (fst r) (snd r) c) decimal_table with
  | Some r => Some ((c - fst r) mod 10)
  | None => None
  end.

(** The white space of the ASCII range that [int] skips. *)
Definition ascii_space (c : N) : bool := in_range 9 13 c || (c =? 32).

(** Before the number is read, white space and digits outside ASCII are
    replaced by a blank and by the ASCII digit of the same value; any other
    character outside ASCII spoils the number. *)
Definition to_ascii (c : N) : N :=
  if c <? 127 then c
  else if isspace c then 32
       else match decimal_value c with
            | Some d => 48 + d
            | None => 63
            end.

Fixpoint skip_spaces (s : str) : str :=
  match s with
  | c :: s' => if ascii_space c then skip_spaces s' else s
  | [] => []
  end.

(** The longest prefix of digits and underscores, and what follows it. *)
Fixpoint number_body (s : str) : str * str :=
  match s with
  | c :: s' =>
      if digit09 c || (c =? 95) then
        let r := number_body s' in (c :: fst r, snd r)
      else ([], s)
  | [] => ([], [])
  end.

(** Every underscore stands in front of a digit. *)
Fixpoint underscores_placed (s : str) : bool :=
  match s with
  | [] => true
  | c :: s' =>
      (if c =? 95 then match s' with d :: _ => digit09 d | [] => false end
       else true)
      && underscores_placed s'
  end.

(** A number starts with a digit and has its underscores between digits,
    one at a time. *)
Definition body_ok (b : str) : bool :=
  match b with
  | c :: _ => digit09 c && underscores_placed b
  | [] => false
  end.

Definition digits_value (ds : str) : Z :=
  fold_left (fun acc d => (acc * 10 + Z.of_N (d - 48))%Z) ds 0%Z.

(** The most digits [int] converts (the default of the interpreter). *)
Definition max_str_digits : nat := 4300.

(** [int(s)]; [None] stands for [ValueError]. *)
Definition int (s : str) : option Z :=
  let t := skip_spaces (map to_ascii s) in
  let signed :=
    match t with
    | c :: t' =>
        if c =? 45 then (true, t') else if c =? 43 then (false, t') else (false, t)
    | [] => (false, [])
    end in
  let b := number_body (snd signed) in
  let ds := filter digit09 (fst b) in
  if body_ok (fst b) && forallb ascii_space (snd b)
     && (length ds <=? max_str_digits)%nat
  then Some (if fst signed then (- digits_value ds)%Z else digits_value ds)
  else None.

(** *** get_env *)

(** A computation that logs and may raise. *)
Definition action (A : Type) : Type := result A * list log.

Definition ret {A : Type} (a : A) : action A := (Ok a, []).

Definition bind {A B : Type} (c : action A) (k : A -> action B) : action B :=
  match fst c with
  | Ok a => (fst (k a), snd c ++ snd (k a))
  | Raise e => (Raise e, snd c)
  end.

Notation "x <- c ;; k" := (bind c (fun x => k))
  (at level 61, c at next level, right associativity).

Definition get_env (env : environ) (name : str) (is_int optional : bool)
  : action value :=
  let attempt :=
    match env name with
    | None => Raise KeyError
    | Some v =>
        if is_int then
          match int v with
          | Some z => Ok (Int z)
          | None => Raise ValueError
          end
        else Ok (Str v)
    end in
  match attempt with
  | Ok v => (Ok v, [])
  | Raise e =>
      if optional then (Ok NoneValue, [])
      else (Raise e, [Missing_variable name])
  end.

(** *** The settings *)

(** [int(v)] for a value of [get_env]. *)
Definition int_of (v : value) : action Z :=
  match v with
  | Int z => ret z
  | Str s => match int s with
             | Some z => ret z
             | None => (Raise ValueError, [])
             end
  | NoneValue => (Raise ValueError, [])
  end.

(** [[int(x) for x in pieces]] *)
Fixpoint ints (pieces : list str) : action (list Z) :=
  match pieces with
  | [] => ret []
  | x :: rest =>
      match int x with
      | Some z => zs <- ints rest ;; ret (z :: zs)
      | None => (Raise ValueError, [])
      end
  end.

(** [[int(x) for x in get_env(name, is_int=False).split(",")]] *)
Definition channel_list (env : environ) (name : str) : action (list Z) :=
  v <- get_env env name false false ;;
  match v with
  | Str s => ints (split 44 s)
  | _ => (Raise ValueError, [])
  end.

(** The truth value of what [get_env] returns. *)
Definition truthy (v : value) : bool :=
  match v with
  | Int z => negb (z =? 0)%Z
  | Str s => nonempty s
  | NoneValue => false
  end.

(** [int(get_env(name, optional=True) or default)] *)
Definition optional_int (env : environ) (name : str) (default : Z) : action Z :=
  v <- get_env env name true true ;;
  int_of (if truthy v then v else Int default).

Record settings : Type := mkSettings {
  api_id : value;
  api_hash : value;
  bot_token : value;
  source_channels : list Z;
  target_channels : list Z;
  queue_delay : Z;
  rate_limit : Z;
  port : Z
}.

(** The assignments under "LOAD CONFIG", in their order. *)
Definition load_config (env : environ) : action settings :=
  api_id <- get_env env (lit "API_ID") true false ;;
  api_hash <- get_env env (lit "API_HASH") false false ;;
  bot_token <- get_env env (lit "BOT_TOKEN") false false ;;
  source_channels <- channel_list env (lit "SOURCE_CHANNELS") ;;
  target_channels <- channel_list env (lit "TARGET_CHANNELS") ;;
  queue_delay <- optional_int env (lit "QUEUE_DELAY") 120 ;;
  rate_limit <- optional_int env (lit "RATE_LIMIT") 60 ;;
  port <- optional_int env (lit "PORT") 8080 ;;
  ret (mkSettings api_id api_hash bot_token source_channels target_channels
                  queue_delay rate_limit port).

(** [os.environ] with the variables of [l], the first entry of a name
    counting. *)
Fixpoint environ_of (l : list (str * str)) : environ :=
  fun name =>
    match l with
    | [] => None
    | (n, v) :: l' =>
        if forallb (fun p => fst p =? snd p) (combine n name)
           && (length n =? length name)%nat
        then Some v else environ_of l' name
    end.

End Startup.

(** The part of the settings the relay and the scheduler use. *)
Definition config_of (st : Startup.settings) : config :=
  mkConfig (Startup.target_channels st) (Startup.queue_delay st)
           (Startup.rate_limit st).

(** [s] reads as an integer. *)
Definition integer_literal (s : str) : Prop := Startup.int s <> None.

(** What the settings need to be read: the three credentials, the first an
    integer, and two lists of integers with commas between them. *)
Definition startup_ready (env : Startup.environ) : Prop :=
  (exists v, env (lit "API_ID") = Some v /\ integer_literal v)
  /\ env (lit "API_HASH") <> None
  /\ env (lit "BOT_TOKEN") <> None
  /\ (exists v, env (lit "SOURCE_CHANNELS") = Some v
                /\ Forall integer_literal (split 44 v))
  /\ (exists v, env (lit "TARGET_CHANNELS") = Some v
                /\ Forall integer_literal (split 44 v)).

(** The value of an optional setting: the integer of the variable if it
    has one that is not zero, the default otherwise. *)
Definition setting (env : Startup.environ) (name : str) (default : Z) : Z :=
  match env name with
  | Some v =>
      match Startup.int v with
      | Some z => if (z =? 0)%Z then default else z
      | None => default
      end
  | None => default
  end.

(** [str(z)] for an integer: the decimal digits of [n], most significant
    first, with [fuel] bounding their number. *)
Fixpoint to_digits (fuel : nat) (n : N) : str :=
  match fuel with
  | O => []
  | S f => if n <? 10 then [48 + n] else to_digits f (n / 10) ++ [48 + n mod 10]
  end.

Definition show (z : Z) : str :=
  let n := Z.abs_N z in
  (if (z <? 0)%Z then [45] else []) ++ to_digits (S (N.to_nat (N.log2 n))) n.

(** [",".join(pieces)] *)
Fixpoint join (pieces : list str) : str :=
  match pieces with
  | [] => []
  | p :: rest =>
      match rest with
      | [] => p
      | _ :: _ => p ++ 44 :: join rest
      end
  end.

(** A list of channels with nothing between two commas, before the first
    or after the last. *)
Definition empty_entry (v : str) : Prop :=
  v = [] \/ (exists post, v = 44 :: post) \/ (exists pre, v = pre ++ [44])
  \/ substring [44; 44] v.

(** An environment with every required variable and one optional one. *)
Definition sample_environ : Startup.environ :=
  Startup.environ_of
    [ (lit "API_ID", lit "12345");
      (lit "API_HASH", lit "0123456789abcdef");
      (lit "BOT_TOKEN", lit "12345:token");
      (lit "SOURCE_CHANNELS", lit "-1001234567890, -1009876543210");
      (lit "TARGET_CHANNELS", lit "-1005555555555");
      (lit "QUEUE_DELAY", lit "0");
      (lit "RATE_LIMIT", lit "soon") ].

(** The settings read from it. *)
Definition sample_settings : Startup.settings :=
  Startup.mkSettings
    (Startup.Int 12345) (Startup.Str (lit "0123456789abcdef"))
    (Startup.Str (lit "12345:token"))
    [(-1001234567890)%Z; (-1009876543210)%Z] [(-1005555555555)%Z]
    120 60 8080.

(** The seconds of sleep among the events. *)
Definition slept (evs : list event) : Z :=
  fold_right (fun e z => match e with Sleep d => (d + z)%Z | _ => z end) 0%Z evs.

(** A tag: an opening bracket, one or more characters that are no closing
    bracket, and a closing bracket. *)
Definition tag_text (body : str) : str := [LT] ++ body ++ [GT].

(** ** The library functions on small inputs *)

(** The matcher backtracks: the token takes the last digit of the run. *)
Example amount_backtracks :
  re_search amount_re ([PLUS_MINUS] ++ lit " 12") = Some [lit "1"; lit "2"].
Proof. vm_compute. reflexivity. Qed.

(** [\d] takes the decimal digits of every script, [[0-9]] only ASCII. *)
Example amount_arabic_digits :
  re_search amount_re ([PLUS_MINUS; 0x663; 0x664] ++ lit " BNB")
  = Some [[0x663; 0x664]; lit "BNB"]
  /\ re_search code_re [WRAPPED_GIFT; 0x663] = None.
Proof. vm_compute. split; reflexivity. Qed.

(** A tag needs a character between its brackets, and may hold more
    opening brackets. *)
Example tags_removed :
  re_sub tag_re (lit "a<>b<<i>c</i>>d") = lit "a<>bc>d".
Proof. vm_compute. reflexivity. Qed.

Example lines_stripped :
  stripped_lines (lit "  a b  " ++ [LF; 13; LF; 9] ++ lit "c" ++ [0xA0; LF])
  = [lit "a b"; lit "c"].
Proof. vm_compute. reflexivity. Qed.

(** ** The matcher finds what the pattern matches *)

Lemma star_rests_self (p : N -> bool) (s : str) : In s (star_rests p s).
Proof.
  destruct s as [|c s]; simpl.
  - now left.
  - destruct (p c); [apply in_or_app; right|]; now left.
Qed.

Lemma star_rests_sound (p : N -> bool) (s rest : str) :
  In rest (star_rests p s) -> exists w, s = w ++ rest /\ all_in p w.
Proof.
  induction s as [|c s IH]; simpl.
  - intros [<-|[]]. exists []. split; [reflexivity|constructor].
  - destruct (p c) eqn:Hc.
    + intros H. apply in_app_or in H. destruct H as [H|[<-|[]]].
      * destruct (IH H) as (w & -> & Hw).
        exists (c :: w). split; [reflexivity|now constructor].
      * exists []. split; [reflexivity|constructor].
    + intros [<-|[]]. exists []. split; [reflexivity|constructor].
Qed.

Lemma star_rests_complete (p : N -> bool) (w rest : str) :
  all_in p w -> In rest (star_rests p (w ++ rest)).
Proof.
  induction 1 as [|c w Hc _ IH]; simpl.
  - apply star_rests_self.
  - cbv beta in Hc. rewrite Hc. apply in_or_app. now left.
Qed.

Lemma firstn_prefix (w rest : str) :
  firstn (length (w ++ rest) - length rest) (w ++ rest) = w.
Proof.
  rewrite length_app, Nat.add_sub.
  rewrite firstn_app, Nat.sub_diag, firstn_all. simpl. apply app_nil_r.
Qed.

Lemma matches_sound (r : regex) :
  forall s g rest, In (g, rest) (matches r s) ->
                   exists w, s = w ++ rest /\ rmatch r w g.
Proof.
  induction r as [|c|p|p|r1 IH1 r2 IH2|r IH]; intros s g rest; simpl.
  - intros [E|[]]. inversion E; subst. exists []. split; [reflexivity|constructor].
  - destruct s as [|x s]; [intros []|].
    destruct (N.eqb_spec x c) as [->|]; [|intros []].
    intros [E|[]]. inversion E; subst. exists [c]. split; [reflexivity|constructor].
  - rewrite in_map_iff. intros (rest' & E & H). inversion E; subst.
    destruct (star_rests_sound _ _ _ H) as (w & -> & Hw).
    exists w. split; [reflexivity|now constructor].
  - destruct s as [|x s]; [intros []|].
    destruct (p x) eqn:Hx; [|intros []].
    rewrite in_map_iff. intros (rest' & E & H). inversion E; subst.
    destruct (star_rests_sound _ _ _ H) as (w & -> & Hw).
    exists (x :: w). split; [reflexivity|].
    constructor; [discriminate|now constructor].
  - rewrite in_flat_map. intros ([g1 s1] & H1 & H). simpl in H.
    rewrite in_map_iff in H. destruct H as ([g2 s2] & E & H2).
    simpl in E. inversion E; subst.
    destruct (IH1 _ _ _ H1) as (w1 & -> & M1).
    destruct (IH2 _ _ _ H2) as (w2 & -> & M2).
    exists (w1 ++ w2). split; [now rewrite app_assoc|now constructor].
  - rewrite in_map_iff. intros ([g' rest'] & E & H). simpl in E.
    destruct (IH _ _ _ H) as (w & -> & M).
    rewrite firstn_prefix in E. inversion E; subst.
    exists w. split; [reflexivity|now constructor].
Qed.

Lemma matches_complete (r : regex) (w : str) (g : list str) :
  rmatch r w g -> forall rest, In (g, rest) (matches r (w ++ rest)).
Proof.
  induction 1 as [|c|p w Hw|p w Hne Hw|r1 r2 w1 w2 g1 g2 _ IH1 _ IH2|r w g _ IH];
    intros rest; simpl.
  - now left.
  - rewrite N.eqb_refl. now left.
  - apply in_map_iff. exists rest. split; [reflexivity|].
    now apply star_rests_complete.
  - destruct w as [|x w]; [congruence|]. inversion Hw; subst. simpl.
    match goal with H : p x = true |- _ => rewrite H end.
    apply in_map_iff. exists rest. split; [reflexivity|].
    now apply star_rests_complete.
  - apply in_flat_map. exists (g1, w2 ++ rest). split.
    + rewrite <- app_assoc. apply IH1.
    + simpl. apply in_map_iff. exists (g2, rest). split; [reflexivity|apply IH2].
  - apply in_map_iff. exists (g, rest). split; [|apply IH].
    simpl. now rewrite firstn_prefix.
Qed.

(** The search finds nothing exactly when the pattern matches nowhere. *)
Lemma re_search_None (r : regex) (s : str) :
  re_search r s = None <-> ~ found_in r s.
Proof.
  induction s as [|c s IH]; simpl.
  - destruct (matches r []) as [|[g rest] ms] eqn:E.
    + split; [|reflexivity]. intros _ (pre & w & post & g & Hs & M).
      symmetry in Hs. apply app_eq_nil in Hs. destruct Hs as [-> Hs].
      apply app_eq_nil in Hs. destruct Hs as [-> ->].
      pose proof (matches_complete _ _ _ M []) as H. simpl in H.
      rewrite E in H. destruct H.
    + split; [discriminate|]. intros H. exfalso. apply H.
      destruct (matches_sound r [] g rest) as (w & Hs & M); [rewrite E; now left|].
      exists [], w, rest, g. now split.
  - destruct (matches r (c :: s)) as [|[g rest] ms] eqn:E.
    + rewrite IH. split.
      * intros Hn (pre & w & post & g & Hs & M).
        destruct pre as [|x pre].
        -- simpl in Hs. pose proof (matches_complete _ _ _ M post) as H.
           rewrite <- Hs, E in H. destruct H.
        -- simpl in Hs. inversion Hs; subst. apply Hn.
           now exists pre, w, post, g.
      * intros Hn (pre & w & post & g & Hs & M). apply Hn.
        exists (c :: pre), w, post, g. split; [now rewrite Hs|assumption].
    + split; [discriminate|]. intros H. exfalso. apply H.
      destruct (matches_sound r (c :: s) g rest) as (w & Hs & M);
        [rewrite E; now left|].
      exists [], w, rest, g. now split.
Qed.

(** What the search returns are the groups of a match found in [s]. *)
Lemma re_search_Some (r : regex) (s : str) (g : list str) :
  re_search r s = Some g ->
  exists pre w post, s = pre ++ w ++ post /\ rmatch r w g.
Proof.
  induction s as [|c s IH]; simpl.
  - destruct (matches r []) as [|[g' rest] ms] eqn:E; [discriminate|].
    intros H. inversion H; subst.
    destruct (matches_sound r [] g rest) as (w & Hs & M); [rewrite E; now left|].
    now exists [], w, rest.
  - destruct (matches r (c :: s)) as [|[g' rest] ms] eqn:E.
    + intros H. destruct (IH H) as (pre & w & post & -> & M).
      now exists (c :: pre), w, post.
    + intros H. inversion H; subst.
      destruct (matches_sound r (c :: s) g rest) as (w & Hs & M);
        [rewrite E; now left|].
      now exists [], w, rest.
Qed.



(** ** Lemmas on strings *)

Lemma split_at_sep (sep : N) (a b : str) :
  ~ In sep a -> split sep (a ++ sep :: b) = a :: split sep b.
Proof.
  induction a as [|c a IH]; simpl; intros Hn.
  - now rewrite N.eqb_refl.
  - destruct (N.eqb_spec c sep) as [->|_]; [exfalso; apply Hn; now left|].
    rewrite IH; [reflexivity|]. intros H. apply Hn. now right.
Qed.

Lemma lstrip_incl (s : str) (c : N) : In c (lstrip s) -> In c s.
Proof.
  induction s as [|x s IH]; simpl; [trivial|].
  destruct (isspace x); [intros H; right; now apply IH|trivial].
Qed.

Lemma strip_incl (s : str) (c : N) : In c (strip s) -> In c s.
Proof.
  unfold strip, rstrip. intros H.
  apply in_rev, lstrip_incl, in_rev in H. now apply lstrip_incl.
Qed.

Lemma lstrip_last_nonspace (s : str) (c : N) :
  isspace c = false -> lstrip (s ++ [c]) <> [].
Proof.
  intros Hc. induction s as [|x s IH]; simpl.
  - now rewrite Hc.
  - destruct (isspace x); [assumption|discriminate].
Qed.

Lemma lstrip_nonspace (c : N) (s : str) :
  isspace c = false -> lstrip (c :: s) = c :: s.
Proof. intros Hc. simpl. now rewrite Hc. Qed.

Lemma strip_head_nonspace (c : N) (s : str) :
  isspace c = false -> strip (c :: s) <> [].
Proof.
  intros Hc. unfold strip, rstrip. rewrite (lstrip_nonspace _ _ Hc). simpl rev.
  intros H. apply (f_equal (@rev N)) in H. rewrite rev_involutive in H.
  now apply (lstrip_last_nonspace (rev s) c Hc).
Qed.

(** A text that starts and ends with characters that are no white space
    is its own [strip()]. *)
Lemma strip_fixed (c d : N) (s : str) :
  isspace c = false -> isspace d = false ->
  strip (c :: s ++ [d]) = c :: s ++ [d].
Proof.
  intros Hc Hd. unfold strip, rstrip. rewrite (lstrip_nonspace _ _ Hc).
  change (c :: s ++ [d]) with ((c :: s) ++ [d]).
  rewrite rev_app_distr. change (rev [d] ++ rev (c :: s)) with (d :: rev (c :: s)).
  rewrite (lstrip_nonspace _ _ Hd).
  change (d :: rev (c :: s)) with ([d] ++ rev (c :: s)).
  rewrite rev_app_distr, rev_involutive. reflexivity.
Qed.

(** ** Lemmas on the tag pattern *)

Lemma tag_re_needs_lt (c : N) (s : str) : c <> LT -> matches tag_re (c :: s) = [].
Proof.
  intros Hc. unfold tag_re. simpl.
  destruct (N.eqb_spec c LT); [contradiction|reflexivity].
Qed.

Lemma re_sub_no_tag_prefix (a b : str) :
  ~ In LT a -> re_sub tag_re (a ++ b) = a ++ re_sub tag_re b.
Proof.
  unfold re_sub. induction a as [|c a IH]; intros Hn; [reflexivity|].
  change ((c :: a) ++ b) with (c :: (a ++ b)).
  cbv beta iota delta [re_sub_from]. fold re_sub_from.
  rewrite tag_re_needs_lt by (intros ->; apply Hn; now left).
  rewrite IH; [reflexivity|]. intros H. apply Hn. now right.
Qed.

Lemma re_sub_no_tag (a : str) : ~ In LT a -> re_sub tag_re a = a.
Proof.
  intros H. rewrite <- (app_nil_r a) at 1.
  rewrite re_sub_no_tag_prefix by assumption. now rewrite app_nil_r.
Qed.

(** ** The first match of a pattern *)

Lemma star_rests_greedy (p : N -> bool) (w rest : str) :
  all_in p w -> stops p rest -> exists tl, star_rests p (w ++ rest) = rest :: tl.
Proof.
  intros Hw Hs. induction Hw as [|c w Hc _ [tl IH]]; simpl.
  - destruct rest as [|c rest]; [now exists []|].
    simpl in Hs. simpl. rewrite Hs. now exists [].
  - cbv beta in Hc. rewrite Hc, IH. now eexists.
Qed.

Lemma first_chr (c : N) (s : str) : first_match (Chr c) (c :: s) = Some ([], s).
Proof. unfold first_match. simpl. now rewrite N.eqb_refl. Qed.

Lemma first_star (p : N -> bool) (w rest : str) :
  all_in p w -> stops p rest -> first_match (Star p) (w ++ rest) = Some ([], rest).
Proof.
  intros Hw Hs. unfold first_match. simpl.
  destruct (star_rests_greedy p w rest Hw Hs) as [tl ->]. reflexivity.
Qed.

Lemma first_plus (p : N -> bool) (w rest : str) :
  w <> [] -> all_in p w -> stops p rest ->
  first_match (Plus p) (w ++ rest) = Some ([], rest).
Proof.
  intros Hne Hw Hs. destruct w as [|x w]; [congruence|].
  inversion Hw as [|? ? Hx Hw']; subst. unfold first_match. simpl. rewrite Hx.
  destruct (star_rests_greedy p w rest Hw' Hs) as [tl ->]. reflexivity.
Qed.

Lemma first_cat (r1 r2 : regex) (s s1 s2 : str) (g1 g2 : list str) :
  first_match r1 s = Some (g1, s1) -> first_match r2 s1 = Some (g2, s2) ->
  first_match (Cat r1 r2) s = Some (g1 ++ g2, s2).
Proof.
  unfold first_match. simpl.
  destruct (matches r1 s) as [|m1 ms1]; [discriminate|]. simpl.
  intros E1. inversion E1; subst. simpl.
  destruct (matches r2 s1) as [|m2 ms2]; [discriminate|]. simpl.
  intros E2. inversion E2; subst. reflexivity.
Qed.

Lemma first_group (r : regex) (w rest : str) (g : list str) :
  first_match r (w ++ rest) = Some (g, rest) ->
  first_match (Group r) (w ++ rest) = Some (w :: g, rest).
Proof.
  unfold first_match. cbn [matches].
  destruct (matches r (w ++ rest)) as [|m ms]; [discriminate|].
  cbn [map hd_error]. intros E. inversion E; subst.
  cbn [fst snd]. now rewrite firstn_prefix.
Qed.

Lemma re_search_first (r : regex) (s rest : str) (g : list str) :
  first_match r s = Some (g, rest) -> re_search r s = Some g.
Proof.
  unfold first_match. destruct s; simpl;
    (destruct (matches r _) as [|m ms]; [discriminate|]);
    simpl; intros E; inversion E; subst; reflexivity.
Qed.

Lemma re_search_skip (r : regex) (c : N) (s : str) :
  matches r (c :: s) = [] -> re_search r (c :: s) = re_search r s.
Proof. intros E. simpl. now rewrite E. Qed.

Lemma re_search_found (r : regex) (s : str) (g : list str) :
  re_search r s = Some g -> found_in r s.
Proof.
  intros H. destruct (re_search_Some _ _ _ H) as (pre & w & post & E & M).
  now exists pre, w, post, g.
Qed.

(** ** Lemmas on the character sets *)

Lemma in_ranges_apart (t1 t2 : list (N * N)) (c : N) :
  ranges_apart t1 t2 = true -> in_ranges t1 c = true -> in_ranges t2 c = false.
Proof.
  unfold ranges_apart, in_ranges. intros Ha H1.
  apply existsb_exists in H1. destruct H1 as (r1 & In1 & H1).
  rewrite forallb_forall in Ha. specialize (Ha r1 In1).
  rewrite forallb_forall in Ha.
  destruct (existsb _ t2) eqn:E; [|reflexivity].
  apply existsb_exists in E. destruct E as (r2 & In2 & H2).
  specialize (Ha r2 In2). unfold in_range in *.
  apply andb_true_iff in H1, H2. destruct H1 as [A1 B1], H2 as [A2 B2].
  apply N.leb_le in A1, B1, A2, B2.
  apply orb_true_iff in Ha. destruct Ha as [Ha|Ha]; apply N.ltb_lt in Ha; lia.
Qed.

Lemma decimal_not_space (c : N) : isdecimal c = true -> isspace c = false.
Proof. apply in_ranges_apart. vm_compute. reflexivity. Qed.

Lemma digit_or_dot_not_space (c : N) : digit_or_dot c = true -> isspace c = false.
Proof.
  unfold digit_or_dot. intros H. apply orb_true_iff in H. destruct H as [H|H].
  - now apply decimal_not_space.
  - apply N.eqb_eq in H. subst. reflexivity.
Qed.

Lemma absent_not_In (c : N) (s : str) : absent c s = true -> ~ In c s.
Proof.
  unfold absent. rewrite forallb_forall. intros H Hin.
  specialize (H c Hin). now rewrite N.eqb_refl in H.
Qed.

Lemma all_in_not_In (p : N -> bool) (c : N) (s : str) :
  p c = false -> all_in p s -> ~ In c s.
Proof.
  intros Hc Hs Hin. unfold all_in in Hs. rewrite Forall_forall in Hs.
  specialize (Hs c Hin). congruence.
Qed.

Lemma stripped_lines_cons (a b : str) :
  ~ In LF a ->
  stripped_lines (a ++ LF :: b) =
  (if nonempty (strip a) then [strip a] else []) ++ stripped_lines b.
Proof.
  intros H. unfold stripped_lines. rewrite split_at_sep by assumption.
  simpl. now destruct (nonempty (strip a)).
Qed.

Lemma amount_re_needs_sign (c : N) (s : str) :
  c <> PLUS_MINUS -> matches amount_re (c :: s) = [].
Proof.
  intros Hc. unfold amount_re. simpl.
  destruct (N.eqb_spec c PLUS_MINUS); [contradiction|reflexivity].
Qed.

(** ** The parser *)

(** C1: on the sample message the parser returns the four template lines,
    with an empty line in front of the line of hashtags. *)
Theorem sample_message_formatted :
  parse_and_format_message sample_input = Some sample_output.
Proof. vm_compute. reflexivity. Qed.

(** C7: a text that, once its tags are removed, has fewer than three
    stripped non-empty lines is rejected. *)
Theorem fewer_than_three_lines_rejected (text : str) :
  (length (stripped_lines (re_sub tag_re text)) < 3)%nat ->
  parse_and_format_message text = None.
Proof.
  intros H. apply Nat.ltb_lt in H.
  unfold parse_and_format_message, parse_fields. cbv zeta. now rewrite H.
Qed.

Lemma fewer_than_three_lines_rejected_witness :
  parse_and_format_message
    ([MONEY_BAG] ++ lit " " ++ [PLUS_MINUS] ++ lit " 0.5 BNB" ++ [LF]
     ++ lit "<b>" ++ [LF] ++ [WRAPPED_GIFT] ++ lit " IJAU5UL6") = None.
Proof.
  apply fewer_than_three_lines_rejected. vm_compute. lia.
Defined.

(** The second line decides alone: whatever the other lines are, a message
    whose second line has no [Claimed:] count is rejected. *)
Lemma claim_line_required (text : str) :
  ~ found_in claim_re (nth 1 (stripped_lines (re_sub tag_re text)) []) ->
  parse_and_format_message text = None.
Proof.
  intros H. apply re_search_None in H.
  unfold parse_and_format_message, parse_fields. cbv zeta.
  destruct (length _ <? 3)%nat; [reflexivity|].
  destruct (re_search amount_re _); [|reflexivity].
  now rewrite H.
Qed.

(** C8: a message of exactly three lines whose first and third line match
    and whose second line has no [Claimed:] count is rejected. *)
Theorem malformed_claim_line_rejected (text l1 l2 l3 : str) :
  stripped_lines (re_sub tag_re text) = [l1; l2; l3] ->
  found_in amount_re l1 ->
  found_in code_re l3 ->
  ~ found_in claim_re l2 ->
  parse_and_format_message text = None.
Proof.
  intros Hl _ _ H2. apply claim_line_required. now rewrite Hl.
Qed.

Lemma malformed_claim_line_rejected_witness :
  parse_and_format_message
    ([MONEY_BAG] ++ lit " " ++ [PLUS_MINUS] ++ lit " 0.00000002 BNB" ++ [LF]
     ++ [RED_ENVELOPE] ++ lit " Claim 646 / 711" ++ [LF]
     ++ [WRAPPED_GIFT] ++ lit " IJAU5UL6") = None.
Proof.
  apply (malformed_claim_line_rejected _
           ([MONEY_BAG] ++ lit " " ++ [PLUS_MINUS] ++ lit " 0.00000002 BNB")
           ([RED_ENVELOPE] ++ lit " Claim 646 / 711")
           ([WRAPPED_GIFT] ++ lit " IJAU5UL6")).
  - vm_compute. reflexivity.
  - apply (re_search_found _ _ [lit "0.00000002"; lit "BNB"]). vm_compute. reflexivity.
  - apply (re_search_found _ _ [lit "IJAU5UL6"]). vm_compute. reflexivity.
  - apply re_search_None. vm_compute. reflexivity.
Defined.

(** *** The amount is taken as it is written *)

Lemma amount_line_searched (amt : str) :
  amt <> [] -> all_in digit_or_dot amt ->
  re_search amount_re
    (MONEY_BAG :: (lit " " ++ [PLUS_MINUS] ++ lit " " ++ amt ++ lit " BN") ++ [66])
  = Some [amt; lit "BNB"].
Proof.
  intros Hne Hall.
  change (MONEY_BAG :: (lit " " ++ [PLUS_MINUS] ++ lit " " ++ amt ++ lit " BN") ++ [66])
    with (MONEY_BAG :: 32 :: (PLUS_MINUS :: 32 :: amt ++ lit " BN") ++ [66]).
  replace ((PLUS_MINUS :: 32 :: amt ++ lit " BN") ++ [66])
    with (PLUS_MINUS :: [32] ++ amt ++ [32] ++ lit "BNB" ++ [])
    by (simpl; now rewrite <- app_assoc).
  rewrite re_search_skip by (apply amount_re_needs_sign; discriminate).
  rewrite re_search_skip by (apply amount_re_needs_sign; discriminate).
  apply re_search_first with (rest := []).
  change [amt; lit "BNB"] with ([] ++ [] ++ [amt] ++ [] ++ [lit "BNB"]).
  unfold amount_re.
  apply first_cat with (s1 := [32] ++ amt ++ [32] ++ lit "BNB" ++ []);
    [apply first_chr|].
  apply first_cat with (s1 := amt ++ [32] ++ lit "BNB" ++ []).
  { apply first_star.
    - now repeat constructor.
    - destruct amt as [|x amt]; [congruence|]. inversion Hall; subst.
      now apply digit_or_dot_not_space. }
  apply first_cat with (s1 := [32] ++ lit "BNB" ++ []).
  { apply first_group, first_plus; [assumption|assumption|reflexivity]. }
  apply first_cat with (s1 := lit "BNB" ++ []).
  { apply first_star; [now repeat constructor|reflexivity]. }
  apply first_group, first_plus; [discriminate|now repeat constructor|exact I].
Qed.

Lemma digit_or_dot_absent (c : N) (amt : str) :
  digit_or_dot c = false -> all_in digit_or_dot amt -> ~ In c amt.
Proof. apply all_in_not_In. Qed.

(** Any non-empty run of digits and dots is accepted as the amount of the
    sample message and copied to the output. *)
Lemma any_amount_accepted (amt : str) :
  amt <> [] -> all_in digit_or_dot amt ->
  parse_and_format_message (amount_input amt) = Some (amount_output amt).
Proof.
  intros Hne Hall.
  pose (l1 := MONEY_BAG :: (lit " " ++ [PLUS_MINUS] ++ lit " " ++ amt ++ lit " BN") ++ [66]).
  pose (l2 := [RED_ENVELOPE] ++ lit " Claimed: 646 / 711").
  pose (l3 := [WRAPPED_GIFT] ++ lit " IJAU5UL6").
  assert (Ein : amount_input amt = l1 ++ LF :: l2 ++ LF :: l3).
  { unfold amount_input, l1, l2, l3. simpl. f_equal. f_equal. f_equal. f_equal.
    rewrite <- !app_assoc. reflexivity. }
  assert (Hin : forall c, In c l1 ->
                          c = MONEY_BAG \/ c = 32 \/ c = PLUS_MINUS \/ In c amt
                          \/ c = 66 \/ c = 78).
  { intros c. unfold l1. simpl. rewrite !in_app_iff. simpl. intuition. }
  assert (Hlt : ~ In LT l1).
  { intros H. apply Hin in H.
    destruct H as [H|[H|[H|[H|[H|H]]]]]; try discriminate.
    revert H. now apply digit_or_dot_absent. }
  assert (Hlf : ~ In LF l1).
  { intros H. apply Hin in H.
    destruct H as [H|[H|[H|[H|[H|H]]]]]; try discriminate.
    revert H. now apply digit_or_dot_absent. }
  assert (Etl : re_sub tag_re (LF :: l2 ++ LF :: l3) = LF :: l2 ++ LF :: l3).
  { apply re_sub_no_tag, absent_not_In. vm_compute. reflexivity. }
  assert (Ltl : stripped_lines (l2 ++ LF :: l3) = [l2; l3])
    by (vm_compute; reflexivity).
  assert (S2 : re_search claim_re l2 = Some [lit "646"; lit "711"])
    by (vm_compute; reflexivity).
  assert (S3 : re_search code_re l3 = Some [lit "IJAU5UL6"])
    by (vm_compute; reflexivity).
  assert (S1 : re_search amount_re l1 = Some [amt; lit "BNB"])
    by (apply amount_line_searched; assumption).
  assert (F1 : strip l1 = l1) by (unfold l1; apply strip_fixed; reflexivity).
  assert (N1 : nonempty l1 = true) by reflexivity.
  clearbody l1 l2 l3.
  unfold parse_and_format_message, parse_fields. cbv zeta.
  rewrite Ein, re_sub_no_tag_prefix, Etl by assumption.
  rewrite stripped_lines_cons, F1, Ltl by assumption.
  rewrite N1. cbn [app length Nat.ltb Nat.leb nth].
  rewrite S1, S2, S3. cbn [option_map]. f_equal.
  unfold format_fields, amount_output, group.
  cbn [nth Nat.sub code amount token claimed total].
  rewrite <- !app_assoc. reflexivity.
Qed.

(** C10: the amount is not validated as a number.  Every non-empty run of
    digits and dots is accepted as the amount and copied to the output, and
    some accepted amount is not a decimal number. *)
Theorem amount_not_validated :
  (forall amt : str,
      amt <> [] -> all_in digit_or_dot amt ->
      parse_and_format_message (amount_input amt) = Some (amount_output amt))
  /\ (exists amt : str,
         well_formed_decimal amt = false
         /\ parse_and_format_message (amount_input amt) = Some (amount_output amt)).
Proof.
  split; [exact any_amount_accepted|].
  exists (lit "..."). split; vm_compute; reflexivity.
Qed.

Lemma amount_not_validated_witness :
  parse_and_format_message (amount_input (lit "1.2.3"))
  = Some (amount_output (lit "1.2.3")).
Proof.
  apply (proj1 amount_not_validated (lit "1.2.3")).
  - discriminate.
  - repeat constructor.
Defined.

(** *** The output is not a message to parse *)

Lemma code_re_group (w : str) (g : list str) :
  rmatch code_re w g -> exists k, g = [k] /\ all_in upper_digit k.
Proof.
  unfold code_re. intros M.
  inversion M as [| | | |? ? ? ? ? ? M1 M2|]; subst.
  inversion M1; subst.
  inversion M2 as [| | | |? ? ? ? ? ? M3 M4|]; subst.
  inversion M3; subst.
  inversion M4 as [| | | | |? ? ? M5]; subst.
  inversion M5; subst.
  eexists. split; [reflexivity|assumption].
Qed.

Lemma amount_re_sign (w : str) (g : list str) :
  rmatch amount_re w g -> In PLUS_MINUS w.
Proof.
  unfold amount_re. intros M.
  inversion M as [| | | |? ? ? ? ? ? M1 M2|]; subst.
  inversion M1; subst. now left.
Qed.

Lemma parsed_code (text : str) (f : fields) :
  parse_fields text = Some f -> all_in upper_digit (code f).
Proof.
  unfold parse_fields. cbv zeta.
  destruct (length _ <? 3)%nat; [discriminate|].
  destruct (re_search amount_re _); [|discriminate].
  destruct (re_search claim_re _); [|discriminate].
  destruct (re_search code_re _) as [mc|] eqn:E; [|discriminate].
  intros H. inversion H; subst. simpl.
  destruct (re_search_Some _ _ _ E) as (pre & w & post & _ & M).
  destruct (code_re_group _ _ M) as (k & -> & Hk). exact Hk.
Qed.

(** The first line of the output holds no plus-minus sign, so a parse of
    the output stops at the first pattern. *)
Lemma formatted_text_rejected (text : str) (f : fields) :
  parse_fields text = Some f -> parse_fields (format_fields f) = None.
Proof.
  intros Hp. pose proof (parsed_code _ _ Hp) as Hc.
  pose (a := WRAPPED_GIFT :: lit " Code: " ++ code f).
  assert (Hin : forall c, In c a ->
                          c = WRAPPED_GIFT \/ In c (lit " Code: ") \/ In c (code f)).
  { intros c [H|H]; [now left; symmetry|]. apply in_app_or in H. tauto. }
  assert (Hno : forall c, c <> WRAPPED_GIFT -> absent c (lit " Code: ") = true ->
                          upper_digit c = false -> ~ In c a).
  { intros c H1 H2 H3 H. apply Hin in H. destruct H as [H|[H|H]].
    - contradiction.
    - revert H. now apply absent_not_In.
    - revert H. now apply all_in_not_In with (p := upper_digit). }
  assert (Hlt : ~ In LT a) by (apply Hno; [discriminate|reflexivity|reflexivity]).
  assert (Hlf : ~ In LF a) by (apply Hno; [discriminate|reflexivity|reflexivity]).
  assert (Hpm : ~ In PLUS_MINUS a)
    by (apply Hno; [discriminate|reflexivity|reflexivity]).
  assert (Hne : nonempty (strip a) = true).
  { destruct (strip a) eqn:E; [|reflexivity].
    exfalso. revert E. unfold a. now apply strip_head_nonspace. }
  assert (E : exists rest, format_fields f = (a ++ [LF]) ++ rest).
  { eexists. unfold format_fields, a. simpl. rewrite <- !app_assoc. reflexivity. }
  destruct E as [rest E]. clearbody a.
  unfold parse_fields. cbv zeta. rewrite E.
  rewrite re_sub_no_tag_prefix.
  2:{ intros H. apply in_app_or in H. destruct H as [H|[H|[]]];
      [contradiction|discriminate]. }
  rewrite <- app_assoc. cbn [app].
  rewrite stripped_lines_cons, Hne by assumption. cbn [app nth].
  destruct (length _ <? 3)%nat; [reflexivity|].
  replace (re_search amount_re (strip a)) with (@None (list str)); [reflexivity|].
  symmetry. apply re_search_None.
  intros (pre & w & post & g & Es & M). apply Hpm, strip_incl. rewrite Es.
  apply in_or_app. right. apply in_or_app. left. now apply amount_re_sign with g.
Qed.

(** C9: the output of a successful parse, parsed again, is rejected or
    gives other fields than those that produced it; on this program it is
    always the first. *)
Theorem reparse_rejected_or_different (text : str) (f : fields) :
  parse_fields text = Some f ->
  parse_and_format_message (format_fields f) = None
  \/ (exists f', parse_fields (format_fields f) = Some f' /\ f' <> f).
Proof.
  intros H. left. unfold parse_and_format_message.
  now rewrite (formatted_text_rejected text f H).
Qed.

Lemma reparse_rejected_or_different_witness :
  parse_and_format_message sample_output = None
  \/ (exists f', parse_fields sample_output = Some f'
                 /\ f' <> mkFields (lit "IJAU5UL6") (lit "0.00000002") (lit "BNB")
                                   (lit "646") (lit "711")).
Proof.
  apply (reparse_rejected_or_different sample_input
           (mkFields (lit "IJAU5UL6") (lit "0.00000002") (lit "BNB")
                     (lit "646") (lit "711"))).
  vm_compute. reflexivity.
Defined.

(** ** The hyperlink check *)

Lemma starts_with_spec (p s : str) :
  starts_with p s = true <-> exists post, s = p ++ post.
Proof.
  revert s. induction p as [|a p IH]; intros s; simpl.
  - split; [intros _; now exists s|reflexivity].
  - destruct s as [|b s].
    + split; [discriminate|intros [post H]; discriminate].
    + rewrite andb_true_iff, N.eqb_eq, IH. split.
      * intros [-> [post ->]]. now exists post.
      * intros [post H]. inversion H; subst. split; [reflexivity|now exists post].
Qed.

Lemma contains_spec (p s : str) : contains p s = true <-> substring p s.
Proof.
  unfold substring. induction s as [|c s IH]; simpl.
  - rewrite orb_false_r, starts_with_spec. split.
    + intros [post H]. now exists [], post.
    + intros (pre & post & H). destruct pre; [now exists post|discriminate].
  - rewrite orb_true_iff, starts_with_spec, IH. split.
    + intros [[post H]|(pre & post & H)].
      * now exists [], post.
      * exists (c :: pre), post. now rewrite H.
    + intros (pre & post & H). destruct pre as [|x pre].
      * left. now exists post.
      * right. inversion H; subst. now exists pre, post.
Qed.

(** C4: a message whose text holds [http://], [https://] or [<a href=]
    anywhere is skipped with a log entry, whatever else it holds: nothing is
    queued, sent or created, and the parser is not consulted. *)
Theorem hyperlink_skipped (cfg : config) (raw : str) (now : time) (g : globals) :
  substring (lit "http://") raw \/ substring (lit "https://") raw
  \/ substring (lit "<a href=") raw ->
  handler cfg (Some raw) now g = mkSegment g None [] [Log Skipped_hyperlink].
Proof.
  intros H. unfold handler. cbv zeta.
  replace (has_hyperlink raw) with true; [reflexivity|].
  symmetry. unfold has_hyperlink. rewrite !orb_true_iff, !contains_spec. tauto.
Qed.

Lemma hyperlink_skipped_witness :
  handler (mkConfig [1%Z; 2%Z] 120 60)
          (Some (sample_input ++ lit " https://t.me/x")) (seconds 1000) initial_globals
  = mkSegment initial_globals None [] [Log Skipped_hyperlink].
Proof.
  apply hyperlink_skipped. right. left.
  exists (sample_input ++ lit " "), (lit "t.me/x"). vm_compute. reflexivity.
Defined.

(** The check compares characters as they are: upper-case markers pass. *)
Lemma hyperlink_check_case_sensitive :
  has_hyperlink (lit "HTTP://T.ME HTTPS://T.ME <A HREF=x>") = false.
Proof. vm_compute. reflexivity. Qed.

(** ** The relay *)

Lemma relay_run_cons (text : str) (pt : relay_point) (ok : bool) (l : list bool) :
  relay_run text (Suspended pt) (ok :: l)
  = (fst (relay_run text (fst (relay_resume text pt ok)) l),
     snd (relay_resume text pt ok)
     ++ snd (relay_run text (fst (relay_resume text pt ok)) l)).
Proof. reflexivity. Qed.

Lemma relay_resume_send (text : str) (c : channel) (rest : list channel) (ok : bool) :
  relay_resume text (In_send c rest) ok
  = (Suspended (In_pause rest), skipn 1 (attempt text c ok)).
Proof. now destruct ok. Qed.

Lemma relay_run_from_send (text : str) (c : channel) (rest : list channel) :
  forall (ok : bool) (outcomes : list bool),
    length outcomes = length rest ->
    relay_run text (Suspended (In_send c rest)) (answers (ok :: outcomes))
    = (Returned,
       skipn 1 (attempt text c ok)
       ++ flat_map (fun co => attempt text (fst co) (snd co)) (combine rest outcomes)).
Proof.
  revert c. induction rest as [|c' rest IH]; intros c ok [|ok' os] Hlen;
    try discriminate.
  - change (answers [ok]) with [ok; true].
    rewrite relay_run_cons, relay_resume_send. cbn [fst snd].
    rewrite relay_run_cons. reflexivity.
  - simpl in Hlen. injection Hlen as Hlen.
    change (answers (ok :: ok' :: os)) with (ok :: true :: answers (ok' :: os)).
    rewrite relay_run_cons, relay_resume_send. cbn [fst snd].
    rewrite relay_run_cons. cbn [relay_resume relay_loop fst snd].
    rewrite (IH c' ok' os Hlen). cbn [fst snd combine flat_map].
    unfold attempt at 2 3. reflexivity.
Qed.

Lemma relay_run_complete (cfg : config) (text : str) (outcomes : list bool) :
  length outcomes = length (target_channels cfg) ->
  relay_run text (fst (forward_to_targets cfg text)) (answers outcomes)
  = (Returned,
     skipn 1 (flat_map (fun co => attempt text (fst co) (snd co))
                       (combine (target_channels cfg) outcomes))).
Proof.
  unfold forward_to_targets. cbv zeta. cbn [fst].
  destruct (target_channels cfg) as [|c rest]; intros Hlen.
  - destruct outcomes; [reflexivity|discriminate].
  - destruct outcomes as [|ok os]; [discriminate|].
    simpl in Hlen. injection Hlen as Hlen.
    cbn [relay_loop fst]. rewrite (relay_run_from_send text c rest ok os Hlen).
    cbn [combine flat_map fst snd]. unfold attempt at 2. reflexivity.
Qed.

Lemma sends_attempts (text : str) (chs : list channel) :
  forall outcomes : list bool,
    length outcomes = length chs ->
    sends (flat_map (fun co => attempt text (fst co) (snd co)) (combine chs outcomes))
    = chs.
Proof.
  unfold sends. induction chs as [|c chs IH]; intros [|ok os] Hlen;
    try discriminate; [reflexivity|].
  simpl in Hlen. injection Hlen as Hlen.
  cbn [combine flat_map fst snd]. rewrite flat_map_app, (IH os Hlen).
  unfold attempt. now destruct ok.
Qed.

(** C6: in one call of the relay, a send that fails is logged and followed
    by the longer sleep, the coroutine stays in the loop with the shared
    state as it was, every channel of the list is attempted in order
    whatever the outcomes are, and the call returns. *)
Theorem relay_isolates_failures
        (cfg : config) (text : str) (outcomes : list bool) :
  length outcomes = length (target_channels cfg) ->
  let start := forward_to_targets cfg text in
  let finish := relay_run text (fst start) (answers outcomes) in
  fst finish = Returned
  /\ snd start ++ snd finish
     = Forward text
       :: flat_map (fun co => attempt text (fst co) (snd co))
                   (combine (target_channels cfg) outcomes)
  /\ sends (snd start ++ snd finish) = target_channels cfg
  /\ (forall parsed current c rest g,
         resume cfg (Handler_relay parsed current (In_send c rest)) false g
         = mkSegment g (Some (Handler_relay parsed current (In_pause rest))) []
                     [Log (Send_error c); Sleep 2])
  /\ (forall msg c rest g,
         resume cfg (Drain_relay msg (In_send c rest)) false g
         = mkSegment g (Some (Drain_relay msg (In_pause rest))) []
                     [Log (Send_error c); Sleep 2]).
Proof.
  intros Hlen start finish.
  assert (E : snd start ++ snd finish
              = Forward text
                :: flat_map (fun co => attempt text (fst co) (snd co))
                            (combine (target_channels cfg) outcomes)).
  { unfold finish, start. rewrite (relay_run_complete cfg text outcomes Hlen).
    unfold forward_to_targets. cbv zeta. cbn [fst snd].
    destruct (target_channels cfg) as [|c rest].
    - reflexivity.
    - destruct outcomes as [|ok os]; [discriminate|].
      cbn [relay_loop snd combine flat_map fst]. unfold attempt at 1 3.
      reflexivity. }
  split; [|split; [exact E|split; [|split; reflexivity]]].
  - unfold finish, start. now rewrite (relay_run_complete cfg text outcomes Hlen).
  - rewrite E. change (sends (Forward text :: ?l)) with (sends l).
    now apply sends_attempts.
Qed.

Lemma relay_isolates_failures_witness :
  let cfg := mkConfig [1%Z; 2%Z] 120 60 in
  let start := forward_to_targets cfg sample_output in
  let finish := relay_run sample_output (fst start) (answers [false; true]) in
  fst finish = Returned
  /\ snd start ++ snd finish
     = [Forward sample_output;
        Send 1%Z sample_output; Log (Send_error 1%Z); Sleep 2;
        Send 2%Z sample_output; Log (Forwarded 2%Z); Sleep 1]
  /\ sends (snd start ++ snd finish) = [1%Z; 2%Z].
Proof.
  destruct (relay_isolates_failures (mkConfig [1%Z; 2%Z] 120 60) sample_output
                                    [false; true] eq_refl)
    as (H1 & H2 & H3 & _).
  exact (conj H1 (conj H2 H3)).
Defined.

(** * Time

    The subtraction of two floats is the difference of their numbers,
    rounded.  Against a whole number below [2 ^ 53] the rounding cannot
    change sides: such a number is itself a float. *)

Section Rounding.
Local Open Scope Z_scope.

Lemma digits2_pos_bounds (m : positive) :
  2 ^ (Zpos (digits2_pos m) - 1) <= Zpos m < 2 ^ Zpos (digits2_pos m).
Proof.
  induction m as [p IH|p IH|]; cbn [digits2_pos].
  - rewrite Pos2Z.inj_succ.
    replace (Z.succ (Zpos (digits2_pos p)) - 1)
      with (Z.succ (Zpos (digits2_pos p) - 1)) by lia.
    rewrite !Z.pow_succ_r by lia. lia.
  - rewrite Pos2Z.inj_succ.
    replace (Z.succ (Zpos (digits2_pos p)) - 1)
      with (Z.succ (Zpos (digits2_pos p) - 1)) by lia.
    rewrite !Z.pow_succ_r by lia. lia.
  - change (2 ^ (1 - 1)) with 1. change (2 ^ 1) with 2. lia.
Qed.

Lemma Zdigits2_bounds (m : Z) :
  0 < m ->
  1 <= Zdigits2 m /\ 2 ^ (Zdigits2 m - 1) <= m < 2 ^ Zdigits2 m.
Proof.
  destruct m as [|p|p]; try lia. intros _. cbn [Zdigits2].
  split; [lia|apply digits2_pos_bounds].
Qed.

Lemma iter_pos_iter {A : Type} (f : A -> A) (p : positive) :
  forall x, iter_pos f p x = Pos.iter f x p.
Proof.
  induction p as [p IH|p IH|]; intros x; cbn [iter_pos Pos.iter].
  - now rewrite !IH, !Pos.iter_swap.
  - now rewrite !IH.
  - reflexivity.
Qed.

Lemma iter_xO (m d : positive) : Zpos (Pos.iter xO m d) = Zpos m * 2 ^ Zpos d.
Proof.
  induction d as [|d IH] using Pos.peano_ind.
  - cbn [Pos.iter]. change (2 ^ 1) with 2. lia.
  - rewrite Pos.iter_succ, Pos2Z.inj_succ, Z.pow_succ_r by lia.
    rewrite Pos2Z.inj_xO, IH. lia.
Qed.

Lemma shr_1_inv (M j : Z) (mrs : shr_record) :
  0 <= j -> shr_inv M j mrs -> shr_inv M (j + 1) (shr_1 mrs).
Proof.
  intros Hj (Hm & rest & HM & Hr & Hbits). unfold shr_inv.
  rewrite Z.pow_add_r by lia. change (2 ^ 1) with 2.
  assert (HP : 0 < 2 ^ j) by (apply Z.pow_pos_nonneg; lia).
  destruct mrs as [m r s]. cbn [shr_m shr_r shr_s] in *.
  destruct m as [|[p|p|]|p]; try lia; cbn [shr_1 shr_m shr_r shr_s].
  - split; [lia|]. exists rest. split; [lia|]. split; [lia|].
    rewrite Hbits. destruct r, s; intuition congruence.
  - split; [lia|]. exists (2 ^ j + rest). split; [lia|]. split; [lia|].
    split; [lia|]. intros [H _]. discriminate.
  - split; [lia|]. exists rest. split; [lia|]. split; [lia|].
    rewrite Hbits. destruct r, s; intuition congruence.
  - split; [lia|]. exists (2 ^ j + rest). split; [lia|]. split; [lia|].
    split; [lia|]. intros [H _]. discriminate.
Qed.

Lemma shr_iter_inv (M : Z) (p : positive) :
  0 <= M ->
  shr_inv M (Zpos p) (iter_pos shr_1 p (Build_shr_record M false false)).
Proof.
  intros HM. rewrite iter_pos_iter.
  assert (H0 : shr_inv M 0 (Build_shr_record M false false)).
  { split; [assumption|]. exists 0. cbn [shr_m shr_r shr_s].
    change (2 ^ 0) with 1. repeat split; lia. }
  apply (Pos.iter_ind _ shr_1 _ (fun p a => shr_inv M (Zpos p) a)).
  - now apply (shr_1_inv M 0).
  - intros q a Ha. rewrite Pos2Z.inj_succ. now apply (shr_1_inv M (Zpos q)).
Qed.


Lemma fexp_eq (x : Z) : fexp 53 1024 x = Z.max (x - 53) (-1074).
Proof. reflexivity. Qed.

Lemma shr_fexp_inv (M e : Z) :
  0 <= M ->
  snd (shr_fexp 53 1024 M e loc_Exact)
  = e + Z.max 0 (fexp 53 1024 (Zdigits2 M + e) - e)
  /\ shr_inv M (Z.max 0 (fexp 53 1024 (Zdigits2 M + e) - e))
             (fst (shr_fexp 53 1024 M e loc_Exact)).
Proof.
  intros HM. unfold shr_fexp, shr. cbn [shr_record_of_loc].
  assert (H0 : shr_inv M 0 (Build_shr_record M false false)).
  { split; [assumption|]. exists 0. cbn [shr_m shr_r shr_s].
    change (2 ^ 0) with 1. repeat split; lia. }
  destruct (fexp 53 1024 (Zdigits2 M + e) - e) as [|p|p]; cbn [fst snd].
  - split; [lia|exact H0].
  - replace (Z.max 0 (Zpos p)) with (Zpos p) by lia.
    split; [reflexivity|now apply shr_iter_inv].
  - replace (Z.max 0 (Zneg p)) with 0 by lia. split; [lia|exact H0].
Qed.

Lemma round_nearest_even_bounds (M k : Z) (mrs : shr_record) :
  shr_inv M k mrs ->
  exists rest,
    M = shr_m mrs * 2 ^ k + rest /\ 0 <= rest < 2 ^ k /\ 0 <= shr_m mrs
    /\ shr_m mrs <= round_nearest_even (shr_m mrs) (loc_of_shr_record mrs)
       <= shr_m mrs + 1
    /\ (rest = 0 ->
        round_nearest_even (shr_m mrs) (loc_of_shr_record mrs) = shr_m mrs).
Proof.
  intros (Hm & rest & HM & Hr & Hbits). exists rest.
  repeat (split; [assumption|]).
  destruct mrs as [m r s]. cbn [shr_m shr_r shr_s] in *.
  split.
  - destruct r, s; cbn [loc_of_shr_record round_nearest_even]; try lia.
    destruct (Z.even m); lia.
  - intros H0. apply Hbits in H0. destruct H0 as [-> ->]. reflexivity.
Qed.

Lemma pow2_pos (x : Z) : 0 <= x -> 0 < 2 ^ x.
Proof. intros H. apply Z.pow_pos_nonneg; lia. Qed.

(** A number with [d] digits, [x] places up, that stays below [2 ^ y]. *)
Lemma digits_below (a d x y : Z) :
  2 ^ (d - 1) <= a -> 1 <= d -> 0 <= x -> 0 <= y ->
  a * 2 ^ x < 2 ^ y -> d + x <= y.
Proof.
  intros Ha Hd Hx Hy H.
  assert (H' : 2 ^ (d - 1 + x) < 2 ^ y).
  { rewrite Z.pow_add_r by lia. pose proof (pow2_pos x Hx). nia. }
  apply Z.pow_lt_mono_r_iff in H'; lia.
Qed.


Lemma aux_upper (s : bool) (mz : positive) (e N : Z) :
  -1074 <= e -> Zpos mz * 2 ^ (e + 1074) <= N * 2 ^ 1074 -> N < 2 ^ 53 ->
  at_most s (N * 2 ^ 1074) (binary_round_aux 53 1024 s (Zpos mz) e loc_Exact).
Proof.
  intros He HV HN.
  assert (HU : N * 2 ^ 1074 < 2 ^ 1127).
  { change (2 ^ 1127) with (2 ^ 53 * 2 ^ 1074).
    apply Z.mul_lt_mono_pos_r; [now apply pow2_pos|assumption]. }
  unfold binary_round_aux.
  destruct (shr_fexp_inv (Zpos mz) e) as [He' Hinv1]; [lia|].
  destruct (shr_fexp 53 1024 (Zpos mz) e loc_Exact) as [mrs' e'].
  cbn [fst snd] in He', Hinv1.
  destruct (round_nearest_even_bounds _ _ _ Hinv1)
    as (rest & HM & Hrest & Hq0 & Hm1 & Hexact).
  set (m1 := round_nearest_even (shr_m mrs') (loc_of_shr_record mrs')) in *.
  set (q := shr_m mrs') in *.
  set (k1 := Z.max 0 (fexp 53 1024 (Zdigits2 (Zpos mz) + e) - e)) in *.
  assert (Hk1 : 0 <= k1) by lia.
  assert (Ha : m1 * 2 ^ (e' + 1074) <= N * 2 ^ 1074).
  { destruct (Z.eq_dec k1 0) as [Hz|Hz].
    - rewrite Hz in *. change (2 ^ 0) with 1 in *.
      assert (rest = 0) by lia. rewrite (Hexact H). rewrite He'.
      replace (e + 0) with e by lia. lia.
    - assert (Hfe : e' = fexp 53 1024 (Zdigits2 (Zpos mz) + e)) by lia.
      rewrite fexp_eq in Hfe. cbn [Zdigits2] in Hfe.
      destruct (digits2_pos_bounds mz) as [Hd1 Hd2].
      assert (Hde : Zpos (digits2_pos mz) + (e + 1074) <= 1127).
      { apply (digits_below (Zpos mz)); lia. }
      assert (He0 : e' <= 0) by lia.
      assert (E1 : 2 ^ (e' + 1074) = 2 ^ k1 * 2 ^ (e + 1074))
        by (rewrite <- Z.pow_add_r by lia; f_equal; lia).
      assert (E2 : 2 ^ 1074 = 2 ^ (- e') * 2 ^ (e' + 1074))
        by (rewrite <- Z.pow_add_r by lia; f_equal; lia).
      pose proof (pow2_pos k1 Hk1) as HP.
      pose proof (pow2_pos (e + 1074) ltac:(lia)) as HA.
      pose proof (pow2_pos (- e') ltac:(lia)) as HQ.
      rewrite E2, E1 in HV |- *.
      set (P := 2 ^ k1) in *. set (A := 2 ^ (e + 1074)) in *.
      set (J := N * 2 ^ (- e')).
      replace (N * (2 ^ (- e') * (P * A))) with (J * P * A) in HV |- *
        by (unfold J; ring).
      assert (HMJ : Zpos mz <= J * P).
      { apply (Z.mul_le_mono_pos_r _ _ A); assumption. }
      assert (Hm1J : m1 <= J).
      { destruct (Z.eq_dec rest 0) as [Hr0|Hr0].
        - rewrite (Hexact Hr0). apply (Z.mul_le_mono_pos_r _ _ P); [assumption|].
          lia.
        - assert (q < J); [|lia].
          apply (Z.mul_lt_mono_pos_r P); [assumption|]. lia. }
      replace (m1 * (P * A)) with (m1 * P * A) by ring.
      apply Z.mul_le_mono_nonneg_r; [lia|].
      apply Z.mul_le_mono_nonneg_r; lia. }
  assert (Hm10 : 0 <= m1) by lia.
  assert (He'0 : -1074 <= e') by lia.
  destruct (shr_fexp_inv m1 e' Hm10) as [He'' (Hm2 & rest2 & HM2 & Hrest2 & _)].
  destruct (shr_fexp 53 1024 m1 e' loc_Exact) as [mrs'' e''].
  cbn [fst snd] in He'', Hm2, HM2.
  set (k2 := Z.max 0 (fexp 53 1024 (Zdigits2 m1 + e') - e')) in *.
  assert (Hk2 : 0 <= k2) by lia.
  assert (Hb : shr_m mrs'' * 2 ^ (e'' + 1074) <= N * 2 ^ 1074).
  { apply Z.le_trans with (m1 * 2 ^ (e' + 1074)); [|assumption].
    replace (e'' + 1074) with (k2 + (e' + 1074)) by lia.
    rewrite Z.pow_add_r by lia.
    pose proof (pow2_pos (e' + 1074) ltac:(lia)).
    rewrite Z.mul_assoc. apply Z.mul_le_mono_nonneg_r; lia. }
  destruct (shr_m mrs'') as [|m2|m2] eqn:Em2; cbn [at_most]; try lia.
  assert (Hm1p : 0 < m1).
  { pose proof (pow2_pos k2 Hk2). nia. }
  assert (Hle : e'' <= 1024 - 53).
  { destruct (Zdigits2_bounds m1 Hm1p) as (Hd0 & Hd1 & Hd2).
    assert (Zdigits2 m1 + (e' + 1074) <= 1127).
    { apply (digits_below m1); lia. }
    unfold k2 in He''. rewrite fexp_eq in He''. lia. }
  apply Z.leb_le in Hle. rewrite Hle. cbn [at_most].
  repeat split; lia.
Qed.


(** A shift to the exponent of the format keeps a number above every whole
    number up to [2 ^ 53] that it was above. *)
Lemma shift_lower (M e N q rest : Z) :
  0 < M -> -1074 <= e -> N <= 2 ^ 53 ->
  N * 2 ^ 1074 <= M * 2 ^ (e + 1074) ->
  let k := Z.max 0 (fexp 53 1024 (Zdigits2 M + e) - e) in
  M = q * 2 ^ k + rest -> 0 <= rest < 2 ^ k ->
  0 < q /\ N * 2 ^ 1074 <= q * 2 ^ (e + k + 1074).
Proof.
  intros HM He HN HV k Hq Hrest.
  destruct (Z.eq_dec k 0) as [Hz|Hz].
  - rewrite Hz in *. change (2 ^ 0) with 1 in *.
    replace (e + 0 + 1074) with (e + 1074) by lia.
    assert (q = M) by lia. subst q. split; assumption.
  - assert (Hk : 0 < k) by lia.
    destruct (Zdigits2_bounds M HM) as (Hd0 & Hd1 & Hd2).
    assert (Hkd : k = Zdigits2 M - 53).
    { unfold k in *. rewrite fexp_eq in *. lia. }
    pose proof (pow2_pos k ltac:(lia)) as HP.
    pose proof (pow2_pos (e + 1074) ltac:(lia)) as HA.
    assert (E52 : 2 ^ (Zdigits2 M - 1) = 2 ^ 52 * 2 ^ k)
      by (rewrite <- Z.pow_add_r by lia; f_equal; lia).
    assert (Hq52 : 2 ^ 52 <= q).
    { assert (2 ^ 52 < q + 1); [|lia].
      apply (Z.mul_lt_mono_pos_r (2 ^ k)); [assumption|]. lia. }
    split; [change (2 ^ 52) with 4503599627370496 in Hq52; lia|].
    replace (e + k + 1074) with (k + (e + 1074)) by lia.
    rewrite Z.pow_add_r by lia.
    set (P := 2 ^ k) in *. set (A := 2 ^ (e + 1074)) in *.
    destruct (Z_le_gt_dec (e + k) 0) as [HE|HE].
    + assert (E2 : 2 ^ 1074 = 2 ^ (- (e + k)) * (P * A)).
      { unfold P, A. rewrite <- !Z.pow_add_r by lia. f_equal. lia. }
      rewrite E2 in HV |- *.
      set (J := N * 2 ^ (- (e + k))).
      replace (N * (2 ^ (- (e + k)) * (P * A))) with (J * P * A) in HV |- *
        by (unfold J; ring).
      assert (HJM : J * P <= M).
      { apply (Z.mul_le_mono_pos_r _ _ A); assumption. }
      assert (HJq : J <= q).
      { assert (J < q + 1); [|lia].
        apply (Z.mul_lt_mono_pos_r P); [assumption|]. lia. }
      rewrite Z.mul_assoc.
      apply Z.mul_le_mono_nonneg_r; [lia|].
      apply Z.mul_le_mono_nonneg_r; lia.
    + apply Z.le_trans with (2 ^ 53 * 2 ^ 1074).
      { apply Z.mul_le_mono_nonneg_r; [|assumption].
        apply Z.lt_le_incl. now apply pow2_pos. }
      apply Z.le_trans with (2 ^ 52 * (P * A)).
      * assert (E3 : P * A = 2 ^ (e + k - 1) * 2 ^ 1075).
        { unfold P, A. rewrite <- !Z.pow_add_r by lia. f_equal. lia. }
        rewrite E3.
        pose proof (pow2_pos (e + k - 1) ltac:(lia)) as HX.
        change (2 ^ 53 * 2 ^ 1074) with (2 ^ 52 * (1 * 2 ^ 1075)).
        apply Z.mul_le_mono_nonneg_l; [apply Z.lt_le_incl; now apply pow2_pos|].
        apply Z.mul_le_mono_nonneg_r;
          [apply Z.lt_le_incl; now apply pow2_pos|lia].
      * apply Z.mul_le_mono_nonneg_r; [|assumption].
        apply Z.lt_le_incl, Z.mul_pos_pos; assumption.
Qed.

Lemma aux_lower (s : bool) (mz : positive) (e N : Z) :
  -1074 <= e -> N * 2 ^ 1074 <= Zpos mz * 2 ^ (e + 1074) -> N <= 2 ^ 53 ->
  at_least s (N * 2 ^ 1074) (binary_round_aux 53 1024 s (Zpos mz) e loc_Exact).
Proof.
  intros He HV HN. unfold binary_round_aux.
  destruct (shr_fexp_inv (Zpos mz) e) as [He' Hinv1]; [lia|].
  destruct (shr_fexp 53 1024 (Zpos mz) e loc_Exact) as [mrs' e'].
  cbn [fst snd] in He', Hinv1.
  destruct (round_nearest_even_bounds _ _ _ Hinv1)
    as (rest & HM & Hrest & Hq0 & Hm1 & _).
  destruct (shift_lower (Zpos mz) e N _ rest ltac:(lia) He HN HV HM Hrest)
    as [Hq Hqb].
  rewrite <- He' in Hqb.
  set (m1 := round_nearest_even (shr_m mrs') (loc_of_shr_record mrs')) in *.
  assert (Hm1p : 0 < m1) by lia.
  assert (He'0 : -1074 <= e') by lia.
  assert (Hm1b : N * 2 ^ 1074 <= m1 * 2 ^ (e' + 1074)).
  { apply Z.le_trans with (1 := Hqb).
    apply Z.mul_le_mono_nonneg_r; [|lia].
    apply Z.lt_le_incl, pow2_pos. lia. }
  destruct (shr_fexp_inv m1 e') as [He'' (Hm2 & rest2 & HM2 & Hrest2 & _)];
    [lia|].
  destruct (shr_fexp 53 1024 m1 e' loc_Exact) as [mrs'' e''].
  cbn [fst snd] in He'', Hm2, HM2.
  destruct (shift_lower m1 e' N _ rest2 Hm1p He'0 HN Hm1b HM2 Hrest2)
    as [Hq2 Hq2b].
  rewrite <- He'' in Hq2b.
  destruct (shr_m mrs'') as [|m2|m2]; try lia.
  destruct (Z.leb e'' (1024 - 53)); cbn [at_least]; [|reflexivity].
  repeat split; lia.
Qed.


Lemma shl_align_fst (m : positive) (e ez : Z) :
  ez <= e -> Zpos (fst (shl_align m e ez)) = Zpos m * 2 ^ (e - ez).
Proof.
  intros H. unfold shl_align.
  destruct (ez - e) as [|p|p] eqn:E; cbn [fst]; try lia.
  - replace (e - ez) with 0 by lia. change (2 ^ 0) with 1. lia.
  - rewrite iter_xO. f_equal. f_equal. lia.
Qed.

Lemma shl_align_fexp (m : positive) (e : Z) :
  -1074 <= e ->
  let r := shl_align m e (fexp 53 1024 (Zpos (digits2_pos m) + e)) in
  -1074 <= snd r
  /\ Zpos (fst r) * 2 ^ (snd r + 1074) = Zpos m * 2 ^ (e + 1074).
Proof.
  intros He. cbv zeta. unfold shl_align. rewrite fexp_eq.
  destruct (Z.max (Zpos (digits2_pos m) + e - 53) (-1074) - e) as [|p|p] eqn:E;
    cbn [fst snd]; try (split; [lia|reflexivity]).
  split; [lia|]. rewrite iter_xO, <- Z.mul_assoc, <- Z.pow_add_r by lia.
  f_equal. f_equal. lia.
Qed.

Lemma round_upper (s : bool) (m : positive) (e N : Z) :
  -1074 <= e -> Zpos m * 2 ^ (e + 1074) <= N * 2 ^ 1074 -> N < 2 ^ 53 ->
  at_most s (N * 2 ^ 1074) (binary_round 53 1024 s m e).
Proof.
  intros He HV HN. unfold binary_round.
  destruct (shl_align_fexp m e He) as [H1 H2].
  destruct (shl_align m e (fexp 53 1024 (Zpos (digits2_pos m) + e))) as [mz ez].
  cbn [fst snd] in H1, H2. apply aux_upper; [assumption|lia|assumption].
Qed.

Lemma round_lower (s : bool) (m : positive) (e N : Z) :
  -1074 <= e -> N * 2 ^ 1074 <= Zpos m * 2 ^ (e + 1074) -> N <= 2 ^ 53 ->
  at_least s (N * 2 ^ 1074) (binary_round 53 1024 s m e).
Proof.
  intros He HV HN. unfold binary_round.
  destruct (shl_align_fexp m e He) as [H1 H2].
  destruct (shl_align m e (fexp 53 1024 (Zpos (digits2_pos m) + e))) as [mz ez].
  cbn [fst snd] in H1, H2. apply aux_lower; [assumption|lia|assumption].
Qed.

Lemma is_number_exponent (s : bool) (m : positive) (e : Z) :
  is_number (S754_finite s m e) = true -> -1074 <= e.
Proof.
  cbn [is_number]. unfold bounded, canonical_mantissa. rewrite fexp_eq.
  intros H. apply andb_true_iff in H. destruct H as [H _].
  apply Z.eqb_eq in H. lia.
Qed.


Lemma Qltb_lt (x y : Q) : Qltb x y = true <-> (x < y)%Q.
Proof.
  unfold Qltb. rewrite negb_true_iff. split.
  - intros H. apply Qnot_le_lt. intros Hle.
    apply Qle_bool_iff in Hle. congruence.
  - intros H. destruct (Qle_bool y x) eqn:E; [|reflexivity].
    apply Qle_bool_iff in E. exfalso. now apply (Qlt_not_le x y).
Qed.

Lemma is_number_low (x : time) : is_number x = true -> low_exponent x.
Proof.
  destruct x as [s|s| |s m e]; try discriminate; intros H; cbn [low_exponent].
  - exact I.
  - now apply is_number_exponent in H.
Qed.

(** The number of a float, in units of [2 ^ -1074]. *)
Lemma float_value_scaled (x : time) :
  low_exponent x ->
  (float_value x * inject_Z (2 ^ 1074) == inject_Z (scaled x))%Q.
Proof.
  destruct x as [s|s| |s m e]; cbn [low_exponent]; try contradiction; intros H.
  - reflexivity.
  - unfold scaled. set (sm := cond_Zopp s (Zpos m)).
    destruct e as [|p|p]; cbn [float_value]; fold sm.
    + rewrite <- inject_Z_mult. apply inject_Z_injective.
      change (2 ^ 0) with 1. change (0 + 1074) with 1074. lia.
    + rewrite <- inject_Z_mult. apply inject_Z_injective.
      rewrite (Z.pow_add_r 2 (Zpos p) 1074) by lia. lia.
    + unfold Qeq, Qmult, inject_Z. cbn [Qnum Qden].
      rewrite Pos.mul_1_r, Pos2Z.inj_pow, !Z.mul_1_r.
      replace (2 ^ 1074) with (2 ^ Zpos p * 2 ^ (Zneg p + 1074))
        by (rewrite <- Z.pow_add_r by lia; f_equal; lia).
      ring.
Qed.

Lemma float_gt_int_scaled (x : time) (N : Z) :
  low_exponent x ->
  float_gt_int x N = true <-> N * 2 ^ 1074 < scaled x.
Proof.
  intros H. pose proof (float_value_scaled x H) as E.
  assert (HU : (0 < inject_Z (2 ^ 1074))%Q).
  { rewrite <- (Zlt_Qlt 0). now apply pow2_pos. }
  assert (G : float_gt_int x N = true <-> (inject_Z N < float_value x)%Q).
  { destruct x; try contradiction; apply Qltb_lt. }
  rewrite G, Zlt_Qlt, inject_Z_mult, <- E.
  split; intros L.
  - apply Qmult_lt_compat_r; assumption.
  - apply Qmult_lt_r in L; assumption.
Qed.

(** A float that stands for [D] units is above the whole numbers below
    it, and no others. *)
Lemma exact_bounds (r : time) (D N : Z) :
  low_exponent r -> scaled r = D ->
  (D <= N * 2 ^ 1074 -> float_gt_int r N = false)
  /\ ((N + 1) * 2 ^ 1074 <= D -> float_gt_int r N = true).
Proof.
  intros Hr <-. pose proof (float_gt_int_scaled r N Hr) as G.
  pose proof (pow2_pos 1074 ltac:(lia)) as HU.
  split; intros H.
  - destruct (float_gt_int r N); [|reflexivity]. lia.
  - apply G. lia.
Qed.

Lemma normalize_bounds (M e N : Z) :
  -1074 <= e -> - 2 ^ 53 < N < 2 ^ 53 ->
  (M * 2 ^ (e + 1074) <= N * 2 ^ 1074 ->
   float_gt_int (binary_normalize 53 1024 M e false) N = false)
  /\ ((N + 1) * 2 ^ 1074 <= M * 2 ^ (e + 1074) ->
      float_gt_int (binary_normalize 53 1024 M e false) N = true).
Proof.
  intros He HN.
  pose proof (pow2_pos 1074 ltac:(lia)) as HU.
  pose proof (pow2_pos (e + 1074) ltac:(lia)) as HA.
  destruct M as [|m|m]; cbn [binary_normalize].
  - apply exact_bounds; [exact I|reflexivity].
  - split; intros H.
    + pose proof (round_upper false m e N He H ltac:(lia)) as R.
      destruct (binary_round 53 1024 false m e) as [s'|s'| |s' m' e'] eqn:Er;
        cbn [at_most] in R; try contradiction.
      * apply (exact_bounds _ 0); [exact I|reflexivity|lia].
      * destruct R as (-> & He' & R).
        apply (exact_bounds _ (Zpos m' * 2 ^ (e' + 1074)));
          [exact He'|reflexivity|exact R].
    + pose proof (round_lower false m e (N + 1) He H ltac:(lia)) as R.
      destruct (binary_round 53 1024 false m e) as [s'|s'| |s' m' e'] eqn:Er;
        cbn [at_least] in R; try contradiction.
      * apply (exact_bounds _ 0); [exact I|reflexivity|lia].
      * now subst s'.
      * destruct R as (-> & He' & R).
        apply (exact_bounds _ (Zpos m' * 2 ^ (e' + 1074)));
          [exact He'|reflexivity|exact R].
  - split; intros H.
    + assert (H' : (- N) * 2 ^ 1074 <= Zpos m * 2 ^ (e + 1074)) by lia.
      pose proof (round_lower true m e (- N) He H' ltac:(lia)) as R.
      destruct (binary_round 53 1024 true m e) as [s'|s'| |s' m' e'] eqn:Er;
        cbn [at_least] in R; try contradiction.
      * apply (exact_bounds _ 0); [exact I|reflexivity|lia].
      * now subst s'.
      * destruct R as (-> & He' & R).
        apply (exact_bounds _ (- Zpos m' * 2 ^ (e' + 1074)));
          [exact He'|reflexivity|lia].
    + assert (H' : Zpos m * 2 ^ (e + 1074) <= (- (N + 1)) * 2 ^ 1074) by lia.
      pose proof (round_upper true m e (- (N + 1)) He H' ltac:(lia)) as R.
      destruct (binary_round 53 1024 true m e) as [s'|s'| |s' m' e'] eqn:Er;
        cbn [at_most] in R; try contradiction.
      * apply (exact_bounds _ 0); [exact I|reflexivity|]. nia.
      * destruct R as (-> & He' & R).
        apply (exact_bounds _ (- Zpos m' * 2 ^ (e' + 1074)));
          [exact He'|reflexivity|lia].
Qed.


(** The subtraction of two floats, against a whole number [N]: on which
    side of [N] the difference of the numbers is, on that side is the
    float of the difference. *)
Lemma float_sub_bounds (x y : time) (N : Z) :
  is_number x = true -> is_number y = true -> - 2 ^ 53 < N < 2 ^ 53 ->
  (scaled x - scaled y <= N * 2 ^ 1074 -> float_gt_int (float_sub x y) N = false)
  /\ ((N + 1) * 2 ^ 1074 <= scaled x - scaled y ->
      float_gt_int (float_sub x y) N = true).
Proof.
  intros Hx Hy HN.
  pose proof (is_number_low x Hx) as Lx. pose proof (is_number_low y Hy) as Ly.
  destruct x as [sx|sx| |sx mx ex]; try discriminate;
    destruct y as [sy|sy| |sy my ey]; try discriminate;
    unfold float_sub; cbn [SFsub].
  - apply exact_bounds; destruct sx, sy; first [exact I|reflexivity].
  - apply exact_bounds; [exact Ly|]. cbn [scaled].
    destruct sy; cbn [negb cond_Zopp]; ring.
  - apply exact_bounds; [exact Lx|]. cbn [scaled]. ring.
  - cbn [low_exponent] in Lx, Ly. cbn [scaled].
    set (ez := Z.min ex ey).
    rewrite !shl_align_fst by (unfold ez; lia).
    set (M := cond_Zopp sx (Zpos mx * 2 ^ (ex - ez))
              - cond_Zopp sy (Zpos my * 2 ^ (ey - ez))).
    assert (E : cond_Zopp sx (Zpos mx) * 2 ^ (ex + 1074)
                - cond_Zopp sy (Zpos my) * 2 ^ (ey + 1074)
                = M * 2 ^ (ez + 1074)).
    { unfold M.
      replace (ex + 1074) with ((ex - ez) + (ez + 1074)) by lia.
      replace (ey + 1074) with ((ey - ez) + (ez + 1074)) by lia.
      rewrite (Z.pow_add_r 2 (ex - ez)), (Z.pow_add_r 2 (ey - ez))
        by (unfold ez; lia).
      destruct sx, sy; cbn [cond_Zopp]; ring. }
    rewrite E. apply normalize_bounds; [unfold ez; lia|assumption].
Qed.

(** Two floats whose numbers are at most [n] apart have a difference that
    is not above [n], whatever the rounding. *)
Theorem float_sub_within (x y : time) (n : Z) :
  is_number x = true -> is_number y = true -> - 2 ^ 53 < n < 2 ^ 53 ->
  (float_value x - float_value y <= inject_Z n)%Q ->
  float_gt_int (float_sub x y) n = false.
Proof.
  intros Hx Hy Hn H. apply (float_sub_bounds x y n Hx Hy Hn).
  assert (HU : (0 <= inject_Z (2 ^ 1074))%Q).
  { rewrite <- (Zle_Qle 0). apply Z.lt_le_incl. now apply pow2_pos. }
  apply (Qmult_le_compat_r _ _ _ H) in HU.
  rewrite Zle_Qle, inject_Z_mult.
  unfold Z.sub. rewrite (inject_Z_plus (scaled x)), inject_Z_opp.
  rewrite <- (float_value_scaled x), <- (float_value_scaled y)
    by now apply is_number_low.
  apply Qle_trans with (2 := HU). apply Qle_lteq. right. ring.
Qed.

(** Two floats whose numbers are [n + 1] or more apart have a difference
    above [n], whatever the rounding. *)
Theorem float_sub_beyond (x y : time) (n : Z) :
  is_number x = true -> is_number y = true -> - 2 ^ 53 < n < 2 ^ 53 ->
  (inject_Z (n + 1) <= float_value x - float_value y)%Q ->
  float_gt_int (float_sub x y) n = true.
Proof.
  intros Hx Hy Hn H. apply (float_sub_bounds x y n Hx Hy Hn).
  assert (HU : (0 <= inject_Z (2 ^ 1074))%Q).
  { rewrite <- (Zle_Qle 0). apply Z.lt_le_incl. now apply pow2_pos. }
  apply (Qmult_le_compat_r _ _ _ H) in HU.
  rewrite Zle_Qle, inject_Z_mult.
  unfold Z.sub. rewrite (inject_Z_plus (scaled x)), inject_Z_opp.
  rewrite <- (float_value_scaled x), <- (float_value_scaled y)
    by now apply is_number_low.
  apply Qle_trans with (1 := HU). apply Qle_lteq. right. ring.
Qed.

End Rounding.

(** ** The admission decision *)

Lemma immediate_slot_spec (cfg : config) (g : globals) (now : time) :
  immediate_slot cfg g now = true
  <-> is_forwarding g = false
      \/ float_gt_int (float_sub now (last_forward_time g)) (rate_limit cfg)
         = true.
Proof. unfold immediate_slot. now rewrite orb_true_iff, negb_true_iff. Qed.

(** The rounding of the subtraction shows at the limit itself: the floats
    nearest to 60.1 and to 0.1 are more than 60 apart, and their difference
    is the float 60, which is not above a limit of 60. *)
Lemma difference_rounded_to_limit :
  let now := S754_finite false 8458323050155213 (-47) in
  let last := S754_finite false 7205759403792794 (-56) in
  is_number now = true /\ is_number last = true
  /\ (60 < float_value now - float_value last)%Q
  /\ float_sub now last = seconds 60
  /\ float_gt_int (float_sub now last) 60 = false.
Proof. vm_compute. repeat split. Qed.

Lemma parsed_nonempty (raw parsed : str) :
  parse_and_format_message raw = Some parsed ->
  exists c rest, parsed = c :: rest.
Proof.
  unfold parse_and_format_message. destruct (parse_fields raw) as [f|]; [|discriminate].
  intros H. inversion H; subst. unfold format_fields. simpl. now eexists; eexists.
Qed.

(** The handler on a message that is accepted. *)
Lemma handler_accepted (cfg : config) (raw parsed : str) (now : time) (g : globals) :
  has_hyperlink raw = false ->
  parse_and_format_message raw = Some parsed ->
  handler cfg (Some raw) now g
  = if immediate_slot cfg g now
    then handler_in_relay parsed now (forward_to_targets cfg parsed) g
    else queued_segment parsed g.
Proof.
  intros Hl Hp. unfold handler. cbv zeta. rewrite Hl, Hp.
  destruct (parsed_nonempty _ _ Hp) as (c & rest & ->). reflexivity.
Qed.

Lemma run_cons (cfg : config) (s : system) (a : action) (l : list action) :
  run cfg s (a :: l) = run cfg (step cfg s a) l.
Proof. reflexivity. Qed.

Lemma run_app (cfg : config) (s : system) (l1 l2 : list action) :
  run cfg s (l1 ++ l2) = run cfg (run cfg s l1) l2.
Proof. apply fold_left_app. Qed.

Lemma tag_app (o : origin) (l1 l2 : list event) :
  tag o (l1 ++ l2) = tag o l1 ++ tag o l2.
Proof. apply map_app. Qed.

(** A handler alone in the event loop, resumed until its relay returns. *)
Lemma handler_from_pause (cfg : config) (parsed : str) (cur : time)
      (rest : list channel) :
  forall (outcomes : list bool) (b : bool) (g : globals) (tr : list (origin * event)),
    length outcomes = length rest ->
    run cfg (mkSystem g [Handler_relay parsed cur (In_pause rest)] tr)
        (map (Resume 0) (b :: answers outcomes))
    = mkSystem (mkGlobals (message_queue g) true cur) [Drain_created]
               (tr ++ tag By_handler
                          (flat_map (fun co => attempt parsed (fst co) (snd co))
                                    (combine rest outcomes)
                           ++ [Create_task])).
Proof.
  induction rest as [|c rest IH]; intros [|ok os] b g tr Hlen; try discriminate.
  - reflexivity.
  - simpl in Hlen. injection Hlen as Hlen.
    change (answers (ok :: os)) with (ok :: true :: answers os).
    change (map (Resume 0) (b :: ok :: true :: answers os))
      with (Resume 0 b :: Resume 0 ok :: map (Resume 0) (true :: answers os)).
    rewrite !run_cons.
    replace (step cfg
               (step cfg (mkSystem g [Handler_relay parsed cur (In_pause (c :: rest))] tr)
                     (Resume 0 b))
               (Resume 0 ok))
      with (mkSystem g [Handler_relay parsed cur (In_pause rest)]
                     (tr ++ tag By_handler (attempt parsed c ok))).
    + rewrite (IH os true g _ Hlen). f_equal.
      cbn [combine flat_map fst snd]. rewrite <- !app_assoc.
      now rewrite (tag_app _ (attempt parsed c ok)).
    + destruct ok; cbn; now rewrite <- app_assoc.
Qed.

Lemma handler_immediate_run (cfg : config) (parsed : str) (now : time)
      (g : globals) (outcomes : list bool) :
  length outcomes = length (target_channels cfg) ->
  let r := handler_in_relay parsed now (forward_to_targets cfg parsed) g in
  run cfg (mkSystem (seg_globals r) (option_list (seg_self r) ++ seg_created r)
                    (tag By_handler (seg_events r)))
      (map (Resume 0) (answers outcomes))
  = mkSystem (mkGlobals (message_queue g) true now) [Drain_created]
             (immediate_trace cfg parsed outcomes).
Proof.
  unfold immediate_trace, forward_to_targets, handler_in_relay. cbv zeta.
  destruct (target_channels cfg) as [|c rest]; intros Hlen.
  - destruct outcomes; [reflexivity|discriminate].
  - destruct outcomes as [|ok os]; [discriminate|].
    simpl in Hlen. injection Hlen as Hlen.
    change (answers (ok :: os)) with (ok :: true :: answers os).
    change (map (Resume 0) (ok :: true :: answers os))
      with (Resume 0 ok :: map (Resume 0) (true :: answers os)).
    rewrite run_cons. cbn [relay_loop fst snd seg_globals seg_self seg_created
                                      seg_events option_list app].
    replace (step cfg
               (mkSystem g [Handler_relay parsed now (In_send c rest)]
                         (tag By_handler [Forward parsed; Send c parsed]))
               (Resume 0 ok))
      with (mkSystem g [Handler_relay parsed now (In_pause rest)]
                     (tag By_handler (Forward parsed :: attempt parsed c ok)))
      by (destruct ok; reflexivity).
    rewrite (handler_from_pause cfg parsed now rest os true g _ Hlen). f_equal.
    cbn [combine flat_map fst snd].
    rewrite <- tag_app. f_equal. cbn [app]. now rewrite <- app_assoc.
Qed.

Lemma run_idle (cfg : config) (g : globals) (tr : list (origin * event))
      (l : list bool) :
  run cfg (mkSystem g [] tr) (map (Resume 0) l) = mkSystem g [] tr.
Proof. induction l as [|b l IH]; [reflexivity|]. cbn [map]. now rewrite run_cons. Qed.

(** A message that comes within the limit finds the test of the handler
    false, and one that comes a second or more after the limit finds it
    true, whatever the rounding of the difference. *)
Lemma within_limit (cfg : config) (g : globals) (now : time) (d : Z) :
  (- 2 ^ 53 < rate_limit cfg < 2 ^ 53)%Z ->
  seconds_after d (last_forward_time g) now ->
  (d <= rate_limit cfg)%Z ->
  float_gt_int (float_sub now (last_forward_time g)) (rate_limit cfg) = false.
Proof.
  intros Hr (Hl & Hn & Hd) Hle. apply float_sub_within; try assumption.
  rewrite Hd, <- Zle_Qle. assumption.
Qed.

Lemma beyond_limit (cfg : config) (g : globals) (now : time) (d : Z) :
  (- 2 ^ 53 < rate_limit cfg < 2 ^ 53)%Z ->
  seconds_after d (last_forward_time g) now ->
  (rate_limit cfg < d)%Z ->
  float_gt_int (float_sub now (last_forward_time g)) (rate_limit cfg) = true.
Proof.
  intros Hr (Hl & Hn & Hd) Hlt. apply float_sub_beyond; try assumption.
  rewrite Hd, <- Zle_Qle. lia.
Qed.

(** C2, as amended: an accepted message is relayed at once exactly when
    [is_forwarding] is false or the difference of the two floats
    [now - last_forward_time], as the subtraction rounds it, is above
    [rate_limit]; it is appended to the queue otherwise.  With a limit of
    60 seconds a message that comes 30 seconds after the last immediate
    send is queued when [is_forwarding] is still true, and one that comes
    90 seconds after is relayed at once; when its relay has returned,
    [last_forward_time] is the time of its arrival and [is_forwarding] is
    true. *)
Theorem admission_rule (cfg : config) (g : globals) (raw parsed : str)
        (now : time) (outcomes : list bool) :
  has_hyperlink raw = false ->
  parse_and_format_message raw = Some parsed ->
  length outcomes = length (target_channels cfg) ->
  let immediate :=
    run cfg (mkSystem g [] [])
        (New_message (Some raw) now :: map (Resume 0) (answers outcomes))
    = mkSystem (mkGlobals (message_queue g) true now) [Drain_created]
               (immediate_trace cfg parsed outcomes) in
  let queued := handler cfg (Some raw) now g = queued_segment parsed g in
  let slot_free :=
    is_forwarding g = false
    \/ float_gt_int (float_sub now (last_forward_time g)) (rate_limit cfg)
       = true in
  (immediate <-> slot_free)
  /\ (queued <-> ~ slot_free)
  /\ (rate_limit cfg = 60%Z -> is_forwarding g = true ->
      seconds_after 30 (last_forward_time g) now -> queued)
  /\ (rate_limit cfg = 60%Z ->
      seconds_after 90 (last_forward_time g) now -> immediate).
Proof.
  intros Hl Hp Hlen immediate queued slot_free.
  pose proof (handler_accepted cfg raw parsed now g Hl Hp) as Hh.
  pose proof (immediate_slot_spec cfg g now) as Hs. fold slot_free in Hs.
  assert (Hi : immediate_slot cfg g now = true -> immediate).
  { intros E. unfold immediate. rewrite run_cons. cbn [step shared tasks trace app].
    rewrite Hh, E. apply (handler_immediate_run cfg parsed now g outcomes Hlen). }
  assert (Hq : immediate_slot cfg g now = false -> queued /\ ~ immediate).
  { intros E. unfold queued, immediate. rewrite Hh, E. split; [reflexivity|].
    rewrite run_cons. cbn [step shared tasks trace app].
    rewrite Hh, E. cbn [queued_segment seg_globals seg_self seg_created
                                       seg_events option_list app].
    rewrite run_idle. discriminate. }
  assert (Hqi : queued -> ~ immediate_slot cfg g now = true).
  { unfold queued. rewrite Hh. intros E1 E2. rewrite E2 in E1.
    unfold handler_in_relay, forward_to_targets, queued_segment in E1.
    cbv zeta in E1. cbn [fst snd] in E1.
    destruct (relay_loop parsed (target_channels cfg)) as [[pt| |] evs];
      cbn [fst snd] in E1; discriminate E1. }
  assert (H60 : rate_limit cfg = 60%Z -> (- 2 ^ 53 < rate_limit cfg < 2 ^ 53)%Z).
  { intros ->. split; reflexivity. }
  split; [|split; [|split]].
  - split; [|intros H; now apply Hi, Hs].
    intros H. apply Hs. destruct (immediate_slot cfg g now); [reflexivity|].
    now destruct (Hq eq_refl).
  - split.
    + intros H Hf. now apply (Hqi H), Hs.
    + intros H. apply Hq. destruct (immediate_slot cfg g now); [|reflexivity].
      exfalso. now apply H, Hs.
  - intros Hr Hf H30. apply Hq. unfold immediate_slot.
    rewrite Hf, (within_limit cfg g now 30 (H60 Hr) H30); [reflexivity|].
    rewrite Hr. discriminate.
  - intros Hr H90. apply Hi. unfold immediate_slot.
    rewrite (beyond_limit cfg g now 90 (H60 Hr) H90); [apply orb_true_r|].
    rewrite Hr. reflexivity.
Qed.

Lemma admission_rule_witness :
  let cfg := mkConfig [1%Z; 2%Z] 120 60 in
  let g := mkGlobals [] true (seconds 1000) in
  handler cfg (Some sample_input) (seconds 1030) g
  = queued_segment sample_output g.
Proof.
  refine (proj1 (proj2 (proj2
            (admission_rule (mkConfig [1%Z; 2%Z] 120 60)
                            (mkGlobals [] true (seconds 1000))
                            sample_input sample_output (seconds 1030)
                            [true; false] _ _ _))) _ _ _);
    try (vm_compute; reflexivity).
  vm_compute. repeat split.
Defined.

(** C2, as stated, fails: the first message is relayed at once at time
    1000, its drain loop finds the queue empty and clears [is_forwarding],
    and the message that comes 30 seconds later is relayed at once, not
    queued. *)
Lemma sent_at_once_after_30_seconds :
  let cfg := mkConfig [1%Z] 120 60 in
  let before :=
    run cfg initial_system
        [New_message (Some sample_input) (seconds 1000); Resume 0 true;
         Resume 0 true; Resume 0 true] in
  shared before = mkGlobals [] false (seconds 1000)
  /\ seconds_after 30 (last_forward_time (shared before)) (seconds 1030)
  /\ handler cfg (Some sample_input) (seconds 1030) (shared before)
     = mkSegment (shared before)
                 (Some (Handler_relay sample_output (seconds 1030)
                                      (In_send 1%Z [])))
                 [] [Forward sample_output; Send 1%Z sample_output]
  /\ handler cfg (Some sample_input) (seconds 1030) (shared before)
     <> queued_segment sample_output (shared before).
Proof.
  cbv zeta. split; [|split; [|split]]; try (vm_compute; reflexivity).
  - vm_compute. repeat split.
  - vm_compute. discriminate.
Qed.

(** ** The drain loop *)

Lemma forwards_app (a b : list event) : forwards (a ++ b) = forwards a ++ forwards b.
Proof. apply flat_map_app. Qed.

Lemma events_of_app (o : origin) (a b : list (origin * event)) :
  events_of o (a ++ b) = events_of o a ++ events_of o b.
Proof. apply flat_map_app. Qed.

Lemma events_of_drain_tag_drain (evs : list event) :
  events_of By_drain (tag By_drain evs) = evs.
Proof. induction evs as [|e evs IH]; [reflexivity|]. simpl. now rewrite IH. Qed.

Lemma events_of_drain_tag_handler (evs : list event) :
  events_of By_drain (tag By_handler evs) = [].
Proof. induction evs as [|e evs IH]; [reflexivity|]. simpl. exact IH. Qed.

Lemma forwards_none (evs : list event) (m : str) :
  forwards evs = [] -> ~ In (Forward m) evs.
Proof.
  induction evs as [|e evs IH]; intros H Hin; [destruct Hin|].
  destruct Hin as [Hin|Hin].
  - subst. discriminate.
  - destruct e; simpl in H; try discriminate; now apply IH.
Qed.

Lemma paced_quiet (d : Z) (evs new : list event) :
  paced d evs -> forwards new = [] -> paced d (evs ++ new).
Proof.
  intros Hp Hn pre m post E. apply app_eq_app in E.
  destruct E as [l [[E1 E2]|[E1 E2]]].
  - destruct l as [|e l].
    + exfalso. apply (forwards_none new m Hn). simpl in E2. rewrite <- E2. now left.
    + simpl in E2. inversion E2; subst. now apply (Hp pre m l).
  - exfalso. apply (forwards_none new m Hn). rewrite E2.
    apply in_or_app. right. now left.
Qed.

Lemma paced_forward (d : Z) (pre new : list event) (m : str) :
  paced d (pre ++ [Sleep d]) -> forwards new = [] ->
  paced d ((pre ++ [Sleep d]) ++ Forward m :: new).
Proof.
  intros Hp Hn p m' post E. apply app_eq_app in E.
  destruct E as [l [[E1 E2]|[E1 E2]]].
  - destruct l as [|e l].
    + rewrite app_nil_r in E1. subst. now exists pre.
    + simpl in E2. inversion E2; subst. now apply (Hp p m' l).
  - destruct l as [|e l].
    + rewrite app_nil_r in E1. subst. now exists pre.
    + exfalso. simpl in E2. inversion E2; subst.
      apply (forwards_none _ m' Hn). apply in_or_app. right. now left.
Qed.

Lemma relay_loop_quiet (text : str) (chs : list channel) :
  fst (relay_loop text chs) <> Raised /\ forwards (snd (relay_loop text chs)) = [].
Proof. destruct chs; split; simpl; try reflexivity; discriminate. Qed.

Lemma relay_resume_quiet (text : str) (pt : relay_point) (ok : bool) :
  fst (relay_resume text pt ok) <> Raised
  /\ forwards (snd (relay_resume text pt ok)) = [].
Proof.
  destruct pt as [c rest|rest]; [|apply relay_loop_quiet].
  destruct ok; split; simpl; try reflexivity; discriminate.
Qed.

Lemma drain_loop_keeps (cfg : config) (g : globals) (d : list event) :
  is_forwarding g = true -> paced (queue_delay cfg) d ->
  segment_keeps cfg g d [] (process_queue cfg g).
Proof.
  intros Hf Hp. unfold process_queue. destruct (message_queue g) as [|m q] eqn:E.
  - constructor; simpl; try reflexivity; try (now rewrite app_nil_r).
    + now symmetry.
    + now constructor.
  - constructor; simpl; try reflexivity.
    + now apply paced_quiet.
    + apply DS_sleep with d; [assumption|now rewrite E|reflexivity].
Qed.

Lemma drain_in_relay_keeps (cfg : config) (msg : str)
      (r : status relay_point * list event) (g : globals) (d : list event) :
  is_forwarding g = true -> fst r <> Raised ->
  paced (queue_delay cfg) (d ++ snd r) ->
  segment_keeps cfg g d (forwards (snd r)) (process_queue_in_relay cfg msg r g).
Proof.
  intros Hf Hr Hp. unfold process_queue_in_relay.
  destruct (fst r) as [pt| |]; [| |congruence].
  - constructor; simpl; try reflexivity; [assumption|now constructor].
  - destruct (drain_loop_keeps cfg g (d ++ snd r) Hf Hp) as [K1 K2 K3 K4 K5 K6].
    constructor; simpl; try assumption.
    + now rewrite forwards_app, K4, app_nil_r.
    + now rewrite app_assoc.
    + now rewrite app_assoc.
Qed.

(** A segment of the drain loop keeps the episode in order. *)
Lemma resume_ok (cfg : config) (g : globals) (d : list event) (t : task) (ok : bool) :
  paced (queue_delay cfg) d -> drain_state cfg g d [t] ->
  segment_ok cfg g d (resume cfg t ok g).
Proof.
  intros Hp Hs. inversion Hs as [| Hf | d' Hf Hq Hd | m pt Hf]; subst.
  - destruct (drain_loop_keeps cfg g d Hf Hp) as [K1 K2 K3 K4 K5 K6].
    constructor; simpl; try assumption. now rewrite K4, K3.
  - simpl. unfold process_queue_wake. destruct (message_queue g) as [|m q] eqn:E; [congruence|].
    set (g' := mkGlobals q (is_forwarding g) (last_forward_time g)).
    destruct (drain_in_relay_keeps cfg m (forward_to_targets cfg m) g'
                                   (d' ++ [Sleep (queue_delay cfg)]))
      as [K1 K2 K3 K4 K5 K6].
    + exact Hf.
    + unfold forward_to_targets. cbv zeta. cbn [fst]. apply relay_loop_quiet.
    + unfold forward_to_targets. cbv zeta. cbn [snd].
      apply paced_forward; [assumption|apply relay_loop_quiet].
    + constructor; try assumption.
      rewrite K4, K3. unfold forward_to_targets. cbv zeta. cbn [snd].
      change (forwards (Forward m :: ?l)) with (m :: forwards l).
      now rewrite (proj2 (relay_loop_quiet m (target_channels cfg))).
  - simpl.
    destruct (drain_in_relay_keeps cfg m (relay_resume m pt ok) g d)
      as [K1 K2 K3 K4 K5 K6].
    + exact Hf.
    + apply relay_resume_quiet.
    + apply paced_quiet; [assumption|apply relay_resume_quiet].
    + constructor; try assumption.
      now rewrite K4, K3, (proj2 (relay_resume_quiet m pt ok)).
Qed.

(** Each resumption brings the drain loop nearer to its end. *)
Lemma resume_decreases (cfg : config) (g : globals) (d : list event) (t : task)
      (ok : bool) :
  drain_state cfg g d [t] ->
  let r := resume cfg t ok g in
  (remaining cfg (seg_globals r) (option_list (seg_self r)) < remaining cfg g [t])%nat.
Proof.
  intros Hs. inversion Hs as [| Hf | d' Hf Hq Hd | m pt Hf]; subst; cbv zeta.
  - simpl resume. unfold process_queue.
    destruct (message_queue g) as [|m q] eqn:E; unfold remaining; simpl;
      rewrite ?E; simpl; lia.
  - simpl resume. unfold process_queue_wake.
    destruct (message_queue g) as [|m q] eqn:E; [congruence|].
    unfold process_queue_in_relay, forward_to_targets. cbv zeta. cbn [fst snd].
    unfold remaining at 2. rewrite E.
    destruct (target_channels cfg) as [|c rest] eqn:Ec; cbn [relay_loop fst snd].
    + unfold process_queue, add_events. cbn [message_queue].
      destruct q as [|m' q']; unfold remaining; rewrite ?Ec; simpl; lia.
    + unfold remaining. rewrite Ec. simpl. lia.
  - simpl resume. unfold process_queue_in_relay.
    destruct pt as [c rest|[|c rest]].
    + rewrite relay_resume_send. cbn [fst snd seg_globals seg_self option_list].
      unfold remaining. simpl. lia.
    + cbn [relay_resume relay_loop fst snd]. unfold process_queue, add_events.
      destruct (message_queue g) as [|m' q] eqn:E; unfold remaining; simpl;
        rewrite ?E; simpl; lia.
    + cbn [relay_resume relay_loop fst snd seg_globals seg_self option_list].
      unfold remaining. simpl. lia.
Qed.

Lemma deliveries_app (a b : list event) :
  deliveries (a ++ b) = deliveries a ++ deliveries b.
Proof. apply flat_map_app. Qed.

Lemma owed_all_app (cfg : config) (a b : list str) :
  owed_all cfg (a ++ b) = owed_all cfg a ++ owed_all cfg b.
Proof. apply flat_map_app. Qed.

(** A segment of the drain loop issues the sends that are due, in order. *)
Lemma resume_sends (cfg : config) (g : globals) (d : list event) (t : task)
      (ok : bool) :
  drain_state cfg g d [t] ->
  let r := resume cfg t ok g in
  deliveries (seg_events r) ++ pending (option_list (seg_self r))
  ++ owed_all cfg (message_queue (seg_globals r))
  = pending [t] ++ owed_all cfg (message_queue g).
Proof.
  intros Hs. inversion Hs as [| Hf | d' Hf Hq Hd | m pt Hf]; subst; cbv zeta.
  - simpl resume. unfold process_queue.
    destruct (message_queue g) as [|m q] eqn:E; simpl; now rewrite ?E.
  - simpl resume. unfold process_queue_wake.
    destruct (message_queue g) as [|m q] eqn:E; [congruence|].
    unfold process_queue_in_relay, forward_to_targets. cbv zeta. cbn [fst snd].
    change (owed_all cfg (m :: q)) with (owed cfg m ++ owed_all cfg q).
    unfold owed.
    destruct (target_channels cfg) as [|c rest] eqn:Ec; cbn [relay_loop fst snd].
    + unfold process_queue, add_events. cbn [message_queue].
      destruct q as [|m' q']; reflexivity.
    + reflexivity.
  - simpl resume. unfold process_queue_in_relay.
    destruct pt as [c rest|[|c rest]].
    + rewrite relay_resume_send. destruct ok; reflexivity.
    + cbn [relay_resume relay_loop fst snd]. unfold process_queue, add_events.
      destruct (message_queue g) as [|m' q] eqn:E; simpl; now rewrite ?E.
    + reflexivity.
Qed.

Lemma drain_state_alive (cfg : config) (g : globals) (d : list event)
      (ts : list task) :
  drain_state cfg g d ts -> ts <> [] ->
  exists t, ts = [t] /\ origin_of t = By_drain /\ is_forwarding g = true.
Proof.
  intros Hs Hne. inversion Hs; subst; try congruence; eexists; repeat split;
    assumption.
Qed.

Lemma drain_state_enqueue (cfg : config) (g : globals) (d : list event)
      (ts : list task) (p : str) :
  drain_state cfg g d ts -> ts <> [] ->
  drain_state cfg (mkGlobals (message_queue g ++ [p]) (is_forwarding g)
                             (last_forward_time g)) d ts.
Proof.
  intros Hs Hne. inversion Hs as [| Hf | d' Hf Hq Hd | m pt Hf]; subst.
  - congruence.
  - now constructor.
  - apply DS_sleep with d'; [assumption| |reflexivity].
    simpl. intros H. apply app_eq_nil in H. destruct H. discriminate.
  - now constructor.
Qed.

(** The handler inside an episode: the message is queued or skipped. *)
Lemma handler_in_episode (cfg : config) (message : option str) (now : time)
      (g : globals) :
  is_forwarding g = true ->
  in_window cfg (last_forward_time g) (New_message message now) = true ->
  exists l,
    handler cfg message now g
    = match accepted message with
      | Some parsed => queued_segment parsed g
      | None => mkSegment g None [] [Log l]
      end.
Proof.
  intros Hf Hw. unfold in_window in Hw. unfold handler, accepted in *.
  cbv zeta in *.
  destruct (has_hyperlink _); [now eexists|].
  destruct (parse_and_format_message _) as [[|c parsed]|]; try (now eexists).
  exists Skipped_format. unfold immediate_slot, queued_segment.
  apply negb_true_iff in Hw. rewrite Hw, Hf. reflexivity.
Qed.

Lemma inv_resume (cfg : config) (t0 : time) (rs : list str) (s : system)
      (i : nat) (ok : bool) :
  episode_inv cfg t0 rs s -> tasks s <> [] ->
  episode_inv cfg t0 rs (step cfg s (Resume i ok))
  /\ (i = 0%nat ->
      (remaining cfg (shared (step cfg s (Resume i ok)))
                 (tasks (step cfg s (Resume i ok)))
       < remaining cfg (shared s) (tasks s))%nat).
Proof.
  intros [I1 I2 I3 I5 I4] Hne.
  destruct (drain_state_alive _ _ _ _ I4 Hne) as (t & Et & Ho & Hf).
  destruct s as [g ts tr]. simpl in *. subst ts.
  destruct i as [|i].
  - pose proof (resume_ok cfg g _ t ok I2 I4) as [K1 K2 K3 K4 K5].
    pose proof (resume_decreases cfg g _ t ok I4) as Hd. cbv zeta in Hd.
    pose proof (resume_sends cfg g _ t ok I4) as Hsd. cbv zeta in Hsd.
    cbn [nth_error firstn skipn app]. rewrite K1, Ho, !app_nil_r.
    split; [|intros _; exact Hd].
    constructor; cbn [shared tasks trace];
      rewrite ?events_of_app, ?events_of_drain_tag_drain; try assumption.
    + congruence.
    + rewrite forwards_app, <- app_assoc, K3. exact I3.
    + rewrite deliveries_app, <- app_assoc, Hsd. exact I5.
  - replace (nth_error [t] (S i)) with (@None task) by (now destruct i).
    split; [now constructor|discriminate].
Qed.

Lemma inv_message (cfg : config) (t0 : time) (rs : list str) (s : system)
      (message : option str) (now : time) :
  episode_inv cfg t0 rs s -> tasks s <> [] ->
  in_window cfg t0 (New_message message now) = true ->
  episode_inv cfg t0 (rs ++ option_list (accepted message))
              (step cfg s (New_message message now)).
Proof.
  intros [I1 I2 I3 I5 I4] Hne Hw.
  destruct (drain_state_alive _ _ _ _ I4 Hne) as (t & Et & Ho & Hf).
  destruct s as [g ts tr]. simpl in *. subst ts.
  destruct (handler_in_episode cfg message now g Hf) as [l Hh];
    [now rewrite I1|].
  rewrite Hh. destruct (accepted message) as [parsed|];
    cbn [queued_segment seg_globals seg_self seg_created seg_events
                        option_list app];
    constructor; cbn [shared tasks trace last_forward_time message_queue];
    rewrite ?events_of_app, ?events_of_drain_tag_handler, ?app_nil_r;
    try assumption.
  - now rewrite app_assoc, I3.
  - now rewrite !owed_all_app, <- I5, <- !app_assoc.
  - now apply drain_state_enqueue.
Qed.


Lemma inv_start (cfg : config) (q0 : list str) (t0 : time) :
  episode_inv cfg t0 q0 (episode_start q0 t0).
Proof.
  constructor; simpl; try reflexivity.
  - intros pre m post E. destruct pre; discriminate.
  - now constructor.
Qed.





(** ** Two drain loops *)

(** C5 does not hold of the code.  A message is relayed at once at time
    1000 and a second one is queued; the drain loop sleeps.  A third
    message comes at 1070 while [is_forwarding] is true and the loop is
    asleep: it is relayed at once, and its handler creates a second drain
    loop.  Both loops are alive together, and the one that wakes last pops
    from the empty queue. *)
Theorem second_drain_loop_created :
  let cfg := mkConfig [1%Z] 120 60 in
  let active :=
    run cfg initial_system
        [New_message (Some (amount_input (lit "1"))) (seconds 1000);
         Resume 0 true; Resume 0 true;
         New_message (Some (amount_input (lit "2"))) (seconds 1001);
         Resume 0 true] in
  let twice :=
    run cfg active
        [New_message (Some (amount_input (lit "3"))) (seconds 1070);
         Resume 1 true; Resume 1 true] in
  let later :=
    run cfg twice
        [Resume 1 true; Resume 0 true; Resume 0 true; Resume 0 true;
         Resume 0 true] in
  (is_forwarding (shared active) = true
   /\ message_queue (shared active) = [amount_output (lit "2")]
   /\ tasks active = [Drain_sleep])
  /\ (tasks twice = [Drain_sleep; Drain_created] /\ drain_loops twice = 2%nat
      /\ shared twice = mkGlobals [amount_output (lit "2")] true (seconds 1070))
  /\ (tasks later = []
      /\ events_of By_drain (trace later)
         = [Sleep 120; Sleep 120;
            Forward (amount_output (lit "2")); Send 1%Z (amount_output (lit "2"));
            Log (Forwarded 1%Z); Sleep 1; Index_error]).
Proof. vm_compute. repeat split. Qed.

(** * More of the parser *)

(** ** White space in front of a message *)

Lemma split_not_nil (sep : N) (s : str) : split sep s <> [].
Proof.
  induction s as [|c s IH]; simpl; [discriminate|].
  destruct (c =? sep); [discriminate|].
  destruct (split sep s); [contradiction|discriminate].
Qed.

Lemma re_sub_keeps_other (c : N) (s : str) :
  c <> LT -> re_sub tag_re (c :: s) = c :: re_sub tag_re s.
Proof.
  intros Hc. apply (re_sub_no_tag_prefix [c] s). intros [H|[]]. now subst.
Qed.

Lemma stripped_lines_leading_space (c : N) (t : str) :
  isspace c = true -> stripped_lines (c :: t) = stripped_lines t.
Proof.
  intros Hc. unfold stripped_lines. cbn [split].
  destruct (N.eqb_spec c LF) as [->|Hn].
  - reflexivity.
  - destruct (split LF t) as [|l ls] eqn:E; [now destruct (split_not_nil LF t)|].
    cbn [map]. replace (strip (c :: l)) with (strip l); [reflexivity|].
    unfold strip. simpl lstrip. now rewrite Hc.
Qed.

(** X1: a white-space character in front of a text does not change what
    the parser returns for it. *)
Theorem leading_space_ignored (c : N) (text : str) :
  isspace c = true ->
  parse_and_format_message (c :: text) = parse_and_format_message text.
Proof.
  intros Hc. unfold parse_and_format_message, parse_fields. cbv zeta.
  rewrite re_sub_keeps_other by (intros ->; discriminate Hc).
  now rewrite stripped_lines_leading_space.
Qed.

Lemma leading_space_ignored_witness :
  parse_and_format_message (LF :: sample_input) = Some sample_output.
Proof.
  rewrite (leading_space_ignored LF sample_input eq_refl).
  vm_compute. reflexivity.
Defined.

(** ** Lines after the third *)

Lemma split_app_sep (sep : N) (a b : str) :
  split sep (a ++ sep :: b) = split sep a ++ split sep b.
Proof.
  induction a as [|c a IH]; simpl.
  - now rewrite N.eqb_refl.
  - rewrite IH. destruct (c =? sep); [reflexivity|].
    destruct (split sep a) as [|l ls] eqn:E; [now destruct (split_not_nil sep a)|].
    reflexivity.
Qed.

Lemma stripped_lines_app (a b : str) :
  stripped_lines (a ++ LF :: b) = stripped_lines a ++ stripped_lines b.
Proof.
  unfold stripped_lines. now rewrite split_app_sep, map_app, filter_app.
Qed.

(** X2: for texts without an opening angle bracket, what follows the line
    break after three or more lines is not consulted. *)
Theorem later_lines_ignored (text extra : str) :
  ~ In LT text -> ~ In LT extra ->
  (3 <= length (stripped_lines text))%nat ->
  parse_and_format_message (text ++ LF :: extra) = parse_and_format_message text.
Proof.
  intros Ht He Hlen. unfold parse_and_format_message, parse_fields. cbv zeta.
  rewrite (re_sub_no_tag text Ht).
  rewrite (re_sub_no_tag (text ++ LF :: extra)).
  2:{ intros H. apply in_app_or in H. destruct H as [H|[H|H]];
      [contradiction|discriminate|contradiction]. }
  rewrite stripped_lines_app.
  set (L := stripped_lines text) in *. set (M := stripped_lines extra).
  replace (length (L ++ M) <? 3)%nat with (length L <? 3)%nat.
  2:{ rewrite length_app.
      destruct (Nat.ltb_spec (length L) 3), (Nat.ltb_spec (length L + length M) 3);
        try reflexivity; lia. }
  rewrite !(app_nth1 L M) by lia. reflexivity.
Qed.

Lemma later_lines_ignored_witness :
  parse_and_format_message (sample_input ++ LF :: lit "Join: t.me/redpackets")
  = Some sample_output.
Proof.
  rewrite later_lines_ignored.
  - vm_compute. reflexivity.
  - apply absent_not_In. vm_compute. reflexivity.
  - apply absent_not_In. vm_compute. reflexivity.
  - vm_compute. lia.
Defined.

(** ** The fields of an accepted message *)

Lemma amount_re_groups (w : str) (g : list str) :
  rmatch amount_re w g ->
  exists a t, g = [a; t] /\ (a <> [] /\ all_in digit_or_dot a)
              /\ (t <> [] /\ all_in alnum t).
Proof.
  unfold amount_re. intros M.
  inversion M as [| | | |? ? ? ? ? ? M1 M2|]; subst. inversion M1; subst.
  inversion M2 as [| | | |? ? ? ? ? ? M3 M4|]; subst. inversion M3; subst.
  inversion M4 as [| | | |? ? ? ? ? ? M5 M6|]; subst.
  inversion M5 as [| | | | |? ? ? M5']; subst. inversion M5'; subst.
  inversion M6 as [| | | |? ? ? ? ? ? M7 M8|]; subst. inversion M7; subst.
  inversion M8 as [| | | | |? ? ? M8']; subst. inversion M8'; subst.
  eexists; eexists. split; [reflexivity|]. now repeat split.
Qed.

Lemma rmatch_Lit (s w : str) (g : list str) : rmatch (Lit s) w g -> g = [].
Proof.
  revert w g. induction s as [|c s IH]; intros w g M; simpl in M.
  - now inversion M.
  - inversion M as [| | | |? ? ? ? ? ? M1 M2|]; subst. inversion M1; subst.
    now rewrite (IH _ _ M2).
Qed.

Lemma claim_re_groups (w : str) (g : list str) :
  rmatch claim_re w g ->
  exists c t, g = [c; t] /\ (c <> [] /\ all_in isdecimal c)
              /\ (t <> [] /\ all_in isdecimal t).
Proof.
  unfold claim_re. intros M.
  inversion M as [| | | |? ? ? ? ? ? M1 M2|]; subst.
  apply (rmatch_Lit (lit "Claimed:")) in M1. subst.
  inversion M2 as [| | | |? ? ? ? ? ? M3 M4|]; subst. inversion M3; subst.
  inversion M4 as [| | | |? ? ? ? ? ? M5 M6|]; subst.
  inversion M5 as [| | | | |? ? ? M5']; subst. inversion M5'; subst.
  inversion M6 as [| | | |? ? ? ? ? ? M7 M8|]; subst. inversion M7; subst.
  inversion M8 as [| | | |? ? ? ? ? ? M9 M10|]; subst. inversion M9; subst.
  inversion M10 as [| | | |? ? ? ? ? ? M11 M12|]; subst. inversion M11; subst.
  inversion M12 as [| | | | |? ? ? M12']; subst. inversion M12'; subst.
  eexists; eexists. split; [reflexivity|]. now repeat split.
Qed.

Lemma code_re_groups (w : str) (g : list str) :
  rmatch code_re w g -> exists k, g = [k] /\ k <> [] /\ all_in upper_digit k.
Proof.
  unfold code_re. intros M.
  inversion M as [| | | |? ? ? ? ? ? M1 M2|]; subst. inversion M1; subst.
  inversion M2 as [| | | |? ? ? ? ? ? M3 M4|]; subst. inversion M3; subst.
  inversion M4 as [| | | | |? ? ? M5]; subst. inversion M5; subst.
  eexists. now repeat split.
Qed.

Lemma parse_fields_classes (text : str) (f : fields) :
  parse_fields text = Some f -> well_formed_fields f.
Proof.
  unfold parse_fields. cbv zeta.
  destruct (length _ <? 3)%nat; [discriminate|].
  destruct (re_search amount_re _) as [ma|] eqn:E1; [|discriminate].
  destruct (re_search claim_re _) as [mc|] eqn:E2; [|discriminate].
  destruct (re_search code_re _) as [mk|] eqn:E3; [|discriminate].
  intros H. inversion H; subst. clear H.
  destruct (re_search_Some _ _ _ E1) as (? & ? & ? & _ & M1).
  destruct (re_search_Some _ _ _ E2) as (? & ? & ? & _ & M2).
  destruct (re_search_Some _ _ _ E3) as (? & ? & ? & _ & M3).
  destruct (amount_re_groups _ _ M1) as (a & t & -> & Ha & Ht).
  destruct (claim_re_groups _ _ M2) as (c & t' & -> & Hc & Ht').
  destruct (code_re_groups _ _ M3) as (k & -> & Hk).
  constructor; assumption.
Qed.

(** X3: the fields of an accepted message are each a non-empty run of the
    characters of their group: the code of [A-Z0-9], the amount of digits
    and dots, the token of [A-Za-z0-9], the two counts of digits. *)
Theorem parsed_fields_well_formed (text : str) (f : fields) :
  parse_fields text = Some f -> well_formed_fields f.
Proof. apply parse_fields_classes. Qed.

Lemma parsed_fields_well_formed_witness :
  well_formed_fields
    (mkFields (lit "IJAU5UL6") (lit "0.00000002") (lit "BNB") (lit "646") (lit "711")).
Proof.
  apply (parsed_fields_well_formed sample_input). vm_compute. reflexivity.
Defined.

(** ** The output holds no hyperlink *)

Lemma occurrences_app (c : N) (a b : str) :
  occurrences c (a ++ b) = (occurrences c a + occurrences c b)%nat.
Proof. apply count_occ_app. Qed.

Lemma occurrences_substring (c : N) (p s : str) :
  substring p s -> (occurrences c p <= occurrences c s)%nat.
Proof. intros (pre & post & ->). rewrite !occurrences_app. lia. Qed.

Lemma occurrences_outside (p : N -> bool) (c : N) (s : str) :
  p c = false -> all_in p s -> occurrences c s = 0%nat.
Proof.
  intros Hc Hs. apply count_occ_not_In. now apply all_in_not_In with p.
Qed.

Lemma occurrences_formatted (c : N) (f : fields) :
  well_formed_fields f ->
  upper_digit c = false -> digit_or_dot c = false -> alnum c = false ->
  isdecimal c = false ->
  occurrences c (format_fields f)
  = occurrences c (format_fields (mkFields [] [] [] [] [])).
Proof.
  intros [[_ H1] [_ H2] [_ H3] [_ H4] [_ H5]] U D A I.
  unfold format_fields. cbn [code amount token claimed total].
  rewrite !occurrences_app.
  rewrite (occurrences_outside _ c _ U H1), (occurrences_outside _ c _ D H2),
    (occurrences_outside _ c _ A H3), (occurrences_outside _ c _ I H4),
    (occurrences_outside _ c _ I H5).
  reflexivity.
Qed.

Lemma parsed_output_clean (text out : str) :
  parse_and_format_message text = Some out ->
  has_hyperlink out = false /\ ~ In LT out.
Proof.
  unfold parse_and_format_message.
  destruct (parse_fields text) as [f|] eqn:E; [|discriminate].
  intros H. inversion H; subst. clear H.
  pose proof (parse_fields_classes _ _ E) as W.
  assert (Hs : occurrences 47 (format_fields f) = 1%nat)
    by (rewrite (occurrences_formatted 47 f W); reflexivity).
  assert (Hl : occurrences LT (format_fields f) = 0%nat)
    by (rewrite (occurrences_formatted LT f W); reflexivity).
  split.
  - unfold has_hyperlink.
    destruct (contains (lit "http://") _) eqn:C1.
    { apply contains_spec, (occurrences_substring 47) in C1.
      rewrite Hs in C1. vm_compute in C1. lia. }
    destruct (contains (lit "https://") _) eqn:C2.
    { apply contains_spec, (occurrences_substring 47) in C2.
      rewrite Hs in C2. vm_compute in C2. lia. }
    destruct (contains (lit "<a href=") _) eqn:C3; [|reflexivity].
    apply contains_spec, (occurrences_substring LT) in C3.
    rewrite Hl in C3. vm_compute in C3. lia.
  - intros Hin. apply (count_occ_In N.eq_dec) in Hin.
    unfold occurrences in Hl. lia.
Qed.

(** X4: the output of the parser holds none of the three hyperlink
    markers of the handler and no opening angle bracket, whatever the
    message was. *)
Theorem output_has_no_hyperlink (text out : str) :
  parse_and_format_message text = Some out ->
  has_hyperlink out = false /\ ~ In LT out.
Proof. apply parsed_output_clean. Qed.

Lemma output_has_no_hyperlink_witness :
  has_hyperlink sample_output = false /\ ~ In LT sample_output.
Proof.
  apply (output_has_no_hyperlink sample_input). vm_compute. reflexivity.
Defined.

(** ** From fields to a message and back *)

Lemma alnum_not_space (c : N) : alnum c = true -> isspace c = false.
Proof.
  intros H. apply (in_ranges_apart [(65, 90); (97, 122); (48, 57)]).
  - vm_compute. reflexivity.
  - unfold in_ranges. simpl. rewrite orb_false_r, orb_assoc. exact H.
Qed.

Lemma upper_digit_alnum (c : N) : upper_digit c = true -> alnum c = true.
Proof.
  unfold upper_digit, alnum. intros H. apply orb_true_iff in H.
  destruct H as [-> | ->]; [reflexivity|apply orb_true_r].
Qed.

Lemma split_no_sep (sep : N) (a : str) : ~ In sep a -> split sep a = [a].
Proof.
  induction a as [|c a IH]; intros Hn; [reflexivity|]. simpl.
  destruct (N.eqb_spec c sep) as [->|_]; [exfalso; apply Hn; now left|].
  rewrite IH; [reflexivity|]. intros H. apply Hn. now right.
Qed.

(** A line that starts with a character that is no white space and ends
    with a run of such characters is a line of its own, as it is. *)
Lemma stripped_lines_single (c : N) (s w : str) :
  isspace c = false -> w <> [] -> (forall x, In x w -> isspace x = false) ->
  ~ In LF (c :: s ++ w) ->
  stripped_lines (c :: s ++ w) = [c :: s ++ w].
Proof.
  intros Hc Hne Hw Hlf. unfold stripped_lines. rewrite (split_no_sep _ _ Hlf).
  destruct (exists_last Hne) as (w' & d & ->).
  rewrite app_assoc. cbn [map].
  rewrite strip_fixed; [reflexivity|assumption|].
  apply Hw, in_or_app. right. now left.
Qed.

Lemma first_Lit (s rest : str) : first_match (Lit s) (s ++ rest) = Some ([], rest).
Proof.
  induction s as [|c s IH]; [reflexivity|]. simpl Lit.
  change ([] : list str) with ([] ++ [] : list str).
  apply first_cat with (s1 := s ++ rest); [apply first_chr|exact IH].
Qed.

Lemma claim_re_needs_C (c : N) (s : str) :
  c <> 67 -> matches claim_re (c :: s) = [].
Proof.
  intros Hc. unfold claim_re. simpl.
  destruct (N.eqb_spec c 67); [contradiction|reflexivity].
Qed.

Lemma stops_head (p q : N -> bool) (w rest : str) :
  w <> [] -> all_in q w -> (forall x, q x = true -> p x = false) ->
  stops p (w ++ rest).
Proof.
  intros Hne Hw Hq. destruct w as [|x w]; [congruence|].
  inversion Hw; subst. simpl. now apply Hq.
Qed.

Lemma amount_line_found (a t : str) :
  a <> [] -> all_in digit_or_dot a -> t <> [] -> all_in alnum t ->
  re_search amount_re
    (MONEY_BAG :: lit " " ++ [PLUS_MINUS] ++ lit " " ++ a ++ lit " " ++ t)
  = Some [a; t].
Proof.
  intros Ha Ha' Ht Ht'.
  change (MONEY_BAG :: lit " " ++ [PLUS_MINUS] ++ lit " " ++ a ++ lit " " ++ t)
    with (MONEY_BAG :: 32 :: PLUS_MINUS :: [32] ++ a ++ [32] ++ t).
  rewrite <- (app_nil_r t) at 1.
  rewrite re_search_skip by (apply amount_re_needs_sign; discriminate).
  rewrite re_search_skip by (apply amount_re_needs_sign; discriminate).
  apply re_search_first with (rest := []).
  change [a; t] with ([] ++ [] ++ [a] ++ [] ++ [t]).
  unfold amount_re.
  apply first_cat with (s1 := [32] ++ a ++ [32] ++ t ++ []); [apply first_chr|].
  apply first_cat with (s1 := a ++ [32] ++ t ++ []).
  { apply first_star; [now repeat constructor|].
    apply stops_head with digit_or_dot; try assumption.
    apply digit_or_dot_not_space. }
  apply first_cat with (s1 := [32] ++ t ++ []).
  { apply first_group, first_plus; [assumption|assumption|reflexivity]. }
  apply first_cat with (s1 := t ++ []).
  { apply first_star; [now repeat constructor|].
    apply stops_head with alnum; try assumption. apply alnum_not_space. }
  apply first_group, first_plus; [assumption|assumption|exact I].
Qed.

Lemma claim_line_found (c t : str) :
  c <> [] -> all_in isdecimal c -> t <> [] -> all_in isdecimal t ->
  re_search claim_re
    (RED_ENVELOPE :: lit " Claimed: " ++ c ++ lit " / " ++ t)
  = Some [c; t].
Proof.
  intros Hc Hc' Ht Ht'.
  change (RED_ENVELOPE :: lit " Claimed: " ++ c ++ lit " / " ++ t)
    with (RED_ENVELOPE :: 32
          :: lit "Claimed:" ++ [32] ++ c ++ [32] ++ 47 :: [32] ++ t).
  rewrite <- (app_nil_r t) at 1.
  rewrite re_search_skip by (apply claim_re_needs_C; discriminate).
  rewrite re_search_skip by (apply claim_re_needs_C; discriminate).
  apply re_search_first with (rest := []).
  change [c; t] with ([] ++ [] ++ [c] ++ [] ++ [] ++ [] ++ [t]).
  unfold claim_re.
  apply first_cat with (s1 := [32] ++ c ++ [32] ++ 47 :: [32] ++ t ++ []);
    [apply first_Lit|].
  apply first_cat with (s1 := c ++ [32] ++ 47 :: [32] ++ t ++ []).
  { apply first_star; [now repeat constructor|].
    apply stops_head with isdecimal; try assumption. apply decimal_not_space. }
  apply first_cat with (s1 := [32] ++ 47 :: [32] ++ t ++ []).
  { apply first_group, first_plus; [assumption|assumption|reflexivity]. }
  apply first_cat with (s1 := 47 :: [32] ++ t ++ []).
  { apply first_star; [now repeat constructor|reflexivity]. }
  apply first_cat with (s1 := [32] ++ t ++ []); [apply first_chr|].
  apply first_cat with (s1 := t ++ []).
  { apply first_star; [now repeat constructor|].
    apply stops_head with isdecimal; try assumption. apply decimal_not_space. }
  apply first_group, first_plus; [assumption|assumption|exact I].
Qed.

Lemma code_line_found (k : str) :
  k <> [] -> all_in upper_digit k ->
  re_search code_re (WRAPPED_GIFT :: lit " " ++ k) = Some [k].
Proof.
  intros Hk Hk'.
  change (WRAPPED_GIFT :: lit " " ++ k) with (WRAPPED_GIFT :: [32] ++ k).
  rewrite <- (app_nil_r k) at 1.
  apply re_search_first with (rest := []).
  change [k] with ([] ++ [] ++ [k]).
  unfold code_re.
  apply first_cat with (s1 := [32] ++ k ++ []); [apply first_chr|].
  apply first_cat with (s1 := k ++ []).
  { apply first_star; [now repeat constructor|].
    apply stops_head with upper_digit; try assumption.
    intros x Hx. now apply alnum_not_space, upper_digit_alnum. }
  apply first_group, first_plus; [assumption|assumption|exact I].
Qed.

Ltac absent_in_line :=
  let H := fresh "H" in
  intros H; simpl in H; rewrite ?in_app_iff in H; simpl in H;
  repeat (destruct H as [H|H]); try discriminate H; try contradiction;
  revert H;
  first [ apply all_in_not_In with digit_or_dot; [reflexivity|assumption]
        | apply all_in_not_In with alnum; [reflexivity|assumption]
        | apply all_in_not_In with isdecimal; [reflexivity|assumption]
        | apply all_in_not_In with upper_digit; [reflexivity|assumption] ].

Lemma all_in_no_space (p : N -> bool) (w : str) :
  (forall x, p x = true -> isspace x = false) -> all_in p w ->
  forall x, In x w -> isspace x = false.
Proof.
  intros Hp Hw x Hx. apply Hp. unfold all_in in Hw. rewrite Forall_forall in Hw.
  now apply Hw.
Qed.

(** X5: a message in the layout of the sample that shows well-formed
    fields is parsed to these fields, so every such record has a message
    that produces it. *)
Theorem canonical_message_parsed (f : fields) :
  well_formed_fields f -> parse_fields (message_of f) = Some f.
Proof.
  intros [[K1 K2] [A1 A2] [T1 T2] [C1 C2] [O1 O2]].
  destruct f as [k a t c o]. cbn [code amount token claimed total] in *.
  set (l1 := MONEY_BAG :: lit " " ++ [PLUS_MINUS] ++ lit " " ++ a ++ lit " " ++ t).
  set (l2 := RED_ENVELOPE :: lit " Claimed: " ++ c ++ lit " / " ++ o).
  set (l3 := WRAPPED_GIFT :: lit " " ++ k).
  assert (E : message_of (mkFields k a t c o) = l1 ++ LF :: l2 ++ LF :: l3).
  { unfold message_of, l1, l2, l3. cbn [code amount token claimed total].
    repeat (simpl; rewrite <- ?app_assoc). reflexivity. }
  assert (T1' : ~ In LT l1) by (unfold l1; absent_in_line).
  assert (T2' : ~ In LT l2) by (unfold l2; absent_in_line).
  assert (T3' : ~ In LT l3) by (unfold l3; absent_in_line).
  assert (F1 : ~ In LF l1) by (unfold l1; absent_in_line).
  assert (F2 : ~ In LF l2) by (unfold l2; absent_in_line).
  assert (F3 : ~ In LF l3) by (unfold l3; absent_in_line).
  assert (S1 : stripped_lines l1 = [l1]).
  { assert (E1 : l1 = MONEY_BAG
                      :: (lit " " ++ [PLUS_MINUS] ++ lit " " ++ a ++ lit " ") ++ t)
      by (unfold l1; now rewrite <- !app_assoc).
    rewrite E1 in F1 |- *. apply stripped_lines_single; try assumption;
      [reflexivity|].
    apply all_in_no_space with alnum; [apply alnum_not_space|assumption]. }
  assert (S2 : stripped_lines l2 = [l2]).
  { assert (E2 : l2 = RED_ENVELOPE :: (lit " Claimed: " ++ c ++ lit " / ") ++ o)
      by (unfold l2; now rewrite <- !app_assoc).
    rewrite E2 in F2 |- *. apply stripped_lines_single; try assumption;
      [reflexivity|].
    apply all_in_no_space with isdecimal; [apply decimal_not_space|assumption]. }
  assert (S3 : stripped_lines l3 = [l3]).
  { unfold l3 in F3 |- *. apply stripped_lines_single; try assumption;
      [reflexivity|]. apply all_in_no_space with upper_digit; [|assumption].
    intros x Hx. now apply alnum_not_space, upper_digit_alnum. }
  pose proof (amount_line_found a t A1 A2 T1 T2) as R1. fold l1 in R1.
  pose proof (claim_line_found c o C1 C2 O1 O2) as R2. fold l2 in R2.
  pose proof (code_line_found k K1 K2) as R3. fold l3 in R3.
  clearbody l1 l2 l3.
  unfold parse_fields. cbv zeta. rewrite E, re_sub_no_tag.
  2:{ intros H. apply in_app_or in H. destruct H as [H|[H|H]];
      [contradiction|discriminate|].
      apply in_app_or in H. destruct H as [H|[H|H]];
        [contradiction|discriminate|contradiction]. }
  rewrite !stripped_lines_app, S1, S2, S3.
  cbn [app length Nat.ltb Nat.leb nth]. rewrite R1, R2, R3. reflexivity.
Qed.

Lemma canonical_message_parsed_witness :
  parse_fields
    (message_of (mkFields (lit "A1") (lit "1.5") (lit "USDT") (lit "0") (lit "10")))
  = Some (mkFields (lit "A1") (lit "1.5") (lit "USDT") (lit "0") (lit "10")).
Proof.
  apply canonical_message_parsed.
  constructor; (split; [discriminate|repeat constructor]).
Defined.

(** * More of the scheduler: every schedule *)

(** ** Each accepted message is relayed once or waits in the queue *)

Lemma all_events_app (a b : list (origin * event)) :
  all_events (a ++ b) = all_events a ++ all_events b.
Proof. apply map_app. Qed.

Lemma all_events_tag (o : origin) (evs : list event) : all_events (tag o evs) = evs.
Proof.
  unfold all_events, tag. rewrite map_map. simpl. apply map_id.
Qed.

Lemma forward_to_targets_forwards (cfg : config) (text : str) :
  forwards (snd (forward_to_targets cfg text)) = [text].
Proof.
  unfold forward_to_targets. cbv zeta. cbn [snd].
  change (forwards (Forward text :: ?l)) with (text :: forwards l).
  now rewrite (proj2 (relay_loop_quiet text (target_channels cfg))).
Qed.

Lemma process_queue_ledger (cfg : config) (g : globals) :
  forwards (seg_events (process_queue cfg g)) = []
  /\ message_queue (seg_globals (process_queue cfg g)) = message_queue g.
Proof.
  unfold process_queue. destruct (message_queue g) eqn:E; simpl; now rewrite ?E.
Qed.

Lemma process_queue_in_relay_ledger (cfg : config) (msg : str)
      (r : status relay_point * list event) (g : globals) :
  fst r <> Raised ->
  forwards (seg_events (process_queue_in_relay cfg msg r g)) = forwards (snd r)
  /\ message_queue (seg_globals (process_queue_in_relay cfg msg r g))
     = message_queue g.
Proof.
  intros Hr. unfold process_queue_in_relay.
  destruct (fst r); [now split| |congruence].
  destruct (process_queue_ledger cfg g) as [E1 E2]. cbn [add_events seg_events seg_globals].
  now rewrite forwards_app, E1, app_nil_r.
Qed.

Lemma handler_in_relay_ledger (parsed : str) (cur : time)
      (r : status relay_point * list event) (g : globals) :
  fst r <> Raised ->
  forwards (seg_events (handler_in_relay parsed cur r g)) = forwards (snd r)
  /\ message_queue (seg_globals (handler_in_relay parsed cur r g))
     = message_queue g.
Proof.
  intros Hr. unfold handler_in_relay.
  destruct (fst r); [now split| |congruence].
  cbn [add_events handler_after_relay seg_events seg_globals message_queue].
  now rewrite forwards_app, app_nil_r.
Qed.

(** A task that is resumed relays what it takes from the head of the
    queue, and nothing else. *)
Lemma resume_ledger (cfg : config) (t : task) (ok : bool) (g : globals) :
  forwards (seg_events (resume cfg t ok g))
  ++ message_queue (seg_globals (resume cfg t ok g))
  = message_queue g.
Proof.
  destruct t as [parsed cur pt| | |msg pt]; cbn [resume].
  - destruct (handler_in_relay_ledger parsed cur (relay_resume parsed pt ok) g)
      as [-> ->]; [apply relay_resume_quiet|].
    now rewrite (proj2 (relay_resume_quiet parsed pt ok)).
  - now destruct (process_queue_ledger cfg g) as [-> ->].
  - unfold process_queue_wake. destruct (message_queue g) as [|m q] eqn:E.
    + simpl. exact E.
    + destruct (process_queue_in_relay_ledger cfg m (forward_to_targets cfg m)
                  (mkGlobals q (is_forwarding g) (last_forward_time g)))
        as [-> ->].
      * unfold forward_to_targets. cbv zeta. cbn [fst]. apply relay_loop_quiet.
      * now rewrite forward_to_targets_forwards.
  - destruct (process_queue_in_relay_ledger cfg msg (relay_resume msg pt ok) g)
      as [-> ->]; [apply relay_resume_quiet|].
    now rewrite (proj2 (relay_resume_quiet msg pt ok)).
Qed.

(** The handler relays the text of an accepted message or appends it to
    the queue. *)
Lemma handler_ledger (cfg : config) (message : option str) (now : time)
      (g : globals) :
  let r := handler cfg message now g in
  Permutation
    (forwards (seg_events r) ++ message_queue (seg_globals r))
    (message_queue g ++ option_list (accepted message)).
Proof.
  cbv zeta. unfold handler, accepted. cbv zeta.
  destruct (has_hyperlink _); [simpl; now rewrite app_nil_r|].
  destruct (parse_and_format_message _) as [[|c parsed]|];
    try (simpl; now rewrite app_nil_r).
  destruct (immediate_slot cfg g now).
  - destruct (handler_in_relay_ledger (c :: parsed) now
                (forward_to_targets cfg (c :: parsed)) g) as [-> ->].
    + unfold forward_to_targets. cbv zeta. cbn [fst]. apply relay_loop_quiet.
    + rewrite forward_to_targets_forwards. cbn [option_list].
      apply Permutation_app_comm.
  - reflexivity.
Qed.

Lemma step_ledger (cfg : config) (s : system) (a : action) :
  Permutation
    (forwards (all_events (trace (step cfg s a))) ++ message_queue (shared (step cfg s a)))
    ((forwards (all_events (trace s)) ++ message_queue (shared s)) ++ enqueued [a]).
Proof.
  destruct a as [message now|i ok]; cbn [step].
  - cbn [shared trace]. rewrite all_events_app, all_events_tag, forwards_app.
    unfold enqueued. cbn [flat_map]. rewrite app_nil_r, <- !app_assoc.
    apply Permutation_app_head. apply handler_ledger.
  - unfold enqueued. cbn [flat_map]. rewrite app_nil_r.
    destruct (nth_error (tasks s) i) as [t|]; [|reflexivity].
    cbn [shared trace]. rewrite all_events_app, all_events_tag, forwards_app.
    now rewrite <- app_assoc, resume_ledger.
Qed.

Lemma enqueued_app (a b : list action) : enqueued (a ++ b) = enqueued a ++ enqueued b.
Proof. apply flat_map_app. Qed.

Lemma run_ledger (cfg : config) (acts : list action) :
  forall s : system,
    Permutation
      (forwards (all_events (trace (run cfg s acts)))
       ++ message_queue (shared (run cfg s acts)))
      ((forwards (all_events (trace s)) ++ message_queue (shared s))
       ++ enqueued acts).
Proof.
  induction acts as [|a acts IH]; intros s.
  - unfold enqueued. simpl. now rewrite app_nil_r.
  - rewrite run_cons. change (a :: acts) with ([a] ++ acts).
    rewrite enqueued_app, app_assoc.
    eapply perm_trans; [apply IH|].
    apply Permutation_app_tail, step_ledger.
Qed.

(** X6: after any schedule, the texts for which the relay was called,
    with those still in the queue, are the texts of the accepted messages,
    each as often as it was accepted: none is lost and none is relayed
    twice. *)
Theorem accepted_relayed_once_or_queued (cfg : config) (acts : list action) :
  let s := run cfg initial_system acts in
  Permutation
    (forwards (all_events (trace s)) ++ message_queue (shared s))
    (enqueued acts).
Proof. cbv zeta. apply (run_ledger cfg acts initial_system). Qed.

(** ** A queued text is never left without a drain loop *)

Lemma resume_attends (cfg : config) (t : task) (ok : bool) (g : globals) :
  (message_queue g <> [] -> is_forwarding g = true) ->
  let r := resume cfg t ok g in
  let g' := seg_globals r in
  (message_queue g' <> [] -> is_forwarding g' = true)
  /\ (is_forwarding g' = true ->
      existsb (attending g') (option_list (seg_self r) ++ seg_created r) = true
      \/ (is_forwarding g = true /\ attending g t = false
          /\ forall u, attending g u = true -> attending g' u = true)).
Proof.
  intros K. cbv zeta.
  destruct t as [parsed cur pt| | |msg pt]; cbn [resume].
  - unfold handler_in_relay.
    destruct (relay_resume parsed pt ok) as [[pt'| |] evs] eqn:E; cbn [fst snd].
    + split; [exact K|]. intros Hf. right. now repeat split.
    + split; [reflexivity|]. intros _. now left.
    + destruct (proj1 (relay_resume_quiet parsed pt ok)). now rewrite E.
  - unfold process_queue. destruct (message_queue g) as [|m q] eqn:E.
    + split; [now simpl|discriminate].
    + split; [simpl; now rewrite E|]. intros _. left. simpl. now rewrite E.
  - unfold process_queue_wake. destruct (message_queue g) as [|m q] eqn:E.
    + split; [simpl; now rewrite E|]. intros Hf. right. simpl in Hf.
      repeat split; [assumption|simpl; now rewrite E|trivial].
    + assert (Hf : is_forwarding g = true) by (apply K; discriminate).
      unfold process_queue_in_relay, forward_to_targets. cbv zeta. cbn [fst snd].
      destruct (target_channels cfg) as [|c rest]; cbn [relay_loop fst snd].
      * unfold process_queue, add_events. cbn [message_queue].
        destruct q as [|m' q']; simpl.
        -- split; [congruence|discriminate].
        -- split; [trivial|]. intros _. now left.
      * simpl. split; [trivial|]. intros _. now left.
  - unfold process_queue_in_relay.
    destruct (relay_resume msg pt ok) as [[pt'| |] evs] eqn:E; cbn [fst snd].
    + split; [exact K|]. intros _. now left.
    + unfold process_queue, add_events. destruct (message_queue g) as [|m q] eqn:Eq.
      * split; [now simpl|discriminate].
      * split; [simpl; now rewrite Eq|]. intros _. left. simpl. now rewrite Eq.
    + destruct (proj1 (relay_resume_quiet msg pt ok)). now rewrite E.
Qed.

Lemma nth_error_parts {A : Type} (l : list A) (i : nat) (a : A) :
  nth_error l i = Some a -> l = firstn i l ++ a :: skipn (S i) l.
Proof.
  revert i. induction l as [|x l IH]; intros [|i] H; simpl in *; try discriminate.
  - now inversion H.
  - f_equal. now apply IH.
Qed.

Lemma existsb_weaken {A : Type} (f h : A -> bool) (l : list A) :
  (forall a, f a = true -> h a = true) -> existsb f l = true -> existsb h l = true.
Proof.
  intros Hfh H. apply existsb_exists in H. destruct H as (a & Ha & Hf).
  apply existsb_exists. exists a. split; [assumption|now apply Hfh].
Qed.

Lemma attended_step (cfg : config) (s : system) (a : action) :
  attended s -> attended (step cfg s a).
Proof.
  intros [K J]. destruct a as [message now|i ok]; cbn [step].
  - unfold handler, accepted. cbv zeta.
    assert (Hskip : forall l,
               attended (mkSystem (shared s) (tasks s ++ [] ++ [])
                                  (trace s ++ tag By_handler [Log l]))).
    { intros l. constructor; cbn [shared tasks app]; rewrite ?app_nil_r; assumption. }
    destruct (has_hyperlink _); [apply Hskip|].
    destruct (parse_and_format_message _) as [[|c parsed]|]; try apply Hskip.
    destruct (immediate_slot cfg (shared s) now) eqn:Hs.
    + unfold handler_in_relay, forward_to_targets. cbv zeta. cbn [fst snd].
      destruct (target_channels cfg) as [|ch rest]; cbn [relay_loop fst snd].
      * constructor; cbn [shared tasks add_events handler_after_relay seg_globals
                                 seg_self seg_created option_list is_forwarding];
          intros; [reflexivity|].
        rewrite !existsb_app. cbn [existsb attending]. now rewrite !orb_true_r.
      * constructor; cbn [shared tasks seg_globals seg_self seg_created option_list];
          [exact K|].
        intros Hf. rewrite existsb_app, (J Hf). reflexivity.
    + assert (Hf : is_forwarding (shared s) = true).
      { unfold immediate_slot in Hs. apply orb_false_iff in Hs.
        destruct Hs as [Hs _]. now apply negb_false_iff in Hs. }
      constructor; cbn [shared tasks seg_globals seg_self seg_created option_list
                               message_queue is_forwarding app];
        intros; [assumption|].
      rewrite app_nil_r.
      apply existsb_weaken with (attending (shared s)); [|now apply J].
      intros [ | | | ] Hu; try assumption; try discriminate.
      cbn [attending message_queue]. now destruct (message_queue (shared s)).
  - destruct (nth_error (tasks s) i) as [t|] eqn:Et; [|now constructor].
    destruct (resume_attends cfg t ok (shared s) K) as [K' J'].
    pose proof (nth_error_parts _ _ _ Et) as Ep.
    constructor; cbn [shared tasks]; [exact K'|].
    intros Hf. destruct (J' Hf) as [H|(Hf0 & Ht & Hmono)].
    + rewrite app_assoc, !existsb_app in *.
      apply orb_true_iff in H. destruct H as [H|H]; rewrite H;
        rewrite ?orb_true_r; reflexivity.
    + specialize (J Hf0). rewrite Ep, existsb_app in J. cbn [existsb] in J.
      rewrite Ht in J. cbn [orb] in J.
      rewrite !existsb_app. apply orb_true_iff in J.
      destruct J as [J|J];
        apply (existsb_weaken _ _ _ Hmono) in J; rewrite J;
        rewrite ?orb_true_r; reflexivity.
Qed.

Lemma attended_run (cfg : config) (acts : list action) :
  forall s : system, attended s -> attended (run cfg s acts).
Proof.
  induction acts as [|a acts IH]; intros s H; [exact H|].
  rewrite run_cons. now apply IH, attended_step.
Qed.

(** X7: after any schedule, if a text waits in the queue, [is_forwarding]
    is set and some drain loop is attending: one that has still to test the
    queue, one that is in a relay, or one that sleeps and will find the
    queue non-empty as it is. *)
Theorem queued_text_attended (cfg : config) (acts : list action) :
  let s := run cfg initial_system acts in
  message_queue (shared s) <> [] ->
  is_forwarding (shared s) = true
  /\ exists t, In t (tasks s) /\ attending (shared s) t = true.
Proof.
  cbv zeta. intros Hq.
  destruct (attended_run cfg acts initial_system) as [K J].
  { constructor; simpl; [congruence|discriminate]. }
  split; [now apply K|].
  apply existsb_exists. now apply J, K.
Qed.

Lemma queued_text_attended_witness :
  let cfg := mkConfig [1%Z] 120 60 in
  let acts :=
    [New_message (Some (amount_input (lit "1"))) (seconds 1000);
     Resume 0 true; Resume 0 true;
     New_message (Some (amount_input (lit "2"))) (seconds 1001)] in
  let s := run cfg initial_system acts in
  is_forwarding (shared s) = true
  /\ exists t, In t (tasks s) /\ attending (shared s) t = true.
Proof.
  intros cfg acts s. apply (queued_text_attended cfg acts).
  vm_compute. discriminate.
Defined.

(** ** Only accepted texts are sent, and only to the configured channels *)

Lemma relay_loop_sound (cfg : config) (texts : list str) (text : str)
      (chs : list channel) :
  In text texts -> incl chs (target_channels cfg) ->
  (forall pt, fst (relay_loop text chs) = Suspended pt ->
              incl (channels_left pt) (target_channels cfg))
  /\ Forall (delivery_sound cfg texts) (deliveries (snd (relay_loop text chs))).
Proof.
  intros Ht Hc. destruct chs as [|c rest]; simpl.
  - split; [discriminate|constructor].
  - split.
    + intros pt E. inversion E; subst. simpl. intros x Hx. apply Hc. now right.
    + constructor; [|constructor]. split; [apply Hc; now left|exact Ht].
Qed.

Lemma relay_resume_sound (cfg : config) (texts : list str) (text : str)
      (pt : relay_point) (ok : bool) :
  In text texts -> incl (channels_left pt) (target_channels cfg) ->
  (forall pt', fst (relay_resume text pt ok) = Suspended pt' ->
               incl (channels_left pt') (target_channels cfg))
  /\ Forall (delivery_sound cfg texts) (deliveries (snd (relay_resume text pt ok))).
Proof.
  intros Ht Hc. destruct pt as [c rest|rest].
  - rewrite relay_resume_send. cbn [fst snd]. split.
    + intros pt' E. inversion E; subst. exact Hc.
    + destruct ok; constructor.
  - now apply relay_loop_sound.
Qed.

Lemma process_queue_sound (cfg : config) (texts : list str) (g : globals) :
  Forall (fun t => In t texts) (message_queue g) ->
  segment_sound cfg texts (process_queue cfg g).
Proof.
  intros Hq. unfold process_queue. destruct (message_queue g) eqn:E;
    constructor; simpl; rewrite ?E; try assumption; repeat constructor.
Qed.

Lemma process_queue_in_relay_sound (cfg : config) (texts : list str) (msg : str)
      (r : status relay_point * list event) (g : globals) :
  In msg texts ->
  Forall (fun t => In t texts) (message_queue g) ->
  (forall pt, fst r = Suspended pt -> incl (channels_left pt) (target_channels cfg)) ->
  Forall (delivery_sound cfg texts) (deliveries (snd r)) ->
  segment_sound cfg texts (process_queue_in_relay cfg msg r g).
Proof.
  intros Hm Hq Hpt Hev. unfold process_queue_in_relay.
  destruct (fst r) as [pt| |] eqn:E.
  - constructor; simpl; try assumption. constructor; [|constructor].
    split; [assumption|now apply Hpt].
  - destruct (process_queue_sound cfg texts g Hq) as [S1 S2 S3].
    constructor; cbn [add_events seg_globals seg_self seg_created seg_events];
      try assumption.
    rewrite deliveries_app. apply Forall_app. now split.
  - constructor; simpl; try assumption. constructor.
Qed.

Lemma handler_in_relay_sound (cfg : config) (texts : list str) (parsed : str)
      (cur : time) (r : status relay_point * list event) (g : globals) :
  In parsed texts ->
  Forall (fun t => In t texts) (message_queue g) ->
  (forall pt, fst r = Suspended pt -> incl (channels_left pt) (target_channels cfg)) ->
  Forall (delivery_sound cfg texts) (deliveries (snd r)) ->
  segment_sound cfg texts (handler_in_relay parsed cur r g).
Proof.
  intros Hm Hq Hpt Hev. unfold handler_in_relay.
  destruct (fst r) as [pt| |] eqn:E.
  - constructor; simpl; try assumption. constructor; [|constructor].
    split; [assumption|now apply Hpt].
  - constructor; cbn [add_events handler_after_relay seg_globals seg_self
                                 seg_created seg_events option_list app
                                 message_queue];
      try assumption.
    + repeat constructor.
    + rewrite deliveries_app. simpl. now rewrite app_nil_r.
  - constructor; simpl; try assumption; [constructor|].
    rewrite deliveries_app. simpl. now rewrite app_nil_r.
Qed.

Lemma forward_to_targets_sound (cfg : config) (texts : list str) (text : str) :
  In text texts ->
  (forall pt, fst (forward_to_targets cfg text) = Suspended pt ->
              incl (channels_left pt) (target_channels cfg))
  /\ Forall (delivery_sound cfg texts)
            (deliveries (snd (forward_to_targets cfg text))).
Proof.
  intros Ht. unfold forward_to_targets. cbv zeta. cbn [fst snd].
  change (deliveries (Forward text :: ?l)) with (deliveries l).
  apply relay_loop_sound; [assumption|apply incl_refl].
Qed.

Lemma resume_sound (cfg : config) (texts : list str) (t : task) (ok : bool)
      (g : globals) :
  Forall (fun x => In x texts) (message_queue g) -> task_sound cfg texts t ->
  segment_sound cfg texts (resume cfg t ok g).
Proof.
  intros Hq Ht. destruct t as [parsed cur pt| | |msg pt]; cbn [resume].
  - destruct Ht as [H1 H2].
    destruct (relay_resume_sound cfg texts parsed pt ok H1 H2).
    now apply handler_in_relay_sound.
  - now apply process_queue_sound.
  - unfold process_queue_wake. destruct (message_queue g) as [|m q] eqn:E.
    + constructor; simpl; rewrite ?E; constructor.
    + inversion Hq; subst.
      destruct (forward_to_targets_sound cfg texts m); [assumption|].
      now apply process_queue_in_relay_sound.
  - destruct Ht as [H1 H2].
    destruct (relay_resume_sound cfg texts msg pt ok H1 H2).
    now apply process_queue_in_relay_sound.
Qed.

Lemma sound_more (cfg : config) (texts more : list str) (s : system) :
  sound cfg texts s -> sound cfg (texts ++ more) s.
Proof.
  assert (Hin : forall x, In x texts -> In x (texts ++ more))
    by (intros; apply in_or_app; now left).
  intros [S1 S2 S3]. constructor.
  - eapply Forall_impl; [|exact S1]. exact Hin.
  - eapply Forall_impl; [|exact S2].
    intros [? ? ?| | |? ?]; simpl; trivial; intros [? ?]; split; auto.
  - eapply Forall_impl; [|exact S3]. intros ct [? ?]. split; auto.
Qed.

Lemma handler_sound (cfg : config) (texts : list str) (message : option str)
      (now : time) (g : globals) :
  Forall (fun x => In x (texts ++ option_list (accepted message))) (message_queue g) ->
  segment_sound cfg (texts ++ option_list (accepted message))
                (handler cfg message now g).
Proof.
  intros Hq. unfold handler, accepted in *. cbv zeta in *.
  destruct (has_hyperlink _);
    [constructor; simpl; try assumption; constructor|].
  destruct (parse_and_format_message _) as [[|c parsed]|];
    try (constructor; simpl; try assumption; constructor).
  assert (Hp : In (c :: parsed) (texts ++ option_list (Some (c :: parsed))))
    by (apply in_or_app; right; now left).
  destruct (immediate_slot cfg g now).
  - destruct (forward_to_targets_sound cfg _ (c :: parsed) Hp).
    now apply handler_in_relay_sound.
  - constructor; simpl; try constructor.
    apply Forall_app. split; [assumption|now repeat constructor].
Qed.

Lemma sound_step (cfg : config) (texts : list str) (s : system) (a : action) :
  sound cfg texts s -> sound cfg (texts ++ enqueued [a]) (step cfg s a).
Proof.
  intros Hs. destruct a as [message now|i ok]; cbn [step];
    unfold enqueued; cbn [flat_map]; rewrite app_nil_r.
  - destruct (sound_more cfg texts (option_list (accepted message)) s Hs)
      as [S1 S2 S3].
    destruct (handler_sound cfg texts message now (shared s) S1) as [H1 H2 H3].
    constructor; cbn [shared tasks trace]; [assumption| |].
    + apply Forall_app. now split.
    + rewrite all_events_app, all_events_tag, deliveries_app.
      apply Forall_app. now split.
  - rewrite ?app_nil_r. destruct (nth_error (tasks s) i) as [t|] eqn:Et;
      [|assumption].
    destruct Hs as [S1 S2 S3].
    pose proof (nth_error_parts _ _ _ Et) as Ep.
    assert (St : task_sound cfg texts t).
    { rewrite Forall_forall in S2. apply S2. rewrite Ep.
      apply in_or_app. right. now left. }
    destruct (resume_sound cfg texts t ok (shared s) S1 St) as [H1 H2 H3].
    apply Forall_app in H2. destruct H2 as [H2 H2'].
    rewrite Ep in S2. apply Forall_app in S2. destruct S2 as [S2 S2'].
    inversion S2'; subst.
    constructor; cbn [shared tasks trace]; [assumption| |].
    + repeat (apply Forall_app; split); assumption.
    + rewrite all_events_app, all_events_tag, deliveries_app.
      apply Forall_app. now split.
Qed.

Lemma sound_run (cfg : config) (acts : list action) :
  forall (texts : list str) (s : system),
    sound cfg texts s -> sound cfg (texts ++ enqueued acts) (run cfg s acts).
Proof.
  induction acts as [|a acts IH]; intros texts s Hs.
  - unfold enqueued. simpl. now rewrite app_nil_r.
  - rewrite run_cons. change (a :: acts) with ([a] ++ acts).
    rewrite enqueued_app, app_assoc. now apply IH, sound_step.
Qed.

Lemma enqueued_accepted (acts : list action) (t : str) :
  In t (enqueued acts) ->
  exists message now, In (New_message message now) acts /\ accepted message = Some t.
Proof.
  unfold enqueued. rewrite in_flat_map. intros ([message now|i ok] & Ha & Ht).
  - exists message, now. split; [assumption|].
    destruct (accepted message); simpl in Ht; [|contradiction].
    destruct Ht as [->|[]]. reflexivity.
  - destruct Ht.
Qed.

Lemma accepted_clean (message : option str) (t : str) :
  accepted message = Some t -> has_hyperlink t = false.
Proof.
  unfold accepted. cbv zeta. destruct (has_hyperlink _); [discriminate|].
  destruct (parse_and_format_message _) as [[|c p]|] eqn:E; try discriminate.
  intros H. inversion H; subst. now apply (parsed_output_clean _ _ E).
Qed.

(** X8: after any schedule, every send that was issued went to a channel
    of the configuration, with the text the parser made of a message of
    the schedule that the handler accepted; such a text holds no hyperlink
    marker. *)
Theorem only_accepted_texts_sent (cfg : config) (acts : list action)
        (c : channel) (t : str) :
  In (c, t) (deliveries (all_events (trace (run cfg initial_system acts)))) ->
  In c (target_channels cfg)
  /\ (exists message now,
         In (New_message message now) acts /\ accepted message = Some t)
  /\ has_hyperlink t = false.
Proof.
  intros Hin.
  destruct (sound_run cfg acts [] initial_system) as [_ _ S3].
  { constructor; constructor. }
  rewrite Forall_forall in S3. destruct (S3 _ Hin) as [Hc Ht]. simpl in Hc, Ht.
  destruct (enqueued_accepted _ _ Ht) as (message & now & Ha & Hm).
  split; [assumption|]. split; [now exists message, now|].
  now apply accepted_clean with message.
Qed.

Lemma only_accepted_texts_sent_witness :
  let cfg := mkConfig [1%Z; 2%Z] 120 60 in
  let acts := [New_message (Some sample_input) (seconds 1000); Resume 0 false;
               Resume 0 true] in
  In 2%Z (target_channels cfg)
  /\ (exists message now,
         In (New_message message now) acts /\ accepted message = Some sample_output)
  /\ has_hyperlink sample_output = false.
Proof.
  intros cfg acts. apply (only_accepted_texts_sent cfg acts 2%Z sample_output).
  vm_compute. right. left. reflexivity.
Defined.

(** ** The limit lasts only as long as a drain loop *)

Lemma handler_immediate_forwards (cfg : config) (raw parsed : str) (now : time)
      (g : globals) :
  has_hyperlink raw = false -> parse_and_format_message raw = Some parsed ->
  immediate_slot cfg g now = true ->
  forwards (seg_events (handler cfg (Some raw) now g)) = [parsed]
  /\ message_queue (seg_globals (handler cfg (Some raw) now g)) = message_queue g.
Proof.
  intros Hl Hp Hs. rewrite (handler_accepted cfg raw parsed now g Hl Hp), Hs.
  destruct (handler_in_relay_ledger parsed now (forward_to_targets cfg parsed) g)
    as [-> ->].
  - unfold forward_to_targets. cbv zeta. cbn [fst]. apply relay_loop_quiet.
  - now rewrite forward_to_targets_forwards.
Qed.

(** X10: when a message takes an immediate slot while the queue is empty,
    and its relay and the drain loop it creates have run, [is_forwarding]
    is false again: the next accepted message is relayed at once, however
    soon it comes. *)
Theorem limit_ends_with_empty_queue (cfg : config) (g : globals)
        (raw parsed : str) (now : time) (outcomes : list bool) :
  has_hyperlink raw = false ->
  parse_and_format_message raw = Some parsed ->
  length outcomes = length (target_channels cfg) ->
  immediate_slot cfg g now = true ->
  message_queue g = [] ->
  let s := run cfg (mkSystem g [] [])
               (New_message (Some raw) now
                :: map (Resume 0) (answers outcomes) ++ [Resume 0 true]) in
  shared s = mkGlobals [] false now
  /\ tasks s = []
  /\ forall (raw' parsed' : str) (now' : time),
      has_hyperlink raw' = false ->
      parse_and_format_message raw' = Some parsed' ->
      forwards (seg_events (handler cfg (Some raw') now' (shared s))) = [parsed']
      /\ message_queue (seg_globals (handler cfg (Some raw') now' (shared s))) = [].
Proof.
  intros Hl Hp Hlen Hs Hq. cbv zeta.
  change (New_message (Some raw) now
          :: map (Resume 0) (answers outcomes) ++ [Resume 0 true])
    with ((New_message (Some raw) now :: map (Resume 0) (answers outcomes))
          ++ [Resume 0 true]).
  rewrite run_app, (run_cons cfg (mkSystem g [] [])).
  cbn [step shared tasks trace app].
  rewrite (handler_accepted cfg raw parsed now g Hl Hp), Hs.
  rewrite (handler_immediate_run cfg parsed now g outcomes Hlen), Hq.
  cbn. split; [reflexivity|]. split; [reflexivity|].
  intros raw' parsed' now' Hl' Hp'.
  now apply handler_immediate_forwards.
Qed.

Lemma limit_ends_with_empty_queue_witness :
  let cfg := mkConfig [1%Z; 2%Z] 120 60 in
  let s := run cfg initial_system
               (New_message (Some sample_input) (seconds 1000)
                :: map (Resume 0) (answers [true; false]) ++ [Resume 0 true]) in
  shared s = mkGlobals [] false (seconds 1000) /\ tasks s = [].
Proof.
  intros cfg s.
  destruct (limit_ends_with_empty_queue cfg initial_globals sample_input
              sample_output (seconds 1000) [true; false])
    as (H1 & H2 & _); try (vm_compute; reflexivity).
  exact (conj H1 H2).
Defined.

(** ** Two messages in a row *)

(** One resumption of one of the two handlers. *)
Lemma two_relays_step (cfg : config) (g : globals) (p1 p2 : str) (t1 t2 : time)
      (s : system) (i : nat) (ok : bool) (p : str) (t : time) (pt : relay_point) :
  two_relays g p1 t1 p2 t2 s ->
  nth_error (tasks s) i = Some (Handler_relay p t pt) ->
  two_relays g p1 t1 p2 t2 (step cfg s (Resume i ok)).
Proof.
  assert (Hq : forall text q k (tr : list (origin * event)),
             forwards (all_events tr) = [p1; p2] ->
             forwards (all_events
                         (tr ++ tag By_handler (snd (relay_resume text q k))))
             = [p1; p2]).
  { intros text q k tr H.
    rewrite all_events_app, all_events_tag, forwards_app, H.
    now rewrite (proj2 (relay_resume_quiet text q k)). }
  assert (Hc : forall (tr : list (origin * event)),
             forwards (all_events tr) = [p1; p2] ->
             forwards (all_events (tr ++ tag By_handler [Create_task]))
             = [p1; p2]).
  { intros tr H. rewrite all_events_app, all_events_tag, forwards_app, H.
    reflexivity. }
  intros Hs Hi.
  destruct Hs as [pt1 pt2 tr Hf|pt2 tr Hf|pt1 tr Hf|t' tr Ht Hf];
    cbn [tasks] in Hi.
  - destruct i as [|[|i]]; [| |destruct i; discriminate]; cbn in Hi.
    + destruct pt1 as [c rest|[|c rest]]; [destruct ok| |]; cbn;
        rewrite ?app_nil_r; constructor;
        first [ exact (Hq p1 (In_send c rest) true tr Hf)
              | exact (Hq p1 (In_send c rest) false tr Hf)
              | exact (Hq p1 (In_pause (c :: rest)) ok tr Hf)
              | exact (Hc tr Hf) ].
    + destruct pt2 as [c rest|[|c rest]]; [destruct ok| |]; cbn;
        rewrite ?app_nil_r; constructor;
        first [ exact (Hq p2 (In_send c rest) true tr Hf)
              | exact (Hq p2 (In_send c rest) false tr Hf)
              | exact (Hq p2 (In_pause (c :: rest)) ok tr Hf)
              | exact (Hc tr Hf) ].
  - destruct i as [|[|i]]; [|discriminate|destruct i; discriminate]; cbn in Hi.
    destruct pt2 as [c rest|[|c rest]]; [destruct ok| |]; cbn;
      rewrite ?app_nil_r; constructor;
      first [ exact (Hq p2 (In_send c rest) true tr Hf)
            | exact (Hq p2 (In_send c rest) false tr Hf)
            | exact (Hq p2 (In_pause (c :: rest)) ok tr Hf)
            | exact (Hc tr Hf)
            | now right ].
  - destruct i as [|[|i]]; [|discriminate|destruct i; discriminate]; cbn in Hi.
    destruct pt1 as [c rest|[|c rest]]; [destruct ok| |]; cbn;
      rewrite ?app_nil_r; constructor;
      first [ exact (Hq p1 (In_send c rest) true tr Hf)
            | exact (Hq p1 (In_send c rest) false tr Hf)
            | exact (Hq p1 (In_pause (c :: rest)) ok tr Hf)
            | exact (Hc tr Hf)
            | now left ].
  - destruct i as [|[|i]]; try discriminate. destruct i; discriminate.
Qed.

Lemma two_relays_run (cfg : config) (g : globals) (p1 p2 : str) (t1 t2 : time)
      (acts : list action) :
  forall s : system,
    two_relays g p1 t1 p2 t2 s ->
    resumes_handlers cfg s acts = true ->
    two_relays g p1 t1 p2 t2 (run cfg s acts).
Proof.
  induction acts as [|a acts IH]; intros s Hs Hr; [exact Hs|].
  destruct a as [message now|i ok]; [discriminate|].
  cbn [resumes_handlers] in Hr. rewrite run_cons.
  destruct (nth_error (tasks s) i) as [[p t pt| | |]|] eqn:Hi; try discriminate.
  apply IH; [|exact Hr]. now apply (two_relays_step cfg g p1 p2 t1 t2 s i ok p t pt).
Qed.

(** X9: the slot is not taken while a relay is under way.  When a message
    comes while [is_forwarding] is false and a second one comes before the
    relay of the first has returned, both are relayed at once, whatever the
    times are.  However the resumptions of the two relays follow each
    other, the shared state is as it was as long as neither relay has
    returned; and when both have returned, two drain loops have been
    created, [is_forwarding] is true and [last_forward_time] is the time
    of one of the two messages. *)
Theorem two_messages_in_a_row (cfg : config) (g : globals)
        (raw1 parsed1 raw2 parsed2 : str) (t1 t2 : time) (acts : list action) :
  has_hyperlink raw1 = false -> parse_and_format_message raw1 = Some parsed1 ->
  has_hyperlink raw2 = false -> parse_and_format_message raw2 = Some parsed2 ->
  is_forwarding g = false ->
  target_channels cfg <> [] ->
  let both := run cfg (mkSystem g [] [])
                  [New_message (Some raw1) t1; New_message (Some raw2) t2] in
  resumes_handlers cfg both acts = true ->
  let s := run cfg both acts in
  shared both = g
  /\ forwards (all_events (trace s)) = [parsed1; parsed2]
  /\ message_queue (shared s) = message_queue g
  /\ (drain_loops s = 0%nat -> shared s = g)
  /\ (drain_loops s <> 0%nat ->
      is_forwarding (shared s) = true
      /\ (last_forward_time (shared s) = t1 \/ last_forward_time (shared s) = t2))
  /\ (forallb is_drain (tasks s) = true ->
      tasks s = [Drain_created; Drain_created]).
Proof.
  intros Hl1 Hp1 Hl2 Hp2 Hf Hne.
  assert (Hs : forall now, immediate_slot cfg g now = true)
    by (intros now; unfold immediate_slot; now rewrite Hf).
  destruct (target_channels cfg) as [|c rest] eqn:Ec; [congruence|].
  assert (Hh : forall raw parsed now,
             has_hyperlink raw = false -> parse_and_format_message raw = Some parsed ->
             handler cfg (Some raw) now g
             = mkSegment g (Some (Handler_relay parsed now (In_send c rest))) []
                         [Forward parsed; Send c parsed]).
  { intros raw parsed now Hl Hp.
    rewrite (handler_accepted cfg raw parsed now g Hl Hp), Hs.
    unfold handler_in_relay, forward_to_targets. cbv zeta. now rewrite Ec. }
  assert (E2 : run cfg (mkSystem g [] [])
                   [New_message (Some raw1) t1; New_message (Some raw2) t2]
               = mkSystem g [Handler_relay parsed1 t1 (In_send c rest);
                             Handler_relay parsed2 t2 (In_send c rest)]
                          (tag By_handler [Forward parsed1; Send c parsed1]
                           ++ tag By_handler [Forward parsed2; Send c parsed2])).
  { rewrite !run_cons. cbn [run fold_left step shared tasks trace].
    rewrite (Hh raw1 parsed1 t1 Hl1 Hp1).
    cbn [seg_globals seg_self seg_created seg_events option_list app].
    now rewrite (Hh raw2 parsed2 t2 Hl2 Hp2). }
  cbv zeta. rewrite E2. intros Hr.
  assert (Hinv : two_relays g parsed1 t1 parsed2 t2
                            (mkSystem g [Handler_relay parsed1 t1 (In_send c rest);
                                         Handler_relay parsed2 t2 (In_send c rest)]
                                      (tag By_handler [Forward parsed1; Send c parsed1]
                                       ++ tag By_handler [Forward parsed2; Send c parsed2])))
    by now constructor.
  apply (two_relays_run cfg g parsed1 parsed2 t1 t2 acts _) in Hinv; [|exact Hr].
  split; [reflexivity|].
  destruct Hinv as [pt1 pt2 tr Hfw|pt2 tr Hfw|pt1 tr Hfw|t' tr Ht Hfw];
    unfold drain_loops; cbn [shared tasks trace message_queue is_forwarding
                                    last_forward_time filter is_drain length
                                    forallb andb];
    repeat split; try assumption; try reflexivity; try discriminate;
    try congruence; try (now left); try (now right).
Qed.

Lemma two_messages_in_a_row_witness :
  let cfg := mkConfig [1%Z] 120 60 in
  let both := run cfg initial_system
                  [New_message (Some sample_input) (seconds 1000);
                   New_message (Some (amount_input (lit "5"))) (seconds 1001)] in
  let done := run cfg both
                  [Resume 0 false; Resume 1 true; Resume 1 true; Resume 0 true] in
  forwards (all_events (trace done)) = [sample_output; amount_output (lit "5")]
  /\ tasks done = [Drain_created; Drain_created]
  /\ is_forwarding (shared done) = true
  /\ last_forward_time (shared done) = seconds 1000.
Proof.
  intros cfg both done.
  destruct (two_messages_in_a_row cfg initial_globals sample_input sample_output
              (amount_input (lit "5")) (amount_output (lit "5"))
              (seconds 1000) (seconds 1001)
              [Resume 0 false; Resume 1 true; Resume 1 true; Resume 0 true])
    as (_ & H2 & _ & _ & H5 & H6); try (vm_compute; reflexivity).
  - discriminate.
  - split; [exact H2|]. split; [apply H6; vm_compute; reflexivity|].
    split; [apply H5; vm_compute; discriminate|].
    vm_compute. reflexivity.
Defined.

(** ** A drain loop on its own never pops from an empty queue *)

Lemma no_index_error_app (a b : list event) :
  no_index_error (a ++ b) = no_index_error a && no_index_error b.
Proof. apply forallb_app. Qed.

Lemma relay_loop_no_error (text : str) (chs : list channel) :
  no_index_error (snd (relay_loop text chs)) = true.
Proof. now destruct chs. Qed.

Lemma relay_resume_no_error (text : str) (pt : relay_point) (ok : bool) :
  no_index_error (snd (relay_resume text pt ok)) = true.
Proof. destruct pt as [c rest|rest]; [now destruct ok|apply relay_loop_no_error]. Qed.

Lemma process_queue_no_error (cfg : config) (g : globals) :
  no_index_error (seg_events (process_queue cfg g)) = true.
Proof. unfold process_queue. now destruct (message_queue g). Qed.

Lemma process_queue_in_relay_no_error (cfg : config) (msg : str)
      (r : status relay_point * list event) (g : globals) :
  no_index_error (snd r) = true ->
  no_index_error (seg_events (process_queue_in_relay cfg msg r g)) = true.
Proof.
  intros Hr. unfold process_queue_in_relay. destruct (fst r); try assumption.
  cbn [add_events seg_events].
  now rewrite no_index_error_app, Hr, process_queue_no_error.
Qed.

Lemma resume_no_error (cfg : config) (g : globals) (d : list event) (t : task)
      (ok : bool) :
  drain_state cfg g d [t] ->
  no_index_error (seg_events (resume cfg t ok g)) = true.
Proof.
  intros Hs. inversion Hs as [| Hf | d' Hf Hq Hd | m pt Hf]; subst; cbn [resume].
  - apply process_queue_no_error.
  - unfold process_queue_wake. destruct (message_queue g) as [|m q]; [congruence|].
    apply process_queue_in_relay_no_error. unfold forward_to_targets. cbv zeta.
    cbn [snd no_index_error forallb]. apply relay_loop_no_error.
  - apply process_queue_in_relay_no_error, relay_resume_no_error.
Qed.

Lemma episode_no_error (cfg : config) (t0 : time) (acts : list action) :
  forall (s0 s : system) (rs : list str),
    episode_inv cfg t0 rs s0 ->
    no_index_error (events_of By_drain (trace s0)) = true ->
    episode cfg t0 s0 acts = Some s ->
    no_index_error (events_of By_drain (trace s)) = true.
Proof.
  induction acts as [|a acts IH]; intros s0 s rs Hinv Hno He; simpl in He.
  - now inversion He; subst.
  - destruct (tasks s0) as [|t ts] eqn:Et; [discriminate|].
    destruct (in_window cfg t0 a) eqn:Hw; [|discriminate].
    assert (Hne : tasks s0 <> []) by (rewrite Et; discriminate).
    destruct a as [message now|i ok].
    + apply (IH (step cfg s0 (New_message message now)) s
                (rs ++ option_list (accepted message)));
        [now apply inv_message| |assumption].
      cbn [step trace]. now rewrite events_of_app, events_of_drain_tag_handler, app_nil_r.
    + apply (IH (step cfg s0 (Resume i ok)) s rs);
        [now apply inv_resume| |assumption].
      destruct Hinv as [_ _ _ _ I4].
      destruct (drain_state_alive _ _ _ _ I4 Hne) as (t' & Et' & Ho & _).
      rewrite Et' in I4. cbn [step]. rewrite Et'.
      destruct i as [|i].
      * cbn [nth_error trace]. rewrite Ho, events_of_app, events_of_drain_tag_drain.
        rewrite no_index_error_app, Hno. simpl. now apply resume_no_error with (d := events_of By_drain (trace s0)).
      * replace (nth_error [t'] (S i)) with (@None task) by (now destruct i).
        assumption.
Qed.

(** X11: in an episode where the drain loop is the only task, it never
    pops from the empty queue: its events hold no [IndexError]. *)
Theorem lone_drain_loop_never_fails (cfg : config) (q0 : list str) (t0 : time)
        (acts : list action) (s : system) :
  episode cfg t0 (episode_start q0 t0) acts = Some s ->
  ~ In Index_error (events_of By_drain (trace s)).
Proof.
  intros He Hin.
  pose proof (episode_no_error cfg t0 acts _ s q0 (inv_start cfg q0 t0) eq_refl He)
    as Hno.
  unfold no_index_error in Hno. rewrite forallb_forall in Hno.
  now specialize (Hno _ Hin).
Qed.

Lemma lone_drain_loop_never_fails_witness :
  let cfg := mkConfig [1%Z] 120 60 in
  let acts := [Resume 0 true; Resume 0 true; Resume 0 false; Resume 0 true] in
  ~ In Index_error
      (events_of By_drain
         (trace (run cfg (episode_start [sample_output] (seconds 1000)) acts))).
Proof.
  intros cfg acts.
  apply (lone_drain_loop_never_fails cfg [sample_output] (seconds 1000) acts).
  vm_compute. reflexivity.
Defined.

(** * The settings read at start *)

Lemma bind_ok {A B : Type} (c : Startup.action A) (k : A -> Startup.action B)
      (b : B) :
  fst (Startup.bind c k) = Startup.Ok b
  <-> exists a, fst c = Startup.Ok a /\ fst (k a) = Startup.Ok b.
Proof.
  unfold Startup.bind. destruct (fst c) as [a|e]; cbn [fst].
  - split; [intros H; now exists a|]. intros (a' & E & H). now inversion E; subst.
  - split; [discriminate|]. intros (a' & E & _). discriminate.
Qed.

Lemma bind_quiet {A B : Type} (c : Startup.action A) (k : A -> Startup.action B)
      (a : A) :
  fst c = Startup.Ok a -> snd c = [] -> snd (k a) = [] ->
  snd (Startup.bind c k) = [].
Proof.
  intros E Hc Hk. unfold Startup.bind. rewrite E. cbn [snd]. now rewrite Hc, Hk.
Qed.

Lemma get_env_required_int (env : Startup.environ) (name : str) (v : Startup.value) :
  fst (Startup.get_env env name true false) = Startup.Ok v
  <-> exists s z, env name = Some s /\ Startup.int s = Some z /\ v = Startup.Int z.
Proof.
  unfold Startup.get_env. cbv zeta. destruct (env name) as [s|].
  - destruct (Startup.int s) as [z|] eqn:Ez; cbn [fst].
    + split.
      * intros H. inversion H; subst. now exists s, z.
      * intros (s' & z' & E1 & E2 & ->). inversion E1; subst. congruence.
    + split; [discriminate|]. intros (s' & z' & E1 & E2 & _).
      inversion E1; subst. congruence.
  - split; [discriminate|]. intros (s' & z' & E1 & _). discriminate.
Qed.

Lemma get_env_required_str (env : Startup.environ) (name : str) (v : Startup.value) :
  fst (Startup.get_env env name false false) = Startup.Ok v
  <-> exists s, env name = Some s /\ v = Startup.Str s.
Proof.
  unfold Startup.get_env. cbv zeta. destruct (env name) as [s|]; cbn [fst].
  - split.
    + intros H. inversion H; subst. now exists s.
    + intros (s' & E1 & ->). now inversion E1; subst.
  - split; [discriminate|]. intros (s' & E1 & _). discriminate.
Qed.

Lemma get_env_ok_quiet (env : Startup.environ) (name : str) (is_int optional : bool)
      (v : Startup.value) :
  fst (Startup.get_env env name is_int optional) = Startup.Ok v ->
  snd (Startup.get_env env name is_int optional) = [].
Proof.
  unfold Startup.get_env. cbv zeta.
  destruct (env name) as [s|]; [destruct is_int; [destruct (Startup.int s)|]|];
    destruct optional; cbn [fst snd]; try reflexivity; discriminate.
Qed.

Lemma ints_ok (pieces : list str) :
  (exists zs, fst (Startup.ints pieces) = Startup.Ok zs)
  <-> Forall integer_literal pieces.
Proof.
  unfold integer_literal. induction pieces as [|x rest IH]; cbn [Startup.ints].
  - split; [constructor|]. intros _. now exists [].
  - destruct (Startup.int x) as [z|] eqn:E.
    + split.
      * intros (zs & H). apply bind_ok in H. destruct H as (zs' & H & _).
        constructor; [congruence|]. apply IH. now exists zs'.
      * intros H. inversion H; subst.
        destruct (proj2 IH) as (zs & Hz); [assumption|].
        exists (z :: zs). apply bind_ok. now exists zs.
    + split.
      * intros (zs & H). discriminate.
      * intros H. inversion H; subst. congruence.
Qed.

Lemma ints_length (pieces : list str) (zs : list Z) :
  fst (Startup.ints pieces) = Startup.Ok zs ->
  length zs = length pieces /\ snd (Startup.ints pieces) = [].
Proof.
  revert zs. induction pieces as [|x rest IH]; intros zs; cbn [Startup.ints].
  - intros H. inversion H; subst. now split.
  - destruct (Startup.int x) as [z|]; [|discriminate].
    intros H. pose proof H as H'. apply bind_ok in H. destruct H as (zs' & H1 & H2).
    destruct (IH _ H1) as [L Q]. inversion H2; subst. split; [simpl; now rewrite L|].
    now apply bind_quiet with zs'.
Qed.

Lemma channel_list_ok (env : Startup.environ) (name : str) :
  (exists zs, fst (Startup.channel_list env name) = Startup.Ok zs)
  <-> exists v, env name = Some v /\ Forall integer_literal (split 44 v).
Proof.
  unfold Startup.channel_list. split.
  - intros (zs & H). apply bind_ok in H. destruct H as (v & H1 & H2).
    apply get_env_required_str in H1. destruct H1 as (s & E & ->).
    exists s. split; [assumption|]. apply ints_ok. now exists zs.
  - intros (v & E & H). apply ints_ok in H. destruct H as (zs & H).
    exists zs. apply bind_ok. exists (Startup.Str v). split; [|assumption].
    apply get_env_required_str. now exists v.
Qed.

Lemma channel_list_some (env : Startup.environ) (name : str) (zs : list Z) :
  fst (Startup.channel_list env name) = Startup.Ok zs ->
  zs <> [] /\ snd (Startup.channel_list env name) = [].
Proof.
  unfold Startup.channel_list. intros H. pose proof H as H'.
  apply bind_ok in H. destruct H as (v & H1 & H2).
  pose proof (get_env_ok_quiet _ _ _ _ _ H1) as Q1.
  apply get_env_required_str in H1. destruct H1 as (s & E & ->).
  destruct (ints_length _ _ H2) as [L Q2]. split.
  - intros ->. simpl in L. symmetry in L. apply length_zero_iff_nil in L.
    now apply (split_not_nil 44 s).
  - apply bind_quiet with (Startup.Str s); try assumption.
    apply get_env_required_str. now exists s.
Qed.

(** An optional setting never stops the start. *)
Lemma optional_int_value (env : Startup.environ) (name : str) (default : Z) :
  default <> 0%Z ->
  Startup.optional_int env name default = (Startup.Ok (setting env name default), []).
Proof.
  intros Hd. unfold Startup.optional_int, Startup.get_env, setting. cbv zeta.
  destruct (env name) as [v|]; [destruct (Startup.int v) as [z|]|];
    unfold Startup.bind; cbn [fst snd Startup.truthy];
    try (destruct (Z.eqb_spec z 0)); try reflexivity.
Qed.

Lemma setting_not_zero (env : Startup.environ) (name : str) (default : Z) :
  default <> 0%Z -> setting env name default <> 0%Z.
Proof.
  intros Hd. unfold setting. destruct (env name) as [v|]; [|assumption].
  destruct (Startup.int v) as [z|]; [|assumption].
  now destruct (Z.eqb_spec z 0).
Qed.

(** The settings a start that succeeds gives. *)
Lemma load_config_ok (env : Startup.environ) (st : Startup.settings) :
  fst (Startup.load_config env) = Startup.Ok st
  <-> exists a h b src tgt,
      fst (Startup.get_env env (lit "API_ID") true false) = Startup.Ok a
      /\ fst (Startup.get_env env (lit "API_HASH") false false) = Startup.Ok h
      /\ fst (Startup.get_env env (lit "BOT_TOKEN") false false) = Startup.Ok b
      /\ fst (Startup.channel_list env (lit "SOURCE_CHANNELS")) = Startup.Ok src
      /\ fst (Startup.channel_list env (lit "TARGET_CHANNELS")) = Startup.Ok tgt
      /\ st = Startup.mkSettings a h b src tgt
                (setting env (lit "QUEUE_DELAY") 120)
                (setting env (lit "RATE_LIMIT") 60)
                (setting env (lit "PORT") 8080).
Proof.
  unfold Startup.load_config.
  rewrite !optional_int_value by discriminate.
  split.
  - intros H.
    apply bind_ok in H. destruct H as (a & Ha & H).
    apply bind_ok in H. destruct H as (h & Hh & H).
    apply bind_ok in H. destruct H as (b & Hb & H).
    apply bind_ok in H. destruct H as (src & Hs & H).
    apply bind_ok in H. destruct H as (tgt & Ht & H).
    cbn in H. inversion H; subst. now exists a, h, b, src, tgt.
  - intros (a & h & b & src & tgt & Ha & Hh & Hb & Hs & Ht & ->).
    apply bind_ok. exists a. split; [assumption|].
    apply bind_ok. exists h. split; [assumption|].
    apply bind_ok. exists b. split; [assumption|].
    apply bind_ok. exists src. split; [assumption|].
    apply bind_ok. exists tgt. split; [assumption|]. reflexivity.
Qed.

(** X12: the settings are read exactly when the environment holds the
    three credentials, the first an integer, and the two lists of channels
    with an integer in every place between the commas; the optional
    settings never stand in the way. *)
Theorem startup_succeeds_iff (env : Startup.environ) :
  (exists st, fst (Startup.load_config env) = Startup.Ok st) <-> startup_ready env.
Proof.
  unfold startup_ready, integer_literal. split.
  - intros (st & H). apply load_config_ok in H.
    destruct H as (a & h & b & src & tgt & Ha & Hh & Hb & Hs & Ht & _).
    apply get_env_required_int in Ha. destruct Ha as (s & z & E1 & E2 & _).
    apply get_env_required_str in Hh. destruct Hh as (sh & E3 & _).
    apply get_env_required_str in Hb. destruct Hb as (sb & E4 & _).
    repeat split; try congruence.
    + exists s. split; [assumption|congruence].
    + apply channel_list_ok. now exists src.
    + apply channel_list_ok. now exists tgt.
  - intros ((v & E1 & Hv) & Hh & Hb & Hs & Ht).
    destruct (Startup.int v) as [z|] eqn:Ez; [|congruence].
    destruct (env (lit "API_HASH")) as [sh|] eqn:E3; [|congruence].
    destruct (env (lit "BOT_TOKEN")) as [sb|] eqn:E4; [|congruence].
    apply channel_list_ok in Hs, Ht. destruct Hs as (src & Hs), Ht as (tgt & Ht).
    eexists. apply load_config_ok.
    exists (Startup.Int z), (Startup.Str sh), (Startup.Str sb), src, tgt.
    repeat split; try assumption.
    + apply get_env_required_int. now exists v, z.
    + apply get_env_required_str. now exists sh.
    + apply get_env_required_str. now exists sb.
Qed.

Lemma sample_environ_loaded :
  fst (Startup.load_config sample_environ) = Startup.Ok sample_settings.
Proof. vm_compute. reflexivity. Qed.

Lemma startup_succeeds_iff_witness : startup_ready sample_environ.
Proof.
  apply (proj1 (startup_succeeds_iff sample_environ)).
  exists sample_settings. exact sample_environ_loaded.
Defined.

(** X13: after a start that succeeds, each optional setting is the integer
    of its variable when that is an integer other than zero, and its
    default when the variable is missing, is no integer or is zero; so
    none of the three is ever zero. *)
Theorem optional_settings (env : Startup.environ) (st : Startup.settings) :
  fst (Startup.load_config env) = Startup.Ok st ->
  (Startup.queue_delay st = setting env (lit "QUEUE_DELAY") 120
   /\ Startup.rate_limit st = setting env (lit "RATE_LIMIT") 60
   /\ Startup.port st = setting env (lit "PORT") 8080)
  /\ (Startup.queue_delay st <> 0 /\ Startup.rate_limit st <> 0
      /\ Startup.port st <> 0)%Z.
Proof.
  intros H. apply load_config_ok in H.
  destruct H as (a & h & b & src & tgt & _ & _ & _ & _ & _ & ->).
  cbn [Startup.queue_delay Startup.rate_limit Startup.port].
  repeat split; apply setting_not_zero; discriminate.
Qed.

Lemma optional_settings_witness :
  (Startup.queue_delay sample_settings = setting sample_environ (lit "QUEUE_DELAY") 120
   /\ Startup.rate_limit sample_settings = setting sample_environ (lit "RATE_LIMIT") 60
   /\ Startup.port sample_settings = setting sample_environ (lit "PORT") 8080)
  /\ (Startup.queue_delay sample_settings <> 0
      /\ Startup.rate_limit sample_settings <> 0
      /\ Startup.port sample_settings <> 0)%Z.
Proof.
  apply (optional_settings sample_environ sample_settings).
  exact sample_environ_loaded.
Defined.

(** X14: after a start that succeeds, neither list of channels is empty,
    so every call of the relay issues a send and is suspended in it. *)
Theorem relay_has_a_channel (env : Startup.environ) (st : Startup.settings) :
  fst (Startup.load_config env) = Startup.Ok st ->
  Startup.source_channels st <> []
  /\ Startup.target_channels st <> []
  /\ forall text,
      exists c rest,
        forward_to_targets (config_of st) text
        = (Suspended (In_send c rest), [Forward text; Send c text]).
Proof.
  intros H. apply load_config_ok in H.
  destruct H as (a & h & b & src & tgt & _ & _ & _ & Hs & Ht & ->).
  apply channel_list_some in Hs, Ht. destruct Hs as [Hs _], Ht as [Ht _].
  cbn [Startup.source_channels Startup.target_channels].
  split; [assumption|]. split; [assumption|].
  intros text. unfold forward_to_targets, config_of. cbv zeta.
  cbn [target_channels Startup.target_channels].
  destruct tgt as [|c rest]; [congruence|]. now exists c, rest.
Qed.

Lemma relay_has_a_channel_witness :
  Startup.source_channels sample_settings <> []
  /\ Startup.target_channels sample_settings <> [].
Proof.
  destruct (relay_has_a_channel sample_environ sample_settings sample_environ_loaded)
    as (H1 & H2 & _).
  exact (conj H1 H2).
Defined.

Lemma empty_entry_split (v : str) : empty_entry v -> In [] (split 44 v).
Proof.
  intros [->|[(post & ->)|[(pre & ->)|(pre & post & ->)]]].
  - now left.
  - now left.
  - rewrite split_app_sep. apply in_or_app. right. now left.
  - change ([44; 44] ++ post) with (44 :: 44 :: post).
    rewrite split_app_sep. apply in_or_app. right. now left.
Qed.

(** X15: a list of channels that is empty, or has nothing before its
    first comma, after its last comma or between two commas, stops the
    start. *)
Theorem empty_channel_entry_fatal (env : Startup.environ) (v : str) :
  env (lit "SOURCE_CHANNELS") = Some v \/ env (lit "TARGET_CHANNELS") = Some v ->
  empty_entry v ->
  exists e, fst (Startup.load_config env) = Startup.Raise e.
Proof.
  intros Hv He.
  destruct (fst (Startup.load_config env)) as [st|e] eqn:H; [|now exists e].
  exfalso.
  assert (Hbad : ~ Forall integer_literal (split 44 v)).
  { intros Hall. rewrite Forall_forall in Hall.
    apply (Hall [] (empty_entry_split v He)). reflexivity. }
  apply load_config_ok in H.
  destruct H as (a & h & b & src & tgt & _ & _ & _ & Hs & Ht & _).
  destruct Hv as [Hv|Hv].
  - destruct (proj1 (channel_list_ok env (lit "SOURCE_CHANNELS"))) as (v' & E & Hall);
      [now exists src|]. apply Hbad. congruence.
  - destruct (proj1 (channel_list_ok env (lit "TARGET_CHANNELS"))) as (v' & E & Hall);
      [now exists tgt|]. apply Hbad. congruence.
Qed.

Lemma empty_channel_entry_fatal_witness :
  exists e,
    fst (Startup.load_config
           (Startup.environ_of
              [ (lit "API_ID", lit "12345"); (lit "API_HASH", lit "ab");
                (lit "BOT_TOKEN", lit "t"); (lit "SOURCE_CHANNELS", lit "1,2,");
                (lit "TARGET_CHANNELS", lit "3") ]))
    = Startup.Raise e.
Proof.
  apply (empty_channel_entry_fatal _ (lit "1,2,")).
  - left. vm_compute. reflexivity.
  - right. right. left. exists (lit "1,2"). reflexivity.
Defined.

(** ** A list of channels written and read *)

Lemma digits_value_snoc (ds : str) (d : N) :
  Startup.digits_value (ds ++ [d])
  = (Startup.digits_value ds * 10 + Z.of_N (d - 48))%Z.
Proof. unfold Startup.digits_value. now rewrite fold_left_app. Qed.

Lemma digit09_digit (n : N) : n < 10 -> digit09 (48 + n) = true.
Proof.
  intros H. unfold digit09, in_range. apply andb_true_iff.
  split; apply N.leb_le; lia.
Qed.

Lemma to_digits_spec (fuel : nat) :
  forall n : N,
    n < 10 ^ N.of_nat (S fuel) ->
    to_digits (S fuel) n <> []
    /\ all_in digit09 (to_digits (S fuel) n)
    /\ Startup.digits_value (to_digits (S fuel) n) = Z.of_N n.
Proof.
  induction fuel as [|f IH]; intros n Hn;
    change (to_digits (S ?k) n)
      with (if n <? 10 then [48 + n] else to_digits k (n / 10) ++ [48 + n mod 10]);
    destruct (N.ltb_spec n 10) as [Hs|Hl].
  1, 3: split; [discriminate|split];
    [ apply Forall_cons; [now apply digit09_digit|apply Forall_nil]
    | unfold Startup.digits_value; cbn [fold_left];
      replace (48 + n - 48) with n by lia; lia ].
  - change (10 ^ N.of_nat 1) with 10 in Hn. lia.
  - assert (Hq : n / 10 < 10 ^ N.of_nat (S f)).
    { apply N.Div0.div_lt_upper_bound.
      replace (10 * 10 ^ N.of_nat (S f)) with (10 ^ N.of_nat (S (S f)));
        [assumption|].
      rewrite (Nat2N.inj_succ (S f)), N.pow_succ_r'. reflexivity. }
    destruct (IH _ Hq) as (H1 & H2 & H3). split; [|split].
    + intros E. apply app_eq_nil in E. destruct E. discriminate.
    + apply Forall_app. split; [assumption|].
      constructor; [|constructor]. apply digit09_digit.
      now apply N.mod_lt.
    + rewrite digits_value_snoc, H3.
      rewrite (N.add_comm 48), N.add_sub.
      rewrite (N.Div0.div_mod n 10) at 3.
      generalize (n / 10) (n mod 10). intros q r. lia.
Qed.

Lemma fuel_enough (n : N) : n < 10 ^ N.of_nat (S (N.to_nat (N.log2 n))).
Proof.
  rewrite Nat2N.inj_succ, N2Nat.id.
  apply N.lt_le_trans with (2 ^ N.succ (N.log2 n)).
  - destruct n as [|p]; [reflexivity|]. apply N.log2_spec. reflexivity.
  - apply N.pow_le_mono_l. lia.
Qed.

Lemma digit09_plain (c : N) :
  digit09 c = true ->
  Startup.to_ascii c = c /\ Startup.ascii_space c = false
  /\ (c =? 45) = false /\ (c =? 43) = false /\ (c =? 95) = false /\ c <> 44.
Proof.
  unfold digit09, in_range. intros H. apply andb_true_iff in H.
  destruct H as [H1 H2]. apply N.leb_le in H1, H2.
  unfold Startup.to_ascii, Startup.ascii_space, in_range.
  repeat split.
  - destruct (N.ltb_spec c 127); [reflexivity|lia].
  - apply orb_false_iff. split.
    + apply andb_false_iff. right. apply N.leb_gt. lia.
    + apply N.eqb_neq. lia.
  - apply N.eqb_neq. lia.
  - apply N.eqb_neq. lia.
  - apply N.eqb_neq. lia.
  - lia.
Qed.

Lemma digits_plain (ds : str) :
  all_in digit09 ds ->
  map Startup.to_ascii ds = ds
  /\ Startup.number_body ds = (ds, [])
  /\ Startup.underscores_placed ds = true
  /\ filter digit09 ds = ds.
Proof.
  induction 1 as [|c ds Hc _ (I1 & I2 & I3 & I4)]; [now repeat split|].
  cbv beta in Hc. destruct (digit09_plain c Hc) as (P1 & _ & _ & _ & P5 & _).
  cbn [map Startup.number_body Startup.underscores_placed filter].
  rewrite P1, I1, I2, I3, I4, Hc, P5. now repeat split.
Qed.

(** [int] reads a run of digits, with or without a minus sign in front. *)
Lemma int_digits (ds : str) (negative : bool) :
  ds <> [] -> all_in digit09 ds -> (length ds <= Startup.max_str_digits)%nat ->
  Startup.int ((if negative then [45] else []) ++ ds)
  = Some (if negative then (- Startup.digits_value ds)%Z
          else Startup.digits_value ds).
Proof.
  intros Hne Hall Hlen.
  destruct (digits_plain ds Hall) as (D1 & D2 & D3 & D4).
  assert (Hhead : exists d ds', ds = d :: ds' /\ digit09 d = true).
  { destruct ds as [|d ds']; [congruence|]. exists d, ds'.
    split; [reflexivity|]. inversion Hall; assumption. }
  destruct Hhead as (d & ds' & E & Hd).
  destruct (digit09_plain d Hd) as (P1 & P2 & P3 & P4 & P5 & _).
  assert (Hbody : Startup.body_ok ds = true).
  { rewrite E. unfold Startup.body_ok. rewrite <- E. now rewrite Hd, D3. }
  assert (Hskip : Startup.skip_spaces ds = ds).
  { rewrite E. cbn [Startup.skip_spaces]. now rewrite P2. }
  apply Nat.leb_le in Hlen.
  unfold Startup.int. cbv zeta. rewrite map_app, D1.
  destruct negative.
  - change (map Startup.to_ascii [45] ++ ds) with (45 :: ds).
    change (Startup.skip_spaces (45 :: ds)) with (45 :: ds).
    cbv iota. change (45 =? 45) with true. cbv iota. cbn [fst snd].
    rewrite D2. cbn [fst snd forallb]. now rewrite Hbody, D4, Hlen.
  - change (map Startup.to_ascii [] ++ ds) with ds. rewrite Hskip.
    assert (Hsign : match ds with
                    | c :: t' =>
                        if c =? 45 then (true, t')
                        else if c =? 43 then (false, t') else (false, ds)
                    | [] => (false, [])
                    end = (false, ds))
      by (rewrite E; cbv iota; now rewrite P3, P4).
    rewrite !Hsign. cbn [fst snd].
    rewrite D2. cbn [fst snd forallb]. now rewrite Hbody, D4, Hlen.
Qed.

Lemma show_digits (z : Z) :
  exists ds,
    show z = (if (z <? 0)%Z then [45] else []) ++ ds
    /\ ds <> [] /\ all_in digit09 ds
    /\ Startup.digits_value ds = Z.abs z.
Proof.
  unfold show. cbv zeta.
  destruct (to_digits_spec _ _ (fuel_enough (Z.abs_N z))) as (H1 & H2 & H3).
  eexists. split; [reflexivity|]. repeat split; try assumption.
  rewrite H3. apply N2Z.inj_abs_N.
Qed.

Lemma int_show (z : Z) :
  (length (show z) <= Startup.max_str_digits)%nat -> Startup.int (show z) = Some z.
Proof.
  intros Hlen. destruct (show_digits z) as (ds & E & H1 & H2 & H3).
  rewrite E in Hlen |- *. rewrite length_app in Hlen.
  rewrite int_digits by (try assumption; lia). rewrite H3. f_equal.
  destruct (Z.ltb_spec z 0); lia.
Qed.

Lemma show_no_comma (z : Z) : ~ In 44 (show z).
Proof.
  destruct (show_digits z) as (ds & -> & _ & H2 & _). intros H.
  apply in_app_or in H. destruct H as [H|H].
  - destruct (z <? 0)%Z; [destruct H as [H|[]]; discriminate|destruct H].
  - revert H. now apply all_in_not_In with digit09.
Qed.

Lemma split_join (pieces : list str) :
  pieces <> [] -> Forall (fun p => ~ In 44 p) pieces ->
  split 44 (join pieces) = pieces.
Proof.
  induction pieces as [|p rest IH]; [congruence|]. intros _ Hall.
  inversion Hall as [|? ? Hp Hrest]; subst. cbn [join].
  destruct rest as [|q rest'].
  - now apply split_no_sep.
  - rewrite split_at_sep by assumption. f_equal. now apply IH.
Qed.

Lemma ints_show (zs : list Z) :
  Forall (fun z => (length (show z) <= Startup.max_str_digits)%nat) zs ->
  Startup.ints (map show zs) = (Startup.Ok zs, []).
Proof.
  induction 1 as [|z zs Hz _ IH]; [reflexivity|].
  cbn [map Startup.ints]. rewrite (int_show z Hz), IH. reflexivity.
Qed.

(** X16: integers written in decimal, with commas between them, are read
    back as the list they were, as long as none has more digits than [int]
    converts. *)
Theorem channel_list_round_trip (env : Startup.environ) (name : str)
        (zs : list Z) :
  zs <> [] ->
  Forall (fun z => (length (show z) <= Startup.max_str_digits)%nat) zs ->
  env name = Some (join (map show zs)) ->
  Startup.channel_list env name = (Startup.Ok zs, []).
Proof.
  intros Hne Hlen He. unfold Startup.channel_list, Startup.get_env. cbv zeta.
  rewrite He. unfold Startup.bind. cbn [fst snd app].
  rewrite split_join.
  - now rewrite (ints_show zs Hlen).
  - destruct zs; [congruence|discriminate].
  - apply Forall_forall. intros p Hp. apply in_map_iff in Hp.
    destruct Hp as (z & <- & _). apply show_no_comma.
Qed.

Lemma channel_list_round_trip_witness :
  Startup.channel_list
    (Startup.environ_of [(lit "TARGET_CHANNELS", lit "-1001234567890,42,0")])
    (lit "TARGET_CHANNELS")
  = (Startup.Ok [(-1001234567890)%Z; 42%Z; 0%Z], []).
Proof.
  apply channel_list_round_trip.
  - discriminate.
  - repeat (constructor; [apply Nat.leb_le; vm_compute; reflexivity|]).
    constructor.
  - vm_compute. reflexivity.
Defined.

(** * More of the relay and of the tags *)

Lemma slept_app (a b : list event) : slept (a ++ b) = (slept a + slept b)%Z.
Proof.
  induction a as [|e a IH]; [reflexivity|]. simpl. destruct e; rewrite ?IH; lia.
Qed.

Lemma slept_attempts (text : str) (chs : list channel) :
  forall outcomes : list bool,
    length outcomes = length chs ->
    slept (flat_map (fun co => attempt text (fst co) (snd co)) (combine chs outcomes))
    = (Z.of_nat (length chs) + Z.of_nat (length (filter negb outcomes)))%Z.
Proof.
  induction chs as [|c chs IH]; intros [|ok os] Hlen; try discriminate;
    [reflexivity|].
  simpl in Hlen. injection Hlen as Hlen.
  cbn [combine flat_map fst snd]. rewrite slept_app, (IH os Hlen).
  destruct ok; cbn [attempt slept fold_right filter negb length]; lia.
Qed.

(** X17: one call of the relay sleeps one second for every channel and
    one more for every send that failed, whatever the order of the
    failures. *)
Theorem relay_sleeps (cfg : config) (text : str) (outcomes : list bool) :
  length outcomes = length (target_channels cfg) ->
  let start := forward_to_targets cfg text in
  let finish := relay_run text (fst start) (answers outcomes) in
  slept (snd start ++ snd finish)
  = (Z.of_nat (length (target_channels cfg))
     + Z.of_nat (length (filter negb outcomes)))%Z.
Proof.
  intros Hlen start finish.
  assert (E : snd start ++ snd finish
              = Forward text
                :: flat_map (fun co => attempt text (fst co) (snd co))
                            (combine (target_channels cfg) outcomes)).
  { unfold finish, start. rewrite (relay_run_complete cfg text outcomes Hlen).
    unfold forward_to_targets. cbv zeta. cbn [fst snd].
    destruct (target_channels cfg) as [|c rest]; [reflexivity|].
    destruct outcomes as [|ok os]; [discriminate|].
    cbn [relay_loop snd combine flat_map fst]. unfold attempt at 1 3.
    reflexivity. }
  rewrite E. change (slept (Forward text :: ?l)) with (slept l).
  now apply slept_attempts.
Qed.

Lemma relay_sleeps_witness :
  let cfg := mkConfig [1%Z; 2%Z; 3%Z] 120 60 in
  let start := forward_to_targets cfg sample_output in
  let finish := relay_run sample_output (fst start) (answers [true; false; false]) in
  slept (snd start ++ snd finish) = 5%Z.
Proof.
  apply (relay_sleeps (mkConfig [1%Z; 2%Z; 3%Z] 120 60) sample_output
                      [true; false; false]).
  reflexivity.
Defined.

(** ** A tag is invisible *)

Lemma re_sub_from_skip (r : regex) (w rest : str) :
  re_sub_from r (length w) (w ++ rest) = re_sub_from r O rest.
Proof. induction w as [|c w IH]; [reflexivity|]. simpl. exact IH. Qed.

Lemma tag_matched (body rest : str) :
  body <> [] -> all_in not_gt body ->
  first_match tag_re (LT :: body ++ GT :: rest) = Some ([], rest).
Proof.
  intros Hne Hall. unfold tag_re.
  change ([] : list str) with ([] ++ [] ++ [] : list str).
  apply first_cat with (s1 := body ++ GT :: rest); [apply first_chr|].
  apply first_cat with (s1 := GT :: rest); [|apply first_chr].
  apply first_plus; [assumption|assumption|reflexivity].
Qed.

Lemma re_sub_tag (body rest : str) :
  body <> [] -> all_in not_gt body ->
  re_sub tag_re (tag_text body ++ rest) = re_sub tag_re rest.
Proof.
  intros Hne Hall. unfold re_sub, tag_text.
  replace (([LT] ++ body ++ [GT]) ++ rest) with (LT :: body ++ GT :: rest)
    by (simpl; now rewrite <- app_assoc).
  pose proof (tag_matched body rest Hne Hall) as Hm. unfold first_match in Hm.
  cbn [re_sub_from]. destruct (matches tag_re (LT :: body ++ GT :: rest))
    as [|m ms]; [discriminate|].
  simpl in Hm. inversion Hm; subst. cbn [snd].
  replace (length (LT :: body ++ GT :: rest) - length rest)%nat
    with (S (length (body ++ [GT]))).
  2:{ cbn [length]. rewrite !length_app. cbn [length]. lia. }
  replace (body ++ GT :: rest) with ((body ++ [GT]) ++ rest)
    by now rewrite <- app_assoc.
  apply re_sub_from_skip.
Qed.

(** X18: the first tag of a text is invisible to the parser: a text with
    a tag after a part that holds no opening bracket is parsed as the text
    without the tag. *)
Theorem first_tag_invisible (before body after : str) :
  ~ In LT before -> body <> [] -> all_in not_gt body ->
  parse_and_format_message (before ++ tag_text body ++ after)
  = parse_and_format_message (before ++ after).
Proof.
  intros Hb Hne Hall.
  assert (E : re_sub tag_re (before ++ tag_text body ++ after)
              = re_sub tag_re (before ++ after)).
  { rewrite (re_sub_no_tag_prefix before (tag_text body ++ after)) by assumption.
    rewrite (re_sub_no_tag_prefix before after) by assumption.
    now rewrite re_sub_tag. }
  unfold parse_and_format_message, parse_fields. cbv zeta. now rewrite E.
Qed.

Lemma first_tag_invisible_witness :
  parse_and_format_message
    ([MONEY_BAG] ++ lit " " ++ [PLUS_MINUS] ++ lit " 0.00000002 "
     ++ tag_text (lit "b") ++ lit "BNB" ++ [LF]
     ++ [RED_ENVELOPE] ++ lit " Claimed: 646 / 711" ++ [LF]
     ++ [WRAPPED_GIFT] ++ lit " IJAU5UL6")
  = Some sample_output.
Proof.
  change (parse_and_format_message
            (([MONEY_BAG] ++ lit " " ++ [PLUS_MINUS] ++ lit " 0.00000002 ")
             ++ tag_text (lit "b")
             ++ (lit "BNB" ++ [LF]
                 ++ [RED_ENVELOPE] ++ lit " Claimed: 646 / 711" ++ [LF]
                 ++ [WRAPPED_GIFT] ++ lit " IJAU5UL6"))
          = Some sample_output).
  rewrite first_tag_invisible.
  - vm_compute. reflexivity.
  - apply absent_not_In. vm_compute. reflexivity.
  - discriminate.
  - repeat constructor.
Defined.
